(** * Animation and physics core of the portfolio site

    A shallow embedding of the frame-driven simulators of the repository:

    - [Spring] and [Spring3D]   (src/utils/AnimationOrchestrator.ts)
    - the ripple collection     (the application store: [addRipple],
                                 [clearExpiredRipples])
    - the ripple uniforms       (components/3D/MercurySurface.tsx, the
                                 [useFrame] callback)
    - the ripple sum            (shaders/mercuryVertex.glsl,
                                 [calculateRipple], [getDisplacedPosition])
    - [ParticlePhysicsSystem]   (the particle physics class)
    - the interpolation helpers (src/utils/AnimationOrchestrator.ts:
                                 [lerp], [clamp], [mapRange], [smoothstep],
                                 [getStaggerDelay])
    - the pointer handlers      (components/3D/MercurySurface.tsx)
    - [FPSMonitor]              (the frame-rate monitor)

    A TypeScript [number] is an IEEE 754 binary64 value; it is modelled by
    Rocq's primitive [float], whose operations are the binary64 operations
    with round-to-nearest-even, so that every definition below runs on
    concrete inputs as the source does, NaN, infinities and signed zeros
    included.  [Date.now()] returns an integral number of milliseconds and
    is modelled by [Z]; the differences and comparisons of such numbers are
    exact in binary64 for every date a clock can show.

    What the host and the libraries supply is taken as a parameter: the
    numbers [Math.random()] returns, the functions [Math.sin], [Math.cos],
    [Math.acos], [Math.cbrt], [Math.floor], the GLSL [sin] and [exp], the
    noise function of the shader, the string a ripple gets as its id, what
    [performance.now()] returns and the string [toFixed] makes of a number.
    The camera and environment-map uniforms of the mercury material, which
    no ripple reads, are left out. *)

From Stdlib Require Import ZArith Floats Bool Lia.
From Stdlib Require Uint63.
From stdpp Require Import base option strings list sorting gmap.

Set Warnings "-inexact-float".
#[local] Open Scope float_scope.

(** ** JavaScript numbers *)

Module JS.

(** [Math.min(a, b)]: NaN if either argument is NaN, [-0] below [+0]. *)
Definition Math_min (a b : float) : float :=
  if is_nan a || is_nan b then nan
  else if a <? b then a
  else if b <? a then b
  else if get_sign a then a else b.

(** [Math.abs]. *)
Definition Math_abs (a : float) : float := abs a.

(** [Math.fround]: the binary32 value nearest to a binary64 one, which is
    what a store into a [Float32Array] keeps. *)
Definition fround (x : float) : float :=
  match Prim2SF x with
  | S754_finite s m e =>
      SF2Prim (binary_normalize 24 128 (cond_Zopp s (Zpos m)) e s)
  | _ => x
  end.

(** Shapes of a binary64 value: a zero; a zero or a finite number. *)
Definition sf_zero (x : spec_float) : Prop :=
  match x with S754_zero _ => True | _ => False end.

Definition sf_finite (x : spec_float) : Prop :=
  match x with S754_zero _ | S754_finite _ _ _ => True | _ => False end.

(** A zero, a finite number or an infinity of sign [s]. *)
Definition sf_signed (s : bool) (x : spec_float) : Prop :=
  match x with
  | S754_zero s' | S754_infinity s' | S754_finite s' _ _ => s' = s
  | S754_nan => False
  end.

(** Equal, or both zero: what [===] sees on two finite numbers. *)
Definition eqz (a c : float) : Prop :=
  a = c \/ (is_zero a = true /\ is_zero c = true).

End JS.

(** ** Scalar spring (class [Spring]) *)

Module Spring.

Record SpringConfig := {
  cfg_tension : float;
  cfg_friction : float;
  cfg_mass : float
}.

(** The default argument of the constructor. *)
Definition default_config : SpringConfig :=
  {| cfg_tension := 400; cfg_friction := 30; cfg_mass := 1 |}.

Record t := {
  position : float;
  velocity : float;
  target : float;
  tension : float;
  friction : float;
  mass : float
}.

(** [constructor(initialValue, config)]: six assignments, no check. *)
Definition new (initialValue : float) (config : SpringConfig) : t :=
  {| position := initialValue;
     velocity := 0;
     target := initialValue;
     tension := cfg_tension config;
     friction := cfg_friction config;
     mass := cfg_mass config |}.

Definition setTarget (s : t) (tgt : float) : t :=
  {| position := position s; velocity := velocity s; target := tgt;
     tension := tension s; friction := friction s; mass := mass s |}.

(** The clamped step in seconds, the first line of [update]. *)
Definition seconds (deltaTime : float) : float :=
  JS.Math_min (deltaTime / 1000) 0.064.

(** [update(deltaTime)]: the new state and the returned number. *)
Definition update (s : t) (deltaTime : float) : t * float :=
  let dt := seconds deltaTime in
  let displacement := position s - target s in
  let springForce := - tension s * displacement in
  let dampingForce := - friction s * velocity s in
  let acceleration := (springForce + dampingForce) / mass s in
  let velocity' := velocity s + acceleration * dt in
  let position' := position s + velocity' * dt in
  ({| position := position'; velocity := velocity'; target := target s;
      tension := tension s; friction := friction s; mass := mass s |},
   position').

Definition getValue (s : t) : float := position s.

Definition isAtRest (s : t) (threshold : float) : bool :=
  (JS.Math_abs (velocity s) <? threshold)
  && (JS.Math_abs (position s - target s) <? threshold).

Definition reset (s : t) (value : float) : t :=
  {| position := value; velocity := 0; target := value;
     tension := tension s; friction := friction s; mass := mass s |}.

(** Running [update] once per frame. *)
Definition run (s : t) (deltas : list float) : t :=
  fold_left (fun s d => fst (update s d)) deltas s.

(** A spring resting at its target: speed [+0], a finite position equal
    to the target. *)
Definition at_rest (s : t) : Prop :=
  velocity s = 0
  /\ is_finite (position s) = true
  /\ JS.eqz (position s) (target s).

(** A configuration under which a resting spring feels no force: finite
    tension and friction, a mass that is a number other than zero. *)
Definition regular (s : t) : Prop :=
  is_finite (tension s) = true
  /\ is_finite (friction s) = true
  /\ is_nan (mass s) = false
  /\ is_zero (mass s) = false.

End Spring.

(** ** Vector spring (class [Spring3D]) *)

Module Spring3D.

(** [SPRING_CONFIGS.snappy], the default configuration. *)
Definition snappy : Spring.SpringConfig :=
  {| Spring.cfg_tension := 400; Spring.cfg_friction := 30;
     Spring.cfg_mass := 1 |}.

(** [springs: [Spring, Spring, Spring]]. *)
Record t := {
  sx : Spring.t;
  sy : Spring.t;
  sz : Spring.t
}.

Definition triple : Type := float * float * float.

Definition new (initialValue : triple) (config : Spring.SpringConfig) : t :=
  let '(a, b, c) := initialValue in
  {| sx := Spring.new a config;
     sy := Spring.new b config;
     sz := Spring.new c config |}.

Definition setTarget (s : t) (tgt : triple) : t :=
  let '(a, b, c) := tgt in
  {| sx := Spring.setTarget (sx s) a;
     sy := Spring.setTarget (sy s) b;
     sz := Spring.setTarget (sz s) c |}.

Definition update (s : t) (deltaTime : float) : t * triple :=
  let '(x', rx) := Spring.update (sx s) deltaTime in
  let '(y', ry) := Spring.update (sy s) deltaTime in
  let '(z', rz) := Spring.update (sz s) deltaTime in
  ({| sx := x'; sy := y'; sz := z' |}, (rx, ry, rz)).

Definition getValue (s : t) : triple :=
  (Spring.getValue (sx s), Spring.getValue (sy s), Spring.getValue (sz s)).

Definition isAtRest (s : t) (threshold : float) : bool :=
  Spring.isAtRest (sx s) threshold
  && Spring.isAtRest (sy s) threshold
  && Spring.isAtRest (sz s) threshold.

Definition run (s : t) (deltas : list float) : t :=
  fold_left (fun s d => fst (update s d)) deltas s.

(** Driving the X axis alone: the Y and Z targets are passed back as they
    are. *)
Definition setTargetX (s : t) (x : float) : t :=
  setTarget s (x, Spring.target (sy s), Spring.target (sz s)).

End Spring3D.

(** ** The ripple collection of the application store *)

Module Store.

Record Ripple := {
  id : string;
  position : float * float;
  strength : float;
  time : Z
}.

(** [arr.slice(-n)]: the elements from index [max (length - n) 0] on. *)
Definition slice_last {A} (n : nat) (l : list A) : list A :=
  drop (length l - n) l.

(** [addRipple(position, strength)].  [rid] is what [generateRippleId()]
    returned and [now] what [Date.now()] returned for the [time] field. *)
Definition newRipple (rid : string) (now : Z)
    (pos : float * float) (str : float) : Ripple :=
  {| id := rid; position := pos; strength := str; time := now |}.

Definition addRipple (rid : string) (now : Z)
    (pos : float * float) (str : float) (ripples : list Ripple)
    : list Ripple :=
  slice_last 10 (ripples ++ [newRipple rid now pos str]).

(** [clearExpiredRipples()], [now] being its [Date.now()]. *)
Definition clearExpiredRipples (now : Z) (ripples : list Ripple)
    : list Ripple :=
  filter (fun r => (now - time r < 5000)%Z) ripples.

(** The calls a client can make on the collection. *)
Inductive op :=
| Add (rid : string) (now : Z) (pos : float * float) (str : float)
| ClearExpired (now : Z).

Definition step (ripples : list Ripple) (o : op) : list Ripple :=
  match o with
  | Add rid now pos str => addRipple rid now pos str ripples
  | ClearExpired now => clearExpiredRipples now ripples
  end.

Definition run (ripples : list Ripple) (ops : list op) : list Ripple :=
  fold_left step ops ripples.

(** The clock reading of a call, and the ripples a trace creates, in the
    order of their creation. *)
Definition clock (o : op) : Z :=
  match o with Add _ now _ _ => now | ClearExpired now => now end.

Definition created (ops : list op) : list Ripple :=
  flat_map (fun o => match o with
                     | Add rid now pos str => [newRipple rid now pos str]
                     | ClearExpired _ => []
                     end) ops.

Definition is_add (o : op) : Prop :=
  match o with Add _ _ _ _ => True | ClearExpired _ => False end.

(** Fifteen additions, one per millisecond. *)
Definition fifteen : list op :=
  (fun i => Add "ripple" (Z.of_nat i) (0, 0) 1) <$> seq 0 15.

(** Oldest first by the [time] field. *)
Definition oldest_first (ripples : list Ripple) : Prop :=
  StronglySorted (fun r1 r2 => (time r1 <= time r2)%Z) ripples.

End Store.

(** ** Ripple uniforms of [MercurySurface] (the [useFrame] callback) *)

Module MercurySurface.

(** [THREE.Vector2]. *)
Record Vector2 := { v2x : float; v2y : float }.

(** The uniforms of the mercury material that carry the ripples.  The
    three arrays are created once, with ten entries each, and are written
    in place on every frame. *)
Record Uniforms := {
  uTime : float;
  uRipples : list Vector2;
  uRippleStrengths : list float;
  uRippleTimes : list float
}.

(** The uniforms [new THREE.ShaderMaterial] is given. *)
Definition initial : Uniforms :=
  {| uTime := 0;
     uRipples := replicate 10 {| v2x := 0; v2y := 0 |};
     uRippleStrengths := replicate 10 0;
     uRippleTimes := replicate 10 0 |}.

(** [RIPPLE.maxRipples]. *)
Definition maxRipples : Z := 10.

(** A [number] holding an integral time value. *)
Definition of_Z (z : Z) : float := SF2Prim (binary_normalize prec emax z 0 false).

(** Body of the loop that resets the arrays.  Here and below every index
    written is below 10, the length the arrays are created with, so that a
    write never falls outside an array. *)
Definition reset_slot (u : Uniforms) (i : nat) : Uniforms :=
  {| uTime := uTime u;
     uRipples := <[i := {| v2x := 0; v2y := 0 |}]> (uRipples u);
     uRippleStrengths := <[i := 0]> (uRippleStrengths u);
     uRippleTimes := <[i := 0]> (uRippleTimes u) |}.

(** The three assignments made for an active ripple. *)
Definition write_slot (u : Uniforms) (activeCount : nat) (ripple : Store.Ripple)
    : Uniforms :=
  {| uTime := uTime u;
     uRipples :=
       <[activeCount := {| v2x := fst (Store.position ripple);
                           v2y := snd (Store.position ripple) |}]> (uRipples u);
     uRippleStrengths :=
       <[activeCount := Store.strength ripple]> (uRippleStrengths u);
     uRippleTimes :=
       <[activeCount := of_Z (Store.time ripple) / 1000]> (uRippleTimes u) |}.

(** The backwards loop over [ripples]: [rs] lists [ripples[i]],
    [ripples[i-1]], ..., [ripples[0]]; it stops when the array is
    exhausted or when [activeCount] reaches 10. *)
Fixpoint pack_loop (now : Z) (rs : list Store.Ripple) (activeCount : nat)
    (u : Uniforms) : Uniforms :=
  match rs with
  | [] => u
  | ripple :: rs' =>
      if (activeCount <? 10)%nat then
        if (now - Store.time ripple <? maxRipples * 1000)%Z then
          pack_loop now rs' (S activeCount) (write_slot u activeCount ripple)
        else pack_loop now rs' activeCount u
      else u
  end.

(** One frame: [elapsedTime] is [state.clock.elapsedTime], [now] is
    [Date.now()], [ripples] the collection read from the store. *)
Definition useFrame (elapsedTime : float) (now : Z)
    (ripples : list Store.Ripple) (u : Uniforms) : Uniforms :=
  let u := {| uTime := elapsedTime; uRipples := uRipples u;
              uRippleStrengths := uRippleStrengths u;
              uRippleTimes := uRippleTimes u |} in
  let u := fold_left reset_slot (seq 0 10) u in
  pack_loop now (reverse ripples) 0 u.

(** Arrays of the declared capacity. *)
Definition well_formed (u : Uniforms) : Prop :=
  length (uRipples u) = 10%nat
  /\ length (uRippleStrengths u) = 10%nat
  /\ length (uRippleTimes u) = 10%nat.

(** The ripples the packing keeps, most recent first. *)
Definition active (now : Z) (ripples : list Store.Ripple) : list Store.Ripple :=
  take 10 (filter (fun r => (now - Store.time r < maxRipples * 1000)%Z)
                  (reverse ripples)).

(** A list cut or zero-padded to ten slots. *)
Definition pad10 {A} (zero : A) (l : list A) : list A :=
  take 10 l ++ replicate (10 - length l) zero.

(** What a slot receives from a ripple. *)
Definition vec (r : Store.Ripple) : Vector2 :=
  {| v2x := fst (Store.position r); v2y := snd (Store.position r) |}.

Definition seconds (r : Store.Ripple) : float := of_Z (Store.time r) / 1000.

Definition origin : Vector2 := {| v2x := 0; v2y := 0 |}.

(** The uniforms that hold the ripples [acc] in their first slots and
    zeros in the others. *)
Definition packed (t : float) (acc : list Store.Ripple) : Uniforms :=
  {| uTime := t;
     uRipples := pad10 origin (vec <$> acc);
     uRippleStrengths := pad10 0 (Store.strength <$> acc);
     uRippleTimes := pad10 0 (seconds <$> acc) |}.

(** The store after one ripple of strength 1 was added at the origin at
    time 0. *)
Definition one_ripple : list Store.Ripple :=
  Store.addRipple "ripple-0-abc" 0 (0, 0) 1 [].

End MercurySurface.

(** ** The ripple part of the vertex shader (mercuryVertex.glsl)

    A GLSL [float] is a binary32 value: a uniform holds the binary32 value
    nearest to the number the host stored, and every operation rounds to
    binary32.  [sin], [exp] and the noise function [cnoise] are taken as
    they come. *)

Module Shader.

Import MercurySurface.

Definition f32 : float -> float := JS.fround.
Definition add32 (a b : float) : float := f32 (a + b).
Definition sub32 (a b : float) : float := f32 (a - b).
Definition mul32 (a b : float) : float := f32 (a * b).
Definition sqrt32 (a : float) : float := f32 (sqrt a).

(** [distance(p, c)] on [vec2]. *)
Definition distance (p c : Vector2) : float :=
  let dx := sub32 (v2x p) (v2x c) in
  let dy := sub32 (v2y p) (v2y c) in
  sqrt32 (add32 (mul32 dx dx) (mul32 dy dy)).

(** Slot [i] of a uniform array, as the shader reads it. *)
Definition slot (l : list float) (i : nat) : float :=
  f32 (default 0 (l !! i)).

Definition slot2 (l : list Vector2) (i : nat) : Vector2 :=
  let v := default {| v2x := 0; v2y := 0 |} (l !! i) in
  {| v2x := f32 (v2x v); v2y := f32 (v2y v) |}.

(** A slot the ripple loop passes over: too weak, or of an age outside
    the open interval from 0 to 5 seconds. *)
Definition skipped (u : Uniforms) (i : nat) : bool :=
  negb (f32 0.01 <? slot (uRippleStrengths u) i)
  || negb ((0 <? sub32 (f32 (uTime u)) (slot (uRippleTimes u) i))
           && (sub32 (f32 (uTime u)) (slot (uRippleTimes u) i) <? 5)).

Section Builtins.

Variables gl_sin gl_exp : float -> float.
Variable cnoise : float -> float -> float -> float.

Definition calculateRipple (pos center : Vector2) (strength time : float)
    : float :=
  let dist := distance pos center in
  let waveSpeed := f32 3.0 in
  let waveFrequency := f32 8.0 in
  let decay := f32 0.3 in
  let wave := gl_sin (sub32 (mul32 dist waveFrequency) (mul32 time waveSpeed)) in
  let envelope :=
    mul32 (gl_exp (mul32 (- dist) decay)) (gl_exp (mul32 (- time) (f32 0.5))) in
  mul32 (mul32 wave envelope) strength.

(** Body of the loop [for (int i = 0; i < 10; i++)]. *)
Definition ripple_step (u : Uniforms) (pos : Vector2) (rippleSum : float)
    (i : nat) : float :=
  if f32 0.01 <? slot (uRippleStrengths u) i then
    let rippleAge := sub32 (f32 (uTime u)) (slot (uRippleTimes u) i) in
    if (0 <? rippleAge) && (rippleAge <? 5) then
      add32 rippleSum
            (calculateRipple pos (slot2 (uRipples u) i)
                             (slot (uRippleStrengths u) i) rippleAge)
    else rippleSum
  else rippleSum.

(** The value of [rippleSum] after the loop, at the point [pos.xz]. *)
Definition rippleSum (u : Uniforms) (pos : Vector2) : float :=
  fold_left (ripple_step u pos) (seq 0 10) 0.

(** The ambient waves of [getDisplacedPosition]: three octaves of noise. *)
Definition ambientWave (u : Uniforms) (px pz : float) : float :=
  let t := f32 (uTime u) in
  let noise1 :=
    mul32 (cnoise (mul32 px (f32 0.3)) (mul32 pz (f32 0.3)) (mul32 t (f32 0.15)))
          (f32 0.15) in
  let noise2 :=
    mul32 (cnoise (add32 (mul32 px (f32 0.6)) 100)
                  (add32 (mul32 pz (f32 0.6)) 100) (mul32 t (f32 0.2)))
          (f32 0.08) in
  let noise3 :=
    mul32 (cnoise (add32 (mul32 px (f32 1.2)) 200)
                  (add32 (mul32 pz (f32 1.2)) 200) (mul32 t (f32 0.25)))
          (f32 0.04) in
  add32 (add32 noise1 noise2) noise3.

(** [getDisplacedPosition(pos).y]: the height of the vertex, plus the
    ambient waves and the ripples. *)
Definition getDisplacedPosition_y (u : Uniforms) (px py pz : float) : float :=
  add32 py (add32 (ambientWave u px pz) (rippleSum u {| v2x := px; v2y := pz |})).

End Builtins.

End Shader.

(** ** The particle system (class [ParticlePhysicsSystem])

    A [Float32Array] is an object with an identity: the system keeps
    references to its arrays, and a caller's array passed to
    [setTargetPositions] is kept by reference.  The world holds the arrays
    by reference, the number of [Math.random()] calls made so far and the
    lines written to the console. *)

Module Particles.

Record Vector3 := { x : float; y : float; z : float }.

Record Color := { r : float; g : float; b : float }.

Record ParticleConfig := {
  cfg_count : nat;
  cfg_spread : float;
  cfg_size : float;
  cfg_color : Color;
  cfg_magneticStrength : float;
  cfg_dragCoefficient : float;
  cfg_gravity : Vector3
}.

Inductive FieldType := attract | repel | vortex.

Record ForceField := {
  position : Vector3;
  strength : float;
  radius : float;
  type : FieldType
}.

(** Identity of a [Float32Array]. *)
Definition ref : Type := nat.

Record World := {
  heap : gmap ref (list float);
  randoms : nat;
  console : list string
}.

Record t := {
  positions : ref;
  velocities : ref;
  colors : ref;
  sizes : ref;
  lifetimes : ref;
  targetPositions : option ref;
  count : nat;
  forceFields : list ForceField;
  config : ParticleConfig;
  gridSize : float;
  grid : gmap string (list nat)
}.

(** *** Computations that read and write the world *)

Definition M (A : Type) : Type := World -> A * World.

#[export] Instance M_ret : MRet M := fun A a w => (a, w).

#[export] Instance M_bind : MBind M :=
  fun A B f m w => let '(a, w') := m w in f a w'.

(** [new Float32Array(n)]: a fresh array of [n] zeros. *)
Definition alloc (n : nat) : M ref := fun w =>
  let l := fresh (dom (heap w)) in
  (l, {| heap := <[l := replicate n 0]> (heap w);
         randoms := randoms w; console := console w |}).

(** [a[i]]; a read outside the array yields [undefined], which is NaN in
    arithmetic. *)
Definition load (a : ref) (i : nat) : M float := fun w =>
  (default nan (heap w !! a ≫= fun l => l !! i), w).

(** [a[i] = v]; the value is rounded to binary32 and a write outside the
    array is ignored. *)
Definition store (a : ref) (i : nat) (v : float) : M unit := fun w =>
  (tt, {| heap := alter (fun l => <[i := JS.fround v]> l) a (heap w);
          randoms := randoms w; console := console w |}).

(** [a.length]. *)
Definition array_length (a : ref) : M nat := fun w =>
  (length (default [] (heap w !! a)), w).

(** [console.warn(msg)]. *)
Definition warn (msg : string) : M unit := fun w =>
  (tt, {| heap := heap w; randoms := randoms w;
          console := console w ++ [msg] |}).

(** A [for] loop over the indices in [l] that threads a state. *)
Fixpoint for_fold {S} (l : list nat) (body : S -> nat -> M S) (s : S) : M S :=
  match l with
  | [] => mret s
  | i :: l' => s' ← body s i; for_fold l' body s'
  end.

Definition for_each (l : list nat) (body : nat -> M unit) : M unit :=
  for_fold l (fun _ i => body i) tt.

(** *** Pure parts of [update] *)

(** Magnetic attraction of a particle at [p] towards its target [tgt]. *)
Definition magnetic_step (magneticStrength : float) (p tgt f : Vector3)
    : Vector3 :=
  let dx := x tgt - x p in
  let dy := y tgt - y p in
  let dz := z tgt - z p in
  let distSq := dx * dx + dy * dy + dz * dz + 0.001 in
  let dist := sqrt distSq in
  let attractionForce := magneticStrength in
  {| x := x f + (dx / dist) * attractionForce;
     y := y f + (dy / dist) * attractionForce;
     z := z f + (dz / dist) * attractionForce |}.




(** Body of the loop [for (const field of this.forceFields)]: the force
    [f] accumulated so far, updated by one field. *)
Definition field_step (p : Vector3) (f : Vector3) (field : ForceField)
    : Vector3 :=
  let dx := x (position field) - x p in
  let dy := y (position field) - y p in
  let dz := z (position field) - z p in
  let distSq := dx * dx + dy * dy + dz * dz + 0.001 in
  let dist := sqrt distSq in
  if dist <? radius field then
    let strength := strength field * (1 - dist / radius field) in
    match type field with
    | attract =>
        {| x := x f + (dx / dist) * strength;
           y := y f + (dy / dist) * strength;
           z := z f + (dz / dist) * strength |}
    | repel =>
        {| x := x f - (dx / dist) * strength;
           y := y f - (dy / dist) * strength;
           z := z f - (dz / dist) * strength |}
    | vortex =>
        let perpX := - dy in
        let perpY := dx in
        {| x := x f + perpX * strength;
           y := y f + perpY * strength;
           z := z f |}
    end
  else f.



(** A vortex of strength 1 and radius 10 centred at (3, 4, 0), and the
    particle (and the force accumulated so far) at the origin. *)
Definition whirl : ForceField :=
  {| position := {| x := 3; y := 4; z := 0 |};
     strength := 1; radius := 10; type := vortex |}.

Definition centre : Vector3 := {| x := 0; y := 0; z := 0 |}.

(** [w'] holds the arrays of [w], each at its place and of its length,
    and the same console: nothing was created, dropped, resized or
    logged. *)
Definition in_place (w w' : World) : Prop :=
  (forall a, length <$> (heap w' !! a) = length <$> (heap w !! a))
  /\ console w' = console w.

(** Cell [i] of the array [a]. *)
Definition cell (w : World) (a : ref) (i : nat) : option float :=
  heap w !! a ≫= fun l => l !! i.

(** A system of two particles with targets and a force field set, and a
    world that holds its arrays. *)
Definition sample_config : ParticleConfig :=
  {| cfg_count := 2; cfg_spread := 1; cfg_size := 1;
     cfg_color := {| r := 1; g := 1; b := 1 |};
     cfg_magneticStrength := 1; cfg_dragCoefficient := 0.1;
     cfg_gravity := {| x := 0; y := 0; z := 0 |} |}.

Definition sample : t :=
  {| positions := 0%nat; velocities := 1%nat; colors := 2%nat;
     sizes := 3%nat; lifetimes := 4%nat; targetPositions := Some 5%nat;
     count := 2;
     forceFields := [whirl]; config := sample_config;
     gridSize := 1.0; grid := ∅ |}.

Definition sample_world : World :=
  {| heap := list_to_map [(0%nat, replicate 6 0.25); (1%nat, replicate 6 0.25);
                          (2%nat, replicate 6 0.25); (3%nat, replicate 2 0.25);
                          (4%nat, replicate 2 0.25); (5%nat, replicate 6 0.25);
                          (6%nat, replicate 4 0.25)];
     randoms := 0; console := [] |}.

Section Environment.

(** The [n]-th number [Math.random()] returns, and the library
    functions whose results are implementation-approximated. *)
Variable random_value : nat -> float.
Variables Math_sin Math_cos Math_acos Math_cbrt Math_floor : float -> float.
(** The conversion of a number to a string in a template literal. *)
Variable to_string : float -> string.

Definition Math_PI : float := 0x1.921fb54442d18p+1.

Definition random : M float := fun w =>
  (random_value (randoms w),
   {| heap := heap w; randoms := S (randoms w); console := console w |}).

(** Body of the loop of [initializeParticles]. *)
Definition init_particle (s : t) (i : nat) : M unit :=
  let i3 := (i * 3)%nat in
  r1 ← random;
  let theta := r1 * Math_PI * 2 in
  r2 ← random;
  let phi := Math_acos (2 * r2 - 1) in
  r3 ← random;
  let radius := cfg_spread (config s) * Math_cbrt r3 in
  _ ← store (positions s) i3 (radius * Math_sin phi * Math_cos theta);
  _ ← store (positions s) (i3 + 1) (radius * Math_sin phi * Math_sin theta);
  _ ← store (positions s) (i3 + 2) (radius * Math_cos phi);
  r4 ← random;
  _ ← store (velocities s) i3 ((r4 - 0.5) * 0.1);
  r5 ← random;
  _ ← store (velocities s) (i3 + 1) ((r5 - 0.5) * 0.1);
  r6 ← random;
  _ ← store (velocities s) (i3 + 2) ((r6 - 0.5) * 0.1);
  let colorVariation := 0.1 in
  r7 ← random;
  _ ← store (colors s) i3 (r (cfg_color (config s)) + (r7 - 0.5) * colorVariation);
  r8 ← random;
  _ ← store (colors s) (i3 + 1) (g (cfg_color (config s)) + (r8 - 0.5) * colorVariation);
  r9 ← random;
  _ ← store (colors s) (i3 + 2) (b (cfg_color (config s)) + (r9 - 0.5) * colorVariation);
  r10 ← random;
  _ ← store (sizes s) i (cfg_size (config s) * (0.5 + r10 * 0.5));
  store (lifetimes s) i 1.0.

Definition initializeParticles (s : t) : M unit :=
  for_each (seq 0 (count s)) (init_particle s).

(** [constructor(config)]. *)
Definition new (cfg : ParticleConfig) : M t :=
  let n := cfg_count cfg in
  positions ← alloc (n * 3);
  velocities ← alloc (n * 3);
  colors ← alloc (n * 3);
  sizes ← alloc n;
  lifetimes ← alloc n;
  let s := {| positions := positions; velocities := velocities;
              colors := colors; sizes := sizes; lifetimes := lifetimes;
              targetPositions := None; count := n; forceFields := [];
              config := cfg; gridSize := 1.0; grid := ∅ |} in
  _ ← initializeParticles s;
  mret s.

Definition with_targets (s : t) (tp : option ref) : t :=
  {| positions := positions s; velocities := velocities s;
     colors := colors s; sizes := sizes s; lifetimes := lifetimes s;
     targetPositions := tp; count := count s;
     forceFields := forceFields s; config := config s;
     gridSize := gridSize s; grid := grid s |}.

Definition with_fields (s : t) (fs : list ForceField) : t :=
  {| positions := positions s; velocities := velocities s;
     colors := colors s; sizes := sizes s; lifetimes := lifetimes s;
     targetPositions := targetPositions s; count := count s;
     forceFields := fs; config := config s;
     gridSize := gridSize s; grid := grid s |}.

Definition with_grid (s : t) (gr : gmap string (list nat)) : t :=
  {| positions := positions s; velocities := velocities s;
     colors := colors s; sizes := sizes s; lifetimes := lifetimes s;
     targetPositions := targetPositions s; count := count s;
     forceFields := forceFields s; config := config s;
     gridSize := gridSize s; grid := gr |}.

(** [setTargetPositions(targets)]. *)
Definition setTargetPositions (s : t) (targets : ref) : M t :=
  len ← array_length targets;
  if decide (len ≠ (count s * 3)%nat) then
    _ ← warn "Target positions count mismatch";
    mret s
  else mret (with_targets s (Some targets)).

Definition addForceField (s : t) (field : ForceField) : t :=
  with_fields s (forceFields s ++ [field]).

Definition clearForceFields (s : t) : t := with_fields s [].

Definition getGridKey (s : t) (px py pz : float) : string :=
  let gx := Math_floor (px / gridSize s) in
  let gy := Math_floor (py / gridSize s) in
  let gz := Math_floor (pz / gridSize s) in
  to_string gx +:+ "," +:+ to_string gy +:+ "," +:+ to_string gz.

(** The force on the particle at [p] before drag: gravity, the magnetic
    pull when targets are set, then every force field in turn. *)
Definition field_forces (s : t) (p : Vector3) (f : Vector3) : Vector3 :=
  fold_left (field_step p) (forceFields s) f.

(** Body of the loop of [update]. *)
Definition update_particle (dt : float) (s : t) (i : nat) : M t :=
  let i3 := (i * 3)%nat in
  px ← load (positions s) i3;
  py ← load (positions s) (i3 + 1);
  pz ← load (positions s) (i3 + 2);
  let p := {| x := px; y := py; z := pz |} in
  let f := {| x := 0 + x (cfg_gravity (config s));
              y := 0 + y (cfg_gravity (config s));
              z := 0 + z (cfg_gravity (config s)) |} in
  f ← match targetPositions s with
      | Some tp =>
          if 0 <? cfg_magneticStrength (config s) then
            tx ← load tp i3;
            ty ← load tp (i3 + 1);
            tz ← load tp (i3 + 2);
            mret (magnetic_step (cfg_magneticStrength (config s)) p
                                {| x := tx; y := ty; z := tz |} f)
          else mret f
      | None => mret f
      end;
  let f := field_forces s p f in
  vx ← load (velocities s) i3;
  vy ← load (velocities s) (i3 + 1);
  vz ← load (velocities s) (i3 + 2);
  let fx := x f - vx * cfg_dragCoefficient (config s) in
  let fy := y f - vy * cfg_dragCoefficient (config s) in
  let fz := z f - vz * cfg_dragCoefficient (config s) in
  vx0 ← load (velocities s) i3;
  _ ← store (velocities s) i3 (vx0 + fx * dt);
  vy0 ← load (velocities s) (i3 + 1);
  _ ← store (velocities s) (i3 + 1) (vy0 + fy * dt);
  vz0 ← load (velocities s) (i3 + 2);
  _ ← store (velocities s) (i3 + 2) (vz0 + fz * dt);
  px0 ← load (positions s) i3;
  vx' ← load (velocities s) i3;
  _ ← store (positions s) i3 (px0 + vx' * dt);
  py0 ← load (positions s) (i3 + 1);
  vy' ← load (velocities s) (i3 + 1);
  _ ← store (positions s) (i3 + 1) (py0 + vy' * dt);
  pz0 ← load (positions s) (i3 + 2);
  vz' ← load (velocities s) (i3 + 2);
  _ ← store (positions s) (i3 + 2) (pz0 + vz' * dt);
  qx ← load (positions s) i3;
  qy ← load (positions s) (i3 + 1);
  qz ← load (positions s) (i3 + 2);
  let gridKey := getGridKey s qx qy qz in
  let bucket := default [] (grid s !! gridKey) in
  mret (with_grid s (<[gridKey := bucket ++ [i]]> (grid s))).

(** [update(deltaTime)]. *)
Definition update (s : t) (deltaTime : float) : M t :=
  let dt := JS.Math_min deltaTime 0.033 in
  let s := with_grid s ∅ in
  for_fold (seq 0 (count s)) (update_particle dt) s.

(** [reset()]. *)
Definition reset (s : t) : M t :=
  _ ← initializeParticles s;
  let s := with_targets s None in
  mret (with_fields s []).

End Environment.

End Particles.

(** ** What initializing a particle writes *)

Module ParticleInit.

Import Particles.

(** The cell [j] of the array [a] went from its content in [w] to the
    binary32 value of [v] in [w'], if the array has such a cell. *)
Definition put (w w' : World) (a : ref) (j : nat) (v : float) : Prop :=
  cell w' a j = (fun _ => JS.fround v) <$> cell w a j.

(** The cells of particle [i]: three in each of the position, velocity
    and colour arrays, one in each of the size and lifetime arrays. *)
Definition owns (s : t) (i : nat) (a : ref) (j : nat) : Prop :=
  ((a = positions s \/ a = velocities s \/ a = colors s)
   /\ (i * 3 <= j < i * 3 + 3)%nat)
  \/ ((a = sizes s \/ a = lifetimes s) /\ j = i).

Section Environment.

Variable random_value : nat -> float.
Variables Math_sin Math_cos Math_acos Math_cbrt : float -> float.

(** What the cells of particle [i] hold in [w'], against [w], once the
    body of the loop of [initializeParticles] has run for it on the
    random numbers from number [base] on. *)
Definition initialized (s : t) (w w' : World) (i base : nat) : Prop :=
  let rnd k := random_value (k + base) in
  let theta := rnd 0%nat * Math_PI * 2 in
  let phi := Math_acos (2 * rnd 1%nat - 1) in
  let radius := cfg_spread (config s) * Math_cbrt (rnd 2%nat) in
  let colorVariation := 0.1 in
  put w w' (positions s) (i * 3) (radius * Math_sin phi * Math_cos theta)
  /\ put w w' (positions s) (i * 3 + 1) (radius * Math_sin phi * Math_sin theta)
  /\ put w w' (positions s) (i * 3 + 2) (radius * Math_cos phi)
  /\ put w w' (velocities s) (i * 3) ((rnd 3%nat - 0.5) * 0.1)
  /\ put w w' (velocities s) (i * 3 + 1) ((rnd 4%nat - 0.5) * 0.1)
  /\ put w w' (velocities s) (i * 3 + 2) ((rnd 5%nat - 0.5) * 0.1)
  /\ put w w' (colors s) (i * 3)
       (r (cfg_color (config s)) + (rnd 6%nat - 0.5) * colorVariation)
  /\ put w w' (colors s) (i * 3 + 1)
       (g (cfg_color (config s)) + (rnd 7%nat - 0.5) * colorVariation)
  /\ put w w' (colors s) (i * 3 + 2)
       (b (cfg_color (config s)) + (rnd 8%nat - 0.5) * colorVariation)
  /\ put w w' (sizes s) i (cfg_size (config s) * (0.5 + rnd 9%nat * 0.5))
  /\ put w w' (lifetimes s) i 1.

End Environment.

End ParticleInit.

(** ** Interpolation helpers (src/utils/AnimationOrchestrator.ts) *)

Module Animations.

(** [Math.max(a, b)]: NaN if either argument is NaN, [+0] above [-0]. *)
Definition Math_max (a b : float) : float :=
  if is_nan a || is_nan b then nan
  else if a <? b then b
  else if b <? a then a
  else if get_sign a then b else a.

Definition lerp (start end_ t : float) : float :=
  start + (end_ - start) * t.

Definition lerpVector3 (start end_ : Spring3D.triple) (t : float)
    : Spring3D.triple :=
  let '(s0, s1, s2) := start in
  let '(e0, e1, e2) := end_ in
  (lerp s0 e0 t, lerp s1 e1 t, lerp s2 e2 t).

Definition clamp (value min max : float) : float :=
  JS.Math_min (Math_max value min) max.

Definition mapRange (value inMin inMax outMin outMax : float) : float :=
  ((value - inMin) * (outMax - outMin)) / (inMax - inMin) + outMin.

Definition smoothstep (edge0 edge1 x : float) : float :=
  let t := clamp ((x - edge0) / (edge1 - edge0)) 0 1 in
  t * t * (3 - 2 * t).

(** [getStaggerDelay(index, total, totalDuration = 500, staggerRatio =
    0.5)]. *)
Definition getStaggerDelay (index total totalDuration staggerRatio : float)
    : float :=
  let staggerDuration := totalDuration * staggerRatio in
  (index / (total - 1)) * staggerDuration.

End Animations.

(** ** Pointer handlers of [MercurySurface] *)

Module MercuryHandlers.

Import Store.

(** [RIPPLE.hoverStrength] and [RIPPLE.clickStrength]. *)
Definition hoverStrength : float := 0.3.
Definition clickStrength : float := 1.2.

(** A pointer event as a handler meets it: the intersection point, if
    the event has one; what [Date.now()] returns in the handler ([now]);
    and, for the ripple [addRipple] would create, its id and what
    [Date.now()] returns there ([stamp]). *)
Record Event := {
  point : option Particles.Vector3;
  now : Z;
  rid : string;
  stamp : Z
}.

(** [handlePointerMove(event)].  [ripples] is the collection the
    component read at its last render, [current] the one the store holds
    when the handler runs. *)
Definition handlePointerMove (fluidEnabled : bool) (ripples : list Ripple)
    (event : Event) (current : list Ripple) : list Ripple :=
  if negb fluidEnabled then current
  else match point event with
       | Some p =>
           let lastRipple := last ripples in
           if match lastRipple with
              | None => true
              | Some r => (100 <? now event - time r)%Z
              end
           then addRipple (rid event) (stamp event)
                  (Particles.x p, Particles.z p) hoverStrength current
           else current
       | None => current
       end.

(** [handleClick(event)]. *)
Definition handleClick (fluidEnabled : bool) (event : Event)
    (current : list Ripple) : list Ripple :=
  if negb fluidEnabled then current
  else match point event with
       | Some p =>
           addRipple (rid event) (stamp event)
             (Particles.x p, Particles.z p) clickStrength current
       | None => current
       end.

(** Pointer moves handled one after the other, the component rendered
    again after each: the handler reads the collection the store holds. *)
Definition moves (fluidEnabled : bool) (events : list Event)
    (ripples : list Ripple) : list Ripple :=
  fold_left (fun rs ev => handlePointerMove fluidEnabled rs ev rs)
            events ripples.

(** Neighbours in the collection are more than 100 ms apart. *)
Definition spaced (ripples : list Ripple) : Prop :=
  forall i r1 r2,
    ripples !! i = Some r1 -> ripples !! S i = Some r2 ->
    (time r1 + 100 < time r2)%Z.

End MercuryHandlers.

(** ** More of the particle system: what a step of the simulation
    writes, [createSplash] and the getters *)

Module ParticleEffects.

Import Particles.

(** A computation that leaves every array at its place and of its
    length, writes nothing to the console and draws no random number. *)
Definition quiet {A} (m : M A) : Prop :=
  forall w, in_place w (m w).2 /\ randoms (m w).2 = randoms w.

(** A computation that leaves the cell [j] of the array [a] as it is. *)
Definition keeps {A} (a : ref) (j : nat) (m : M A) : Prop :=
  forall w, cell (m w).2 a j = cell w a j.

(** A computation whose result satisfies [P], in whatever world it
    runs. *)
Definition yields {A} (P : A -> Prop) (m : M A) : Prop :=
  forall w, P (m w).1.

(** The particle indices a grid holds, bucket after bucket. *)
Definition members (g : gmap string (list nat)) : list nat :=
  map_to_list g ≫= snd.

(** [getPositions()], [getColors()], [getSizes()], [getCount()]: the
    arrays themselves, not copies. *)
Definition getPositions (s : t) : ref := positions s.
Definition getColors (s : t) : ref := colors s.
Definition getSizes (s : t) : ref := sizes s.
Definition getCount (s : t) : nat := count s.

(** The cells [update] writes for particle [i]: three of the positions
    and three of the velocities. *)
Definition advances (s : t) (i : nat) (a : ref) (j : nat) : Prop :=
  (a = positions s \/ a = velocities s) /\ (i * 3 <= j < i * 3 + 3)%nat.

(** What [a[j]] reads in the world [w]. *)
Definition read (w : World) (a : ref) (j : nat) : float :=
  default nan (cell w a j).

Definition read3 (w : World) (a : ref) (i : nat) : Vector3 :=
  {| x := read w a (i * 3); y := read w a (i * 3 + 1);
     z := read w a (i * 3 + 2) |}.

(** The force on particle [i] before drag, from what the arrays hold in
    [w]: gravity, the pull of the target when targets are set and the
    magnetic strength is above zero, then the force fields. *)
Definition force_on (s : t) (w : World) (i : nat) : Vector3 :=
  let p := read3 w (positions s) i in
  let f := {| x := 0 + x (cfg_gravity (config s));
              y := 0 + y (cfg_gravity (config s));
              z := 0 + z (cfg_gravity (config s)) |} in
  let f := match targetPositions s with
           | Some tp =>
               if 0 <? cfg_magneticStrength (config s) then
                 magnetic_step (cfg_magneticStrength (config s)) p
                               (read3 w tp i) f
               else f
           | None => f
           end in
  field_forces s p f.

(** What the cells of particle [i] hold in [w'], against [w], once the
    body of the loop of [update] has run for it with the step [dt]: each
    velocity took its share of the force less the drag, and each position
    moved by the velocity its array then held. *)
Definition stepped (s : t) (dt : float) (w w' : World) (i : nat) : Prop :=
  let p := read3 w (positions s) i in
  let v := read3 w (velocities s) i in
  let f := force_on s w i in
  let drag := cfg_dragCoefficient (config s) in
  let v' := read3 w' (velocities s) i in
  ParticleInit.put w w' (velocities s) (i * 3) (x v + (x f - x v * drag) * dt)
  /\ ParticleInit.put w w' (velocities s) (i * 3 + 1)
       (y v + (y f - y v * drag) * dt)
  /\ ParticleInit.put w w' (velocities s) (i * 3 + 2)
       (z v + (z f - z v * drag) * dt)
  /\ ParticleInit.put w w' (positions s) (i * 3) (x p + x v' * dt)
  /\ ParticleInit.put w w' (positions s) (i * 3 + 1) (y p + y v' * dt)
  /\ ParticleInit.put w w' (positions s) (i * 3 + 2) (z p + z v' * dt).

Section Environment.

Variable random_value : nat -> float.

(** Body of the loop of [createSplash]: the two angles are drawn and not
    used. *)
Definition splash_particle (splashPositions : ref) (impactPoint : Vector3)
    (i : nat) : M unit :=
  let i3 := (i * 3)%nat in
  r1 ← random random_value;
  let theta := r1 * Math_PI * 2 in
  r2 ← random random_value;
  let phi := r2 * Math_PI * 0.5 in
  _ ← store splashPositions i3 (x impactPoint);
  _ ← store splashPositions (i3 + 1) (y impactPoint);
  store splashPositions (i3 + 2) (z impactPoint).

(** [createSplash(impactPoint, count, force)]. *)
Definition createSplash (s : t) (impactPoint : Vector3) (count : nat)
    (force : float) : M ref :=
  splashPositions ← alloc (count * 3);
  _ ← for_each (seq 0 count) (splash_particle splashPositions impactPoint);
  mret splashPositions.

End Environment.

(** The three cells of a particle at the impact point. *)
Definition at_point (p : Vector3) : list float :=
  [JS.fround (x p); JS.fround (y p); JS.fround (z p)].

End ParticleEffects.

(** ** The frame-rate monitor (class [FPSMonitor]) and the settings of
    the store it lowers *)

Module Performance.

Inductive Mode := high | medium | low.

Inductive Theme := dark | light.

(** The [settings] of the application store. *)
Record Settings := {
  audioEnabled : bool;
  theme : Theme;
  performanceMode : Mode;
  fluidEnabled : bool;
  reduceMotion : bool;
  filmGrain : bool;
  vignette : bool;
  bloom : bool
}.

(** The settings a new store holds. *)
Definition default_settings : Settings :=
  {| audioEnabled := true; theme := dark; performanceMode := high;
     fluidEnabled := true; reduceMotion := false; filmGrain := false;
     vignette := true; bloom := true |}.

(** [updateSettings({ performanceMode: newMode })]: the settings spread,
    then the one key. *)
Definition updateSettings_performanceMode (newMode : Mode) (s : Settings)
    : Settings :=
  {| audioEnabled := audioEnabled s; theme := theme s;
     performanceMode := newMode; fluidEnabled := fluidEnabled s;
     reduceMotion := reduceMotion s; filmGrain := filmGrain s;
     vignette := vignette s; bloom := bloom s |}.

Record FPSMonitor := {
  frames : list float;
  lastTime : float;
  currentFPS : float;
  autoAdjust : bool;
  adjustCooldown : float
}.

(** [new FPSMonitor()], [now] being what [performance.now()] returns. *)
Definition new (now : float) : FPSMonitor :=
  {| frames := []; lastTime := now; currentFPS := 60; autoAdjust := true;
     adjustCooldown := 0 |}.

(** What the monitor reads and writes outside itself: the settings of the
    store and the console. *)
Record World := {
  settings : Settings;
  console : list string
}.

Definition mode_name (m : Mode) : string :=
  match m with high => "high" | medium => "medium" | low => "low" end.

Definition is_low (m : Mode) : bool :=
  match m with low => true | _ => false end.

(** How far a mode is above the lowest. *)
Definition rank (m : Mode) : nat :=
  match m with high => 2 | medium => 1 | low => 0 end.

(** What [w'] is to [w] when only the monitor has acted in between: the
    settings differ in the performance mode at most, the console has
    grown, and the lines added are as many as the steps the mode went
    down. *)
Definition lowered (w w' : World) : Prop :=
  settings w'
  = updateSettings_performanceMode (performanceMode (settings w')) (settings w)
  /\ console w `prefix_of` console w'
  /\ (rank (performanceMode (settings w')) + length (console w')
      = rank (performanceMode (settings w)) + length (console w))%nat.

Section Host.

(** [x.toFixed(1)]. *)
Variable toFixed1 : float -> string.

(** [checkPerformance()]. *)
Definition checkPerformance (m : FPSMonitor) (w : World)
    : FPSMonitor * World :=
  if (currentFPS m <? 30) && negb (is_low (performanceMode (settings w)))
  then
    let newMode :=
      match performanceMode (settings w) with
      | high => medium
      | _ => low
      end in
    ({| frames := frames m; lastTime := lastTime m;
        currentFPS := currentFPS m; autoAdjust := autoAdjust m;
        adjustCooldown := 5000 |},
     {| settings := updateSettings_performanceMode newMode (settings w);
        console := console w
                   ++ ["Performance: Downgraded to " +:+ mode_name newMode
                       +:+ " mode (FPS: " +:+ toFixed1 (currentFPS m)
                       +:+ ")"] |})
  else (m, w).

(** [update()], [now] being what [performance.now()] returns. *)
Definition update (now : float) (m : FPSMonitor) (w : World)
    : FPSMonitor * World :=
  let delta := now - lastTime m in
  let fps := 1000 / delta in
  let frames := frames m ++ [fps] in
  let frames := if (60 <? length frames)%nat then drop 1 frames else frames in
  let currentFPS :=
    fold_left (fun a b => a + b) frames 0
    / MercurySurface.of_Z (Z.of_nat (length frames)) in
  let m := {| frames := frames; lastTime := now; currentFPS := currentFPS;
              autoAdjust := autoAdjust m;
              adjustCooldown := adjustCooldown m |} in
  let '(m, w) :=
    if autoAdjust m && (adjustCooldown m <=? 0) then checkPerformance m w
    else (m, w) in
  let m :=
    if 0 <? adjustCooldown m then
      {| frames := Performance.frames m; lastTime := lastTime m;
         currentFPS := Performance.currentFPS m; autoAdjust := autoAdjust m;
         adjustCooldown := adjustCooldown m - delta |}
    else m in
  (m, w).

(** [setAutoAdjust(enabled)]. *)
Definition setAutoAdjust (enabled : bool) (m : FPSMonitor) : FPSMonitor :=
  {| frames := frames m; lastTime := lastTime m; currentFPS := currentFPS m;
     autoAdjust := enabled; adjustCooldown := adjustCooldown m |}.

Definition getFPS (m : FPSMonitor) : float := currentFPS m.

(** The calls made on the monitor. *)
Inductive op :=
| Update (now : float)
| SetAutoAdjust (enabled : bool).

Definition step (mw : FPSMonitor * World) (o : op) : FPSMonitor * World :=
  match o with
  | Update now => update now mw.1 mw.2
  | SetAutoAdjust enabled => (setAutoAdjust enabled mw.1, mw.2)
  end.

Definition run (ops : list op) (m : FPSMonitor) (w : World)
    : FPSMonitor * World :=
  fold_left step ops (m, w).

End Host.

(** The frame rates a trace measures, from the clock reading [last]
    on. *)
Fixpoint readings (last : float) (ops : list op) : list float :=
  match ops with
  | [] => []
  | Update now :: ops' => 1000 / (now - last) :: readings now ops'
  | SetAutoAdjust _ :: ops' => readings last ops'
  end.

End Performance.

(** * Properties *)

(** ** Binary64 arithmetic

    The facts about [+], [-], [*], [/] and the comparisons that the
    simulators rely on, each read off the specification of the operation on
    [spec_float]. *)

Module FloatFacts.

Import JS.

(** *** The tests [is_nan], [is_zero], [is_finite] on the shape of a number *)

Lemma SFcompare_refl_finite s m e :
  SFcompare (S754_finite s m e) (S754_finite s m e) = Some Eq.
Proof.
  simpl. rewrite Z.compare_refl.
  assert (Pos.compare_cont Eq m m = Eq) as -> by apply Pos.compare_refl.
  now destruct s.
Qed.

Lemma is_nan_spec x : is_nan x = true <-> Prim2SF x = S754_nan.
Proof.
  unfold is_nan. rewrite FloatAxioms.eqb_spec. unfold SFeqb.
  destruct (Prim2SF x) as [s|s| |s m e].
  - simpl. split; discriminate.
  - destruct s; simpl; split; discriminate.
  - simpl. tauto.
  - rewrite SFcompare_refl_finite. simpl. split; discriminate.
Qed.

Lemma is_zero_spec x : is_zero x = true <-> sf_zero (Prim2SF x).
Proof.
  unfold is_zero. rewrite FloatAxioms.eqb_spec. unfold SFeqb.
  change (Prim2SF zero) with (S754_zero false).
  destruct (Prim2SF x) as [s|s| |s m e]; simpl;
    try destruct s; simpl; split; (discriminate || tauto).
Qed.

Lemma is_finite_spec x : is_finite x = true <-> sf_finite (Prim2SF x).
Proof.
  unfold is_finite, is_nan, is_infinity.
  rewrite !FloatAxioms.eqb_spec, abs_spec. unfold SFeqb.
  change (Prim2SF infinity) with (S754_infinity false).
  destruct (Prim2SF x) as [s|s| |s m e]; try rewrite SFcompare_refl_finite;
    simpl; try destruct s; simpl; split; (discriminate || tauto).
Qed.

(** Turns the tests in the goal and the hypotheses into shapes, and the
    operations into their specifications. *)
Ltac to_sf :=
  repeat match goal with
  | H : is_zero _ = true |- _ => apply is_zero_spec in H
  | H : is_finite _ = true |- _ => apply is_finite_spec in H
  | |- is_zero _ = true => apply is_zero_spec
  | |- is_finite _ = true => apply is_finite_spec
  end;
  rewrite ?add_spec, ?sub_spec, ?mul_spec, ?div_spec, ?opp_spec in *.

(** *** Arithmetic on zeros *)

Lemma opp_finite a : is_finite a = true -> is_finite (- a) = true.
Proof. intros H. to_sf. now destruct (Prim2SF a). Qed.

Lemma mul_zero_r a w :
  is_finite a = true -> is_zero w = true -> is_zero (a * w) = true.
Proof.
  intros Ha Hw. to_sf.
  destruct (Prim2SF a), (Prim2SF w); simpl in *; tauto.
Qed.

Lemma mul_zero_l a w :
  is_finite a = true -> is_zero w = true -> is_zero (w * a) = true.
Proof.
  intros Ha Hw. to_sf.
  destruct (Prim2SF a), (Prim2SF w); simpl in *; tauto.
Qed.

Lemma add_zero_zero a c :
  is_zero a = true -> is_zero c = true -> is_zero (a + c) = true.
Proof.
  intros Ha Hc. to_sf.
  destruct (Prim2SF a) as [[]| | |], (Prim2SF c) as [[]| | |];
    simpl in *; tauto.
Qed.

Lemma div_zero w m :
  is_zero w = true -> is_nan m = false -> is_zero m = false ->
  is_zero (w / m) = true.
Proof.
  intros Hw Hn Hz. to_sf.
  assert (Prim2SF m <> S754_nan) as Hn'
    by (intros E; apply is_nan_spec in E; congruence).
  assert (~ sf_zero (Prim2SF m)) as Hz'
    by (intros E; apply is_zero_spec in E; congruence).
  destruct (Prim2SF w), (Prim2SF m); simpl in *; tauto.
Qed.

Lemma add_pos_zero w : is_zero w = true -> 0 + w = 0.
Proof.
  intros Hw. apply Prim2SF_inj. to_sf.
  change (Prim2SF 0) with (S754_zero false).
  destruct (Prim2SF w) as [[]| | |]; simpl in *; tauto.
Qed.

Lemma add_finite_zero p w :
  is_finite p = true -> is_zero w = true -> eqz (p + w) p.
Proof.
  intros Hp Hw.
  destruct (is_zero p) eqn:Hz.
  - right. split; [now apply add_zero_zero | assumption].
  - left. apply Prim2SF_inj.
    assert (~ sf_zero (Prim2SF p)) as Hz'
      by (intros E; apply is_zero_spec in E; congruence).
    to_sf. destruct (Prim2SF p), (Prim2SF w); simpl in *; tauto.
Qed.

(** *** Equal, or both zero *)

Lemma is_zero_finite a : is_zero a = true -> is_finite a = true.
Proof. intros H. to_sf. now destruct (Prim2SF a). Qed.

Lemma eqz_finite a c : eqz a c -> is_finite c = true -> is_finite a = true.
Proof. intros [->|[Ha _]] Hc; [assumption | now apply is_zero_finite]. Qed.

Lemma eqz_trans a c d : eqz a c -> eqz c d -> eqz a d.
Proof.
  intros [->|[Ha Hc]] [->|[Hc' Hd]]; unfold eqz; auto.
Qed.

Lemma eqz_refl a : eqz a a.
Proof. now left. Qed.

Lemma eqz_same a c : is_finite c = true -> eqz a c -> (a =? c) = true.
Proof.
  intros Hc [->|[Ha Hz]].
  - rewrite FloatAxioms.eqb_spec. to_sf. unfold SFeqb.
    destruct (Prim2SF c); simpl in Hc; try tauto;
      try reflexivity; now rewrite SFcompare_refl_finite.
  - rewrite FloatAxioms.eqb_spec. to_sf. unfold SFeqb.
    destruct (Prim2SF a), (Prim2SF c); simpl in *; tauto.
Qed.

(** *** A finite number minus itself, and plus its opposite *)

Lemma shl_align_same m e : shl_align m e (Z.min e e) = (m, e).
Proof. unfold shl_align. rewrite Z.min_id, Z.sub_diag. reflexivity. Qed.

Lemma SFsub_self X : sf_finite X -> sf_zero (SFsub prec emax X X).
Proof.
  destruct X as [[]| | |s m e]; simpl; try tauto. intros _.
  rewrite shl_align_same. simpl. rewrite Z.sub_diag. exact I.
Qed.

Lemma sub_eqz a c :
  is_finite a = true -> eqz a c -> is_zero (a - c) = true.
Proof.
  intros Ha [<-|[Hz Hc]].
  - to_sf. now apply SFsub_self.
  - to_sf. destruct (Prim2SF a) as [[]| | |], (Prim2SF c) as [[]| | |];
      simpl in *; tauto.
Qed.





(** *** Comparisons *)

Lemma compare_cont_Eq_antisym m n :
  Pos.compare_cont Eq n m = CompOpp (Pos.compare_cont Eq m n).
Proof. symmetry. apply (Pos.compare_cont_antisym m n Eq). Qed.

Lemma SFcompare_antisym A B :
  SFcompare B A = option_map CompOpp (SFcompare A B).
Proof.
  destruct A as [sa|sa| |sa ma ea], B as [sb|sb| |sb mb eb]; simpl;
    try reflexivity; try (now destruct sa); try (now destruct sb);
    try (now destruct sa, sb).
  rewrite (Z.compare_antisym ea eb).
  destruct sa, sb; try reflexivity; destruct (Z.compare ea eb);
    simpl; try reflexivity;
    rewrite (compare_cont_Eq_antisym ma mb);
    now rewrite ?CompOpp_involutive.
Qed.

Lemma SFcompare_refl A : A <> S754_nan -> SFcompare A A = Some Eq.
Proof.
  destruct A as [s|s| |s m e]; try congruence; intros _.
  - reflexivity.
  - now destruct s.
  - apply SFcompare_refl_finite.
Qed.

Lemma SFcompare_nan A B :
  A <> S754_nan -> B <> S754_nan -> SFcompare A B <> None.
Proof.
  destruct A, B; simpl; congruence.
Qed.

Lemma not_nan a : is_nan a = false -> Prim2SF a <> S754_nan.
Proof. intros H E. apply is_nan_spec in E. congruence. Qed.

Lemma leb_refl a : is_nan a = false -> (a <=? a) = true.
Proof.
  intros H. rewrite leb_spec. unfold SFleb.
  now rewrite SFcompare_refl by now apply not_nan.
Qed.

Lemma ltb_leb a c : (a <? c) = true -> (a <=? c) = true.
Proof.
  rewrite ltb_spec, leb_spec. unfold SFltb, SFleb.
  now destruct (SFcompare _ _) as [[]|].
Qed.

Lemma not_ltb_leb a c :
  is_nan a = false -> is_nan c = false ->
  (a <? c) = false -> (c <=? a) = true.
Proof.
  intros Ha Hc. rewrite ltb_spec, leb_spec. unfold SFltb, SFleb.
  rewrite (SFcompare_antisym (Prim2SF a) (Prim2SF c)).
  pose proof (SFcompare_nan _ _ (not_nan _ Ha) (not_nan _ Hc)) as Hn.
  destruct (SFcompare _ _) as [[]|]; simpl; congruence.
Qed.

(** [Math.min] returns one of its arguments, below both, and NaN only on
    a NaN. *)
Lemma Math_min_spec a c :
  is_nan a = false -> is_nan c = false ->
  (JS.Math_min a c = a \/ JS.Math_min a c = c)
  /\ (JS.Math_min a c <=? a) = true
  /\ (JS.Math_min a c <=? c) = true.
Proof.
  intros Ha Hc. unfold JS.Math_min. rewrite Ha, Hc. simpl.
  destruct (a <? c) eqn:Hac.
  { split; [now left|]. split; [now apply leb_refl | now apply ltb_leb]. }
  destruct (c <? a) eqn:Hca.
  { split; [now right|]. split; [now apply ltb_leb | now apply leb_refl]. }
  destruct (get_sign a).
  - split; [now left|]. split; [now apply leb_refl | now apply not_ltb_leb].
  - split; [now right|]. split; [now apply not_ltb_leb | now apply leb_refl].
Qed.

Lemma Math_min_nan a c :
  is_nan a || is_nan c = true -> JS.Math_min a c = nan.
Proof. intros H. unfold JS.Math_min. now rewrite H. Qed.

(** *** NaN: zero by zero, and what follows *)

Lemma div_zero_zero a c :
  is_zero a = true -> is_zero c = true -> is_nan (a / c) = true.
Proof.
  intros Ha Hc. apply is_nan_spec. to_sf.
  destruct (Prim2SF a), (Prim2SF c); simpl in *; tauto.
Qed.

Lemma mul_nan_l a c : is_nan a = true -> is_nan (a * c) = true.
Proof.
  intros Ha. apply is_nan_spec. apply is_nan_spec in Ha.
  rewrite mul_spec, Ha. reflexivity.
Qed.

Lemma add_nan_r a c : is_nan c = true -> is_nan (a + c) = true.
Proof.
  intros Hc. apply is_nan_spec. apply is_nan_spec in Hc.
  rewrite add_spec, Hc. now destruct (Prim2SF a).
Qed.

(** *** Rounding keeps the sign *)

Lemma shr_1_nonneg mrs : (0 <= shr_m mrs)%Z -> (0 <= shr_m (shr_1 mrs))%Z.
Proof.
  destruct mrs as [m r s]. cbn [shr_m].
  destruct m as [|[p|p|]|[p|p|]]; cbn; lia.
Qed.

Lemma iter_shr_1_nonneg p : forall mrs,
  (0 <= shr_m mrs)%Z -> (0 <= shr_m (SpecFloat.iter_pos shr_1 p mrs))%Z.
Proof.
  induction p as [p IH|p IH|]; intros mrs H; cbn [SpecFloat.iter_pos].
  - apply IH, IH, shr_1_nonneg, H.
  - apply IH, IH, H.
  - apply shr_1_nonneg, H.
Qed.

Lemma shr_fexp_nonneg p em m e l :
  (0 <= m)%Z -> (0 <= shr_m (fst (shr_fexp p em m e l)))%Z.
Proof.
  intros H. unfold shr_fexp, shr.
  assert (0 <= shr_m (shr_record_of_loc m l))%Z as H'
    by (destruct l as [|[]]; exact H).
  destruct (fexp p em (Zdigits2 m + e) - e)%Z; cbn [fst]; try exact H'.
  now apply iter_shr_1_nonneg.
Qed.

Lemma round_nearest_even_nonneg m l :
  (0 <= m)%Z -> (0 <= round_nearest_even m l)%Z.
Proof.
  intros H. destruct l as [|[]]; cbn; try destruct (Z.even m); lia.
Qed.

Lemma binary_round_aux_signed p em s m e l :
  (0 <= m)%Z -> sf_signed s (binary_round_aux p em s m e l).
Proof.
  intros H. unfold binary_round_aux.
  pose proof (shr_fexp_nonneg p em m e l H) as H1.
  destruct (shr_fexp p em m e l) as [mrs' e']. cbn [fst] in H1.
  pose proof (shr_fexp_nonneg p em _ e' loc_Exact
                (round_nearest_even_nonneg _ (loc_of_shr_record mrs') H1)) as H2.
  destruct (shr_fexp p em _ e' loc_Exact) as [mrs'' e'']. cbn [fst] in H2.
  destruct (shr_m mrs''); [reflexivity | | lia].
  now destruct (Z.leb e'' (em - p)).
Qed.

Lemma SFdiv_core_binary_nonneg p em m1 e1 m2 e2 :
  (0 <= fst (fst (SFdiv_core_binary p em (Zpos m1) e1 (Zpos m2) e2)))%Z.
Proof.
  unfold SFdiv_core_binary.
  set (m' := match (e1 - e2 - _)%Z with Zpos _ => _ | Z0 => _ | Zneg _ => _ end).
  assert (0 <= m')%Z as Hm'.
  { subst m'. destruct (e1 - e2 - _)%Z; try lia.
    apply Z.shiftl_nonneg. lia. }
  pose proof (Z.div_pos m' (Zpos m2) Hm' eq_refl) as Hq.
  unfold Z.div in Hq. destruct (Z.div_eucl m' (Zpos m2)) as [q r].
  exact Hq.
Qed.

(** A number that is not negative, divided by a positive finite one, is
    not negative and not NaN. *)
Lemma SFdiv_signed X m e :
  sf_signed false X -> sf_signed false (SFdiv prec emax X (S754_finite false m e)).
Proof.
  destruct X as [s|s| |s mx ex]; cbn [sf_signed]; try tauto; intros ->;
    try reflexivity.
  cbn [SFdiv xorb].
  pose proof (SFdiv_core_binary_nonneg prec emax mx ex m e) as H.
  destruct (SFdiv_core_binary prec emax (Zpos mx) ex (Zpos m) e) as [[mz ez] lz].
  now apply binary_round_aux_signed.
Qed.

Lemma leb_0_signed d :
  (0 <=? d) = true -> sf_signed false (Prim2SF d) \/ is_zero d = true.
Proof.
  rewrite leb_spec. change (Prim2SF 0) with (S754_zero false).
  unfold SFleb. intros H.
  destruct (Prim2SF d) as [s|s| |s m e] eqn:E; cbn in H |- *.
  - right. apply is_zero_spec. now rewrite E.
  - destruct s; [discriminate | now left].
  - discriminate.
  - destruct s; [discriminate | now left].
Qed.

(** *** Finite results have finite operands *)




End FloatFacts.

(** ** The order of binary64 numbers and the sign of a difference *)

Module FloatOrder.
Import JS FloatFacts.

(** *** Mantissas and their number of digits *)

Lemma digits2_size m : digits2_pos m = Pos.size m.
Proof. induction m as [m IH|m IH|]; simpl; congruence. Qed.

Lemma digits2_lt m : (Zpos m < 2 ^ Zpos (digits2_pos m))%Z.
Proof.
  rewrite digits2_size. pose proof (Pos.size_gt m) as H.
  apply Pos2Z.pos_lt_pos in H. now rewrite Pos2Z.inj_pow in H.
Qed.

Lemma digits2_le m : (2 ^ Zpos (digits2_pos m) <= 2 * Zpos m)%Z.
Proof.
  rewrite digits2_size. pose proof (Pos.size_le m) as H.
  apply Pos2Z.pos_le_pos in H. now rewrite Pos2Z.inj_pow in H.
Qed.

Lemma iter_xO m d : Zpos (Pos.iter xO m d) = (Zpos m * 2 ^ Zpos d)%Z.
Proof.
  apply (Pos.iter_ind _ xO m (fun p a => Zpos a = (Zpos m * 2 ^ Zpos p)%Z)).
  - rewrite Z.pow_1_r. lia.
  - intros p a Ha. rewrite Pos2Z.inj_succ, Z.pow_succ_r by lia.
    rewrite Pos2Z.inj_xO, Ha. lia.
Qed.

(** The mantissa of [m * 2^e] written with the exponent [ez <= e]. *)
Lemma shl_align_fst m e ez :
  (ez <= e)%Z -> Zpos (fst (shl_align m e ez)) = (Zpos m * 2 ^ (e - ez))%Z.
Proof.
  intros H. unfold shl_align.
  destruct (ez - e)%Z as [|d|d] eqn:E; cbn [fst].
  - replace (e - ez)%Z with 0%Z by lia. lia.
  - lia.
  - rewrite iter_xO. f_equal. f_equal. lia.
Qed.

(** What being a binary64 number says of a mantissa and its exponent. *)
Lemma bounded_inv m e :
  bounded prec emax m e = true ->
  (Zpos (digits2_pos m) <= prec)%Z
  /\ (emin <= e)%Z
  /\ ((emin < e)%Z -> Zpos (digits2_pos m) = prec).
Proof.
  unfold bounded, canonical_mantissa, fexp.
  intros [H _]%andb_prop. apply Z.eqb_eq in H. unfold emin, SpecFloat.emin in *.
  lia.
Qed.

Lemma finite_valid x s m e :
  Prim2SF x = S754_finite s m e -> bounded prec emax m e = true.
Proof. intros E. pose proof (Prim2SF_valid x) as H. now rewrite E in H. Qed.

(** The order of two positive binary64 numbers is the order of their
    mantissas once written with the same exponent. *)
Lemma compare_aligned m1 e1 m2 e2 :
  bounded prec emax m1 e1 = true -> bounded prec emax m2 e2 = true ->
  match (e1 ?= e2)%Z with
  | Lt => Lt
  | Gt => Gt
  | Eq => Pos.compare_cont Eq m1 m2
  end
  = (Zpos (fst (shl_align m1 e1 (Z.min e1 e2)))
     ?= Zpos (fst (shl_align m2 e2 (Z.min e1 e2))))%Z.
Proof.
  intros [Hd1 [He1 Hn1]]%bounded_inv [Hd2 [He2 Hn2]]%bounded_inv.
  rewrite !shl_align_fst by lia.
  pose proof (digits2_lt m1) as L1. pose proof (digits2_le m1) as G1.
  pose proof (digits2_lt m2) as L2. pose proof (digits2_le m2) as G2.
  assert (forall d, (Zpos d <= prec)%Z -> (2 ^ Zpos d <= 2 ^ prec)%Z) as Hpow
    by (intros d Hd; apply Z.pow_le_mono_r; lia).
  destruct (Z.compare_spec e1 e2) as [->|Hlt|Hgt].
  - rewrite Z.min_id, Z.sub_diag. simpl. rewrite !Pos.mul_1_r. reflexivity.
  - symmetry. apply Z.compare_lt_iff.
    rewrite Z.min_l, Z.sub_diag by lia. rewrite Z.pow_0_r, Z.mul_1_r.
    specialize (Hn2 ltac:(lia)). rewrite Hn2 in G2.
    assert (2 ^ 1 <= 2 ^ (e2 - e1))%Z by (apply Z.pow_le_mono_r; lia).
    specialize (Hpow _ Hd1). nia.
  - symmetry. apply Z.compare_gt_iff.
    rewrite Z.min_r, Z.sub_diag by lia. rewrite Z.pow_0_r, Z.mul_1_r.
    specialize (Hn1 ltac:(lia)). rewrite Hn1 in G1.
    assert (2 ^ 1 <= 2 ^ (e1 - e2))%Z by (apply Z.pow_le_mono_r; lia).
    specialize (Hpow _ Hd2). nia.
Qed.


(** *** Rounding a number that is not zero *)

Lemma shr_1_half mrs :
  (0 <= shr_m mrs)%Z -> shr_m (shr_1 mrs) = (shr_m mrs / 2)%Z.
Proof.
  destruct mrs as [m r s]. cbn [shr_m]. intros H. rewrite <- Z.div2_div.
  destruct m as [|[p|p|]|p]; cbn; try reflexivity; lia.
Qed.

Lemma iter_shr_1_div p : forall mrs,
  (0 <= shr_m mrs)%Z ->
  shr_m (SpecFloat.iter_pos shr_1 p mrs) = (shr_m mrs / 2 ^ Zpos p)%Z.
Proof.
  induction p as [p IH|p IH|]; intros mrs H; cbn [SpecFloat.iter_pos].
  - rewrite IH by (apply iter_shr_1_nonneg, shr_1_nonneg, H).
    rewrite IH by (apply shr_1_nonneg, H).
    rewrite shr_1_half by exact H.
    rewrite !Z.div_div by lia. f_equal.
    replace (Zpos p~1) with (1 + Zpos p + Zpos p)%Z by lia.
    rewrite !Z.pow_add_r by lia. rewrite Z.pow_1_r. lia.
  - rewrite IH by (apply iter_shr_1_nonneg, H).
    rewrite IH by exact H.
    rewrite !Z.div_div by lia. f_equal.
    replace (Zpos p~0) with (Zpos p + Zpos p)%Z by lia.
    rewrite !Z.pow_add_r by lia. lia.
  - rewrite shr_1_half by exact H. now rewrite Z.pow_1_r.
Qed.

Lemma shr_m_of_loc m l : shr_m (shr_record_of_loc m l) = m.
Proof. now destruct l as [|[]]. Qed.

(** Shifting a positive mantissa to its place leaves it positive, when
    the exponent is not below the least one. *)
Lemma shr_fexp_pos m e l :
  (emin <= e)%Z ->
  (0 < shr_m (fst (shr_fexp prec emax (Zpos m) e l)))%Z
  /\ (emin <= snd (shr_fexp prec emax (Zpos m) e l))%Z.
Proof.
  intros He. unfold shr_fexp, shr. cbn [Zdigits2].
  pose proof (digits2_le m) as G.
  destruct (fexp prec emax (Zpos (digits2_pos m) + e) - e)%Z as [|n|n] eqn:E;
    cbn [fst snd]; rewrite ?shr_m_of_loc; try (split; lia).
  split; [|lia].
  rewrite iter_shr_1_div by (rewrite shr_m_of_loc; lia).
  rewrite shr_m_of_loc.
  unfold fexp, emin, SpecFloat.emin in *.
  assert (Zpos n = Zpos (digits2_pos m) - prec)%Z as Hn by lia.
  apply Z.div_str_pos. split; [lia|].
  assert (2 ^ Zpos n * 2 ^ 1 <= 2 ^ Zpos (digits2_pos m))%Z.
  { rewrite <- Z.pow_add_r by lia. apply Z.pow_le_mono_r; [lia|].
    rewrite Hn. unfold prec. lia. }
  lia.
Qed.

Lemma round_nearest_even_pos m l :
  (0 < m)%Z -> (0 < round_nearest_even m l)%Z.
Proof.
  intros H. destruct l as [|[]]; cbn; try destruct (Z.even m); lia.
Qed.

Lemma binary_round_aux_nonzero s m e l :
  (emin <= e)%Z ->
  match binary_round_aux prec emax s (Zpos m) e l with
  | S754_finite s' _ _ | S754_infinity s' => s' = s
  | _ => False
  end.
Proof.
  intros He. unfold binary_round_aux.
  destruct (shr_fexp_pos m e l He) as [H1 E1].
  destruct (shr_fexp prec emax (Zpos m) e l) as [mrs' e']. cbn [fst snd] in *.
  pose proof (round_nearest_even_pos _ (loc_of_shr_record mrs') H1) as H2.
  destruct (round_nearest_even (shr_m mrs') (loc_of_shr_record mrs'))
    as [|m2|m2]; try lia.
  destruct (shr_fexp_pos m2 e' loc_Exact E1) as [H3 _].
  destruct (shr_fexp prec emax (Zpos m2) e' loc_Exact) as [mrs'' e''].
  cbn [fst] in H3.
  destruct (shr_m mrs''); try lia.
  now destruct (Z.leb e'' (emax - prec)).
Qed.

Lemma binary_round_nonzero s m e :
  (emin <= e)%Z ->
  match binary_round prec emax s m e with
  | S754_finite s' _ _ | S754_infinity s' => s' = s
  | _ => False
  end.
Proof.
  intros He. unfold binary_round.
  destruct (shl_align m e _) as [mz ez] eqn:E.
  apply binary_round_aux_nonzero.
  unfold shl_align in E.
  destruct (_ - e)%Z eqn:E'; inversion E; subst; try exact He.
  unfold fexp, emin, SpecFloat.emin. lia.
Qed.

(** The sign of a sum of mantissas is the sign of the number it rounds
    to. *)
Lemma binary_normalize_sign z e :
  (emin <= e)%Z ->
  SFcompare (binary_normalize prec emax z e false) (S754_zero false)
  = Some (z ?= 0)%Z.
Proof.
  intros He. destruct z as [|m|m]; cbn [binary_normalize].
  - reflexivity.
  - pose proof (binary_round_nonzero false m e He) as H.
    destruct (binary_round prec emax false m e) as [|s1| |s1 ? ?];
      try tauto; now subst s1.
  - pose proof (binary_round_nonzero true m e He) as H.
    destruct (binary_round prec emax true m e) as [|s1| |s1 ? ?];
      try tauto; now subst s1.
Qed.

(** *** The sign of a difference *)

(** A difference compares with zero as its operands compare with each
    other, unless it is NaN (an infinity minus itself). *)
Lemma SFsub_compare X Y :
  valid_binary X = true -> valid_binary Y = true ->
  SFsub prec emax X Y <> S754_nan ->
  SFcompare (SFsub prec emax X Y) (S754_zero false) = SFcompare X Y.
Proof.
  destruct X as [sx|sx| |sx mx ex], Y as [sy|sy| |sy my ey];
    cbn [valid_binary SFsub]; intros VX VY Hn; try congruence;
    try (now destruct sx, sy); try (now destruct sx); try (now destruct sy).
  destruct (bounded_inv _ _ VX) as (_ & Ex & _).
  destruct (bounded_inv _ _ VY) as (_ & Ey & _).
  rewrite binary_normalize_sign by lia.
  pose proof (compare_aligned mx ex my ey VX VY) as C.
  set (A := Zpos (fst (shl_align mx ex (Z.min ex ey)))) in *.
  set (B := Zpos (fst (shl_align my ey (Z.min ex ey)))) in *.
  assert (0 < A)%Z by (subst A; lia). assert (0 < B)%Z by (subst B; lia).
  cbn [SFcompare]. f_equal.
  destruct sx, sy; cbn [cond_Zopp].
  - assert ((- A - - B ?= 0)%Z = CompOpp (A ?= B)%Z) as ->.
    { destruct (Z.compare_spec A B); cbn [CompOpp];
        [apply Z.compare_eq_iff | apply Z.compare_gt_iff
         | apply Z.compare_lt_iff]; lia. }
    rewrite <- C. now destruct (ex ?= ey)%Z.
  - apply Z.compare_lt_iff. lia.
  - apply Z.compare_gt_iff. lia.
  - rewrite C. destruct (Z.compare_spec A B).
    + apply Z.compare_eq_iff. lia.
    + apply Z.compare_lt_iff. lia.
    + apply Z.compare_gt_iff. lia.
Qed.


Lemma SFsub_not_nan X Y c :
  valid_binary X = true -> valid_binary Y = true ->
  SFcompare X Y = Some c -> c <> Eq \/ sf_finite X ->
  SFsub prec emax X Y <> S754_nan.
Proof.
  destruct X as [sx|sx| |sx mx ex], Y as [sy|sy| |sy my ey];
    cbn [valid_binary SFsub SFcompare sf_finite]; intros VX VY Hc Hf;
    try discriminate; try (now destruct sx, sy).
  - destruct sx, sy; try discriminate; inversion Hc; subst; tauto.
  - destruct (bounded_inv _ _ VX) as (_ & Ex & _).
    destruct (bounded_inv _ _ VY) as (_ & Ey & _).
    intros E.
    pose proof (binary_normalize_sign
      (cond_Zopp sx (Zpos (fst (shl_align mx ex (Z.min ex ey))))
       - cond_Zopp sy (Zpos (fst (shl_align my ey (Z.min ex ey)))))
      (Z.min ex ey) ltac:(lia)) as H.
    rewrite E in H. discriminate.
Qed.

(** On numbers: [a - c] is below, at or above zero as [a] is below, at or
    above [c]. *)
Lemma sub_ltb a c : (a <? c) = true -> (a - c <? 0) = true.
Proof.
  rewrite !ltb_spec, sub_spec. unfold SFltb, SF64sub.
  change (Prim2SF 0) with (S754_zero false).
  destruct (SFcompare (Prim2SF a) (Prim2SF c)) as [[]|] eqn:E;
    try discriminate. intros _.
  rewrite SFsub_compare, E; auto using Prim2SF_valid.
  apply (SFsub_not_nan _ _ Lt); auto using Prim2SF_valid.
Qed.

Lemma sub_gtb a c : (c <? a) = true -> (0 <? a - c) = true.
Proof.
  rewrite !ltb_spec, sub_spec. unfold SFltb, SF64sub.
  change (Prim2SF 0) with (S754_zero false).
  rewrite (SFcompare_antisym (Prim2SF a) (Prim2SF c)).
  rewrite (SFcompare_antisym (SFsub _ _ _ _) (S754_zero false)).
  destruct (SFcompare (Prim2SF a) (Prim2SF c)) as [[]|] eqn:E;
    try discriminate. intros _.
  rewrite SFsub_compare, E; auto using Prim2SF_valid.
  apply (SFsub_not_nan _ _ Gt); auto using Prim2SF_valid.
Qed.

Lemma sub_leb a c : (a <=? c) = true -> (0 <? a - c) = false.
Proof.
  rewrite leb_spec, ltb_spec, sub_spec. unfold SFleb, SFltb, SF64sub.
  change (Prim2SF 0) with (S754_zero false).
  rewrite (SFcompare_antisym (SFsub _ _ _ _) (S754_zero false)).
  intros H.
  destruct (SFsub prec emax (Prim2SF a) (Prim2SF c)) as [| | |] eqn:En;
    try reflexivity; rewrite <- En;
    (rewrite SFsub_compare; auto using Prim2SF_valid; [|congruence]);
    now destruct (SFcompare (Prim2SF a) (Prim2SF c)) as [[]|].
Qed.

(** Two finite numbers that differ have a difference that is not zero. *)
Lemma sub_nonzero a c :
  is_finite a = true -> is_nan c = false -> (a =? c) = false ->
  is_zero (a - c) = false /\ is_nan (a - c) = false.
Proof.
  intros Ha Hc Hne.
  assert (SFcompare (Prim2SF a) (Prim2SF c) = Some Lt
          \/ SFcompare (Prim2SF a) (Prim2SF c) = Some Gt) as Hcmp.
  { rewrite FloatAxioms.eqb_spec in Hne. unfold SFeqb in Hne.
    apply is_finite_spec in Ha. apply not_nan in Hc.
    destruct (SFcompare _ _) as [[]|] eqn:E; try discriminate; auto.
    exfalso. destruct (Prim2SF a), (Prim2SF c); cbn in *; congruence. }
  destruct Hcmp as [E|E].
  - assert ((a <? c) = true) as H by (rewrite ltb_spec; unfold SFltb; now rewrite E).
    apply sub_ltb in H. rewrite ltb_spec in H. unfold SFltb in H.
    split.
    + destruct (is_zero (a - c)) eqn:Z; [|reflexivity].
      apply is_zero_spec in Z. now destruct (Prim2SF (a - c)).
    + destruct (is_nan (a - c)) eqn:Z; [|reflexivity].
      apply is_nan_spec in Z. now rewrite Z in H.
  - assert ((c <? a) = true) as H.
    { rewrite ltb_spec. unfold SFltb.
      now rewrite (SFcompare_antisym (Prim2SF a) (Prim2SF c)), E. }
    apply sub_gtb in H. rewrite ltb_spec in H. unfold SFltb in H.
    change (Prim2SF 0) with (S754_zero false) in H.
    split.
    + destruct (is_zero (a - c)) eqn:Z; [|reflexivity].
      apply is_zero_spec in Z. now destruct (Prim2SF (a - c)).
    + destruct (is_nan (a - c)) eqn:Z; [|reflexivity].
      apply is_nan_spec in Z. now rewrite Z in H.
Qed.


(** *** The order is transitive *)

Lemma lex_cases e1 m1 e2 m2 :
  match match (e1 ?= e2)%Z with
        | Lt => Lt
        | Gt => Gt
        | Eq => Pos.compare_cont Eq m1 m2
        end with
  | Lt => (e1 < e2)%Z \/ (e1 = e2 /\ (m1 < m2)%positive)
  | Eq => e1 = e2 /\ m1 = m2
  | Gt => (e2 < e1)%Z \/ (e1 = e2 /\ (m2 < m1)%positive)
  end.
Proof.
  destruct (Z.compare_spec e1 e2); try lia.
  change (Pos.compare_cont Eq m1 m2) with (Pos.compare m1 m2).
  destruct (Pos.compare_spec m1 m2); lia.
Qed.

Lemma lex_opp (c : comparison) (e1 e2 : Z) :
  match (e1 ?= e2)%Z with Lt => Gt | Gt => Lt | Eq => CompOpp c end
  = CompOpp match (e1 ?= e2)%Z with Lt => Lt | Gt => Gt | Eq => c end.
Proof. now destruct (e1 ?= e2)%Z. Qed.

Lemma SFcompare_trans X Y Z c1 c2 :
  SFcompare X Y = Some c1 -> SFcompare Y Z = Some c2 ->
  c1 <> Gt -> c2 <> Gt ->
  SFcompare X Z = Some match c1, c2 with Eq, Eq => Eq | _, _ => Lt end.
Proof.
  destruct X as [sx|sx| |sx mx ex], Y as [sy|sy| |sy my ey],
    Z as [sz|sz| |sz mz ez]; cbn [SFcompare];
    intros H1 H2 N1 N2; try discriminate;
    try (destruct sx); try (destruct sy); try (destruct sz);
    rewrite ?lex_opp in *;
    inversion H1; inversion H2; subst; try congruence; try reflexivity.
  all: f_equal.
  all: try (pose proof (lex_cases ex mx ey my) as L1;
            pose proof (lex_cases ey my ez mz) as L2;
            pose proof (lex_cases ex mx ez mz) as L3).
  all: repeat match goal with
       | H : context [match (?a ?= ?b)%Z with Lt => Lt | Gt => Gt | Eq => ?c end] |- _ =>
           destruct (match (a ?= b)%Z with Lt => Lt | Gt => Gt | Eq => c end)
       | |- context [match (?a ?= ?b)%Z with Lt => Lt | Gt => Gt | Eq => ?c end] =>
           destruct (match (a ?= b)%Z with Lt => Lt | Gt => Gt | Eq => c end)
       end;
       cbn [CompOpp] in *; try congruence; try reflexivity; exfalso; lia.
Qed.


Lemma leb_trans a c d :
  (a <=? c) = true -> (c <=? d) = true -> (a <=? d) = true.
Proof.
  rewrite !leb_spec. unfold SFleb.
  destruct (SFcompare (Prim2SF a) (Prim2SF c)) as [c1|] eqn:E1; [|discriminate].
  destruct (SFcompare (Prim2SF c) (Prim2SF d)) as [c2|] eqn:E2;
    [|now destruct c1].
  intros H1 H2.
  rewrite (SFcompare_trans _ _ _ _ _ E1 E2) by (now destruct c1 + now destruct c2).
  now destruct c1, c2.
Qed.

Lemma leb_ltb_trans a c d :
  (a <=? c) = true -> (c <? d) = true -> (a <? d) = true.
Proof.
  rewrite leb_spec, !ltb_spec. unfold SFleb, SFltb.
  destruct (SFcompare (Prim2SF a) (Prim2SF c)) as [c1|] eqn:E1; [|discriminate].
  destruct (SFcompare (Prim2SF c) (Prim2SF d)) as [c2|] eqn:E2;
    [|now destruct c1].
  intros H1 H2.
  rewrite (SFcompare_trans _ _ _ _ _ E1 E2) by (now destruct c1 + now destruct c2).
  now destruct c1, c2.
Qed.

Lemma ltb_leb_trans a c d :
  (a <? c) = true -> (c <=? d) = true -> (a <? d) = true.
Proof.
  rewrite leb_spec, !ltb_spec. unfold SFleb, SFltb.
  destruct (SFcompare (Prim2SF a) (Prim2SF c)) as [c1|] eqn:E1; [|discriminate].
  destruct (SFcompare (Prim2SF c) (Prim2SF d)) as [c2|] eqn:E2;
    [|now destruct c1].
  intros H1 H2.
  rewrite (SFcompare_trans _ _ _ _ _ E1 E2) by (now destruct c1 + now destruct c2).
  now destruct c1, c2.
Qed.

Lemma leb_not_ltb a c : (a <=? c) = true -> (c <? a) = false.
Proof.
  rewrite leb_spec, ltb_spec. unfold SFleb, SFltb.
  rewrite (SFcompare_antisym (Prim2SF a) (Prim2SF c)).
  now destruct (SFcompare _ _) as [[]|].
Qed.

Lemma ltb_not_leb a c : (a <? c) = true -> (c <=? a) = false.
Proof.
  rewrite leb_spec, ltb_spec. unfold SFleb, SFltb.
  rewrite (SFcompare_antisym (Prim2SF a) (Prim2SF c)).
  now destruct (SFcompare _ _) as [[]|].
Qed.

Lemma leb_antisym a c :
  (a <=? c) = true -> (c <=? a) = true -> (a =? c) = true.
Proof.
  rewrite !leb_spec, FloatAxioms.eqb_spec. unfold SFleb, SFeqb.
  rewrite (SFcompare_antisym (Prim2SF a) (Prim2SF c)).
  now destruct (SFcompare _ _) as [[]|].
Qed.

Lemma leb_not_nan a c :
  (a <=? c) = true -> is_nan a = false /\ is_nan c = false.
Proof.
  rewrite leb_spec. unfold SFleb. intros H.
  split; apply not_true_is_false; intros E; apply is_nan_spec in E;
    rewrite E in H; [|destruct (Prim2SF a)]; discriminate.
Qed.

Lemma ltb_not_nan a c :
  (a <? c) = true -> is_nan a = false /\ is_nan c = false.
Proof. intros H. apply leb_not_nan. now apply ltb_leb. Qed.

Lemma eqb_leb a c : (a =? c) = true -> (a <=? c) = true.
Proof.
  rewrite leb_spec, FloatAxioms.eqb_spec. unfold SFleb, SFeqb.
  now destruct (SFcompare _ _) as [[]|].
Qed.

Lemma eqb_sym a c : (a =? c) = (c =? a).
Proof.
  rewrite !FloatAxioms.eqb_spec. unfold SFeqb.
  rewrite (SFcompare_antisym (Prim2SF a) (Prim2SF c)).
  now destruct (SFcompare _ _) as [[]|].
Qed.


(** *** Shapes *)

Lemma not_finite_spec x :
  is_finite x = false <->
  match Prim2SF x with S754_nan | S754_infinity _ => True | _ => False end.
Proof.
  split.
  - intros H. destruct (Prim2SF x) eqn:E; try exact I;
      assert (is_finite x = true) by (apply is_finite_spec; now rewrite E);
      congruence.
  - intros H. apply not_true_is_false. intros F. apply is_finite_spec in F.
    now destruct (Prim2SF x).
Qed.

Lemma is_nan_false_spec x : is_nan x = false <-> Prim2SF x <> S754_nan.
Proof.
  split; [apply not_nan|]. intros H. apply not_true_is_false.
  intros E. now apply is_nan_spec in E.
Qed.

Lemma is_zero_false_spec x : is_zero x = false <-> ~ sf_zero (Prim2SF x).
Proof.
  split.
  - intros H E. apply is_zero_spec in E. congruence.
  - intros H. apply not_true_is_false. intros E. now apply is_zero_spec in E.
Qed.

Lemma finite_not_nan x : is_finite x = true -> is_nan x = false.
Proof.
  intros H. apply is_nan_false_spec. apply is_finite_spec in H.
  now destruct (Prim2SF x).
Qed.

Lemma sub_finite_inv a c :
  is_finite (a - c) = true -> is_finite a = true /\ is_finite c = true.
Proof.
  rewrite !is_finite_spec, sub_spec.
  destruct (Prim2SF a) as [?|[]| |? ? ?], (Prim2SF c) as [?|[]| |? ? ?];
    cbn; tauto.
Qed.

Lemma add_zero_finite w p :
  is_zero w = true -> is_finite p = true -> eqz (w + p) p.
Proof.
  intros Hw Hp.
  destruct (is_zero p) eqn:Hz.
  - right. split; [now apply add_zero_zero | assumption].
  - left. apply Prim2SF_inj. apply is_zero_false_spec in Hz.
    to_sf. destruct (Prim2SF p), (Prim2SF w); simpl in *; tauto.
Qed.

(** [===] on two numbers: equal, or both zero. *)
Lemma eqb_eqz a c : (a =? c) = true -> eqz a c.
Proof.
  rewrite FloatAxioms.eqb_spec. unfold SFeqb, eqz. intros H.
  destruct (Prim2SF a) as [sa|sa| |sa ma ea] eqn:Ea,
           (Prim2SF c) as [sc|sc| |sc mc ec] eqn:Ec;
    cbn [SFcompare] in H; try discriminate;
    try (destruct sa; discriminate); try (destruct sc; discriminate).
  - right. split; apply is_zero_spec; [now rewrite Ea | now rewrite Ec].
  - left. apply Prim2SF_inj. rewrite Ea, Ec. now destruct sa, sc.
  - left. apply Prim2SF_inj. rewrite Ea, Ec.
    pose proof (lex_cases ea ma ec mc) as L.
    destruct sa, sc; try discriminate; rewrite ?lex_opp in H;
      destruct (match (ea ?= ec)%Z with Lt => Lt | Gt => Gt
                | Eq => PosDef.Pos.compare_cont Eq ma mc end);
      try discriminate; destruct L; now subst.
Qed.

(** What is not finite stays so through a division by zero, a product
    and a sum. *)
Lemma div_by_zero_not_finite a c :
  is_zero c = true -> is_finite (a / c) = false.
Proof.
  intros Hc. apply not_finite_spec. to_sf.
  now destruct (Prim2SF a) as [|[]| |], (Prim2SF c) as [| | |].
Qed.

Lemma mul_not_finite a c :
  is_finite a = false -> is_finite (a * c) = false.
Proof.
  intros Ha. apply not_finite_spec. apply not_finite_spec in Ha. to_sf.
  now destruct (Prim2SF a) as [|[]| |], (Prim2SF c) as [|[]| |].
Qed.

Lemma add_not_finite a c :
  is_finite a = false -> is_finite (a + c) = false.
Proof.
  intros Ha. apply not_finite_spec. apply not_finite_spec in Ha. to_sf.
  now destruct (Prim2SF a) as [|[]| |], (Prim2SF c) as [|[]| |].
Qed.

Lemma add_not_finite_r a c :
  is_finite c = false -> is_finite (a + c) = false.
Proof.
  intros Hc. apply not_finite_spec. apply not_finite_spec in Hc. to_sf.
  now destruct (Prim2SF a) as [|[]| |], (Prim2SF c) as [|[]| |].
Qed.

Lemma mul_not_finite_zero a :
  is_finite a = false -> is_nan (a * 0) = true.
Proof.
  intros Ha. apply is_nan_spec. apply not_finite_spec in Ha. to_sf.
  change (Prim2SF 0) with (S754_zero false).
  now destruct (Prim2SF a) as [|[]| |].
Qed.

(** A finite number that is not zero, divided by itself, is one. *)
Lemma div_self a :
  is_finite a = true -> is_zero a = false -> a / a = 1.
Proof.
  intros Hf Hz. apply Prim2SF_inj. apply is_zero_false_spec in Hz. to_sf.
  destruct (Prim2SF a) as [s|s| |s m e]; cbn in Hf, Hz; try tauto.
  unfold SF64div. cbn [SFdiv]. unfold SFdiv_core_binary.
  rewrite !Z.sub_diag.
  change (Z.min (fexp prec emax 0) 0) with (-53)%Z.
  change (0 - -53)%Z with 53%Z. cbv iota.
  rewrite Z.shiftl_mul_pow2 by lia.
  destruct (Z.div_eucl (Zpos m * 2 ^ 53) (Zpos m)) as [q r] eqn:E.
  assert (q = (Zpos m * 2 ^ 53 / Zpos m)%Z) as Hq by (unfold Z.div; now rewrite E).
  assert (r = ((Zpos m * 2 ^ 53) mod Zpos m)%Z) as Hr
    by (unfold Z.modulo; now rewrite E).
  rewrite Z.mul_comm, Z.div_mul in Hq by lia.
  rewrite Z.mul_comm, Z.mod_mul in Hr by lia. subst q r.
  assert (new_location (Zpos m) 0 = loc_Exact) as ->
    by (unfold new_location; now destruct (Z.even (Zpos m))).
  now destruct s.
Qed.

(** *** Signs *)

Lemma abs_ltb a t : (abs a <? t) = true -> (0 <? t) = true.
Proof.
  rewrite !ltb_spec, abs_spec. unfold SFltb.
  change (Prim2SF 0) with (S754_zero false).
  destruct (Prim2SF a) as [sa|sa| |sa ma ea], (Prim2SF t) as [st|[]| |[] mt et];
    cbn; try discriminate; reflexivity.
Qed.

Lemma get_sign_zero w :
  Prim2SF w = S754_zero false -> get_sign w = false.
Proof.
  intros E. unfold get_sign.
  assert (is_zero w = true) as -> by (apply is_zero_spec; now rewrite E).
  rewrite ltb_spec, div_spec, E. reflexivity.
Qed.

Lemma get_sign_neg_zero w :
  Prim2SF w = S754_zero true -> get_sign w = true.
Proof.
  intros E. unfold get_sign.
  assert (is_zero w = true) as -> by (apply is_zero_spec; now rewrite E).
  rewrite ltb_spec, div_spec, E. reflexivity.
Qed.


Lemma sub_not_nan a c :
  is_nan a = false -> is_finite c = true -> is_nan (a - c) = false.
Proof.
  intros Ha Hc. apply is_nan_false_spec. apply not_nan in Ha.
  pose proof (Prim2SF_valid a) as Va. pose proof (Prim2SF_valid c) as Vc.
  to_sf. unfold SF64sub.
  destruct (Prim2SF a) as [sa|sa| |sa ma ea], (Prim2SF c) as [sc|sc| |sc mc ec];
    cbn [SFsub sf_finite] in *; try tauto; try congruence;
    try (now destruct sa, sc).
  destruct (bounded_inv _ _ Va) as (_ & Ea & _).
  destruct (bounded_inv _ _ Vc) as (_ & Ec & _).
  intros E.
  pose proof (binary_normalize_sign
    (cond_Zopp sa (Zpos (fst (shl_align ma ea (Z.min ea ec))))
     - cond_Zopp sc (Zpos (fst (shl_align mc ec (Z.min ea ec)))))
    (Z.min ea ec) ltac:(lia)) as H.
  rewrite E in H. discriminate.
Qed.

Lemma sub_self a : is_finite a = true -> a - a = 0.
Proof.
  intros Ha. apply Prim2SF_inj. to_sf. unfold SF64sub.
  change (Prim2SF 0) with (S754_zero false).
  destruct (Prim2SF a) as [[]| | |s m e]; cbn [SFsub sf_finite] in *;
    try tauto; try reflexivity.
  now rewrite Z.sub_diag.
Qed.

(** A number that is not above zero, divided by a finite one that is,
    is not above zero, and is a number. *)
Lemma div_nonpos_pos n d :
  is_nan n = false -> (0 <? n) = false ->
  (0 <? d) = true -> is_finite d = true ->
  is_nan (n / d) = false /\ (0 <? n / d) = false.
Proof.
  intros Hn Hs Hd Hf. apply not_nan in Hn.
  rewrite is_nan_false_spec, !ltb_spec in *. to_sf. unfold SF64div.
  change (Prim2SF 0) with (S754_zero false) in *. unfold SFltb in *.
  destruct (Prim2SF d) as [sd|sd| |[] md ed]; cbn in Hd, Hf; try discriminate;
    try tauto.
  destruct (Prim2SF n) as [sn|[]| |[] mn en]; cbn in Hs |- *;
    try discriminate; try congruence; try (split; [discriminate|reflexivity]).
  pose proof (SFdiv_core_binary_nonneg prec emax mn en md ed) as H.
  destruct (SFdiv_core_binary prec emax (Zpos mn) en (Zpos md) ed)
    as [[mz ez] lz]. cbn [fst] in H.
  pose proof (binary_round_aux_signed prec emax true mz ez lz H) as S.
  destruct (binary_round_aux prec emax true mz ez lz) as [?|?| |? ? ?];
    cbn in S |- *; try tauto; subst; split; (discriminate || reflexivity).
Qed.

(** A number below zero divided by [+0] is [-Infinity], one above zero
    [+Infinity]. *)
Lemma div_neg_zero n : (n <? 0) = true -> n / 0 = neg_infinity.
Proof.
  rewrite ltb_spec. unfold SFltb. intros H. apply Prim2SF_inj. to_sf.
  change (Prim2SF 0) with (S754_zero false) in *.
  now destruct (Prim2SF n) as [|[]| |[]].
Qed.

Lemma div_pos_zero n : (0 <? n) = true -> n / 0 = infinity.
Proof.
  rewrite ltb_spec. unfold SFltb. intros H. apply Prim2SF_inj. to_sf.
  change (Prim2SF 0) with (S754_zero false) in *.
  now destruct (Prim2SF n) as [|[]| |[]].
Qed.

Lemma nan_eq a : is_nan a = true -> a = nan.
Proof. intros H. apply Prim2SF_inj. now apply is_nan_spec in H. Qed.

Lemma ltb_nonzero a : (0 <? a) = true -> is_zero a = false.
Proof.
  rewrite ltb_spec. unfold SFltb. intros H. apply is_zero_false_spec.
  change (Prim2SF 0) with (S754_zero false) in *.
  now destruct (Prim2SF a).
Qed.

End FloatOrder.

(** ** Rounding to binary32 *)

Module RoundingFacts.
Import JS FloatFacts FloatOrder.

Lemma binary_round_signed p em s m e :
  sf_signed s (binary_round p em s m e).
Proof.
  unfold binary_round. destruct (shl_align m e _) as [mz ez].
  apply binary_round_aux_signed. lia.
Qed.

Lemma binary_normalize_nonneg_signed p em z e :
  (0 <= z)%Z -> sf_signed false (binary_normalize p em z e false).
Proof.
  destruct z as [|m|m]; cbn [binary_normalize]; intros H; try lia.
  - reflexivity.
  - apply binary_round_signed.
Qed.

Lemma SFldexp_signed s X e :
  sf_signed s X -> sf_signed s (SFldexp prec emax X e).
Proof.
  destruct X as [?|?| |sx mx ex]; cbn [SFldexp sf_signed]; try tauto.
  intros ->. apply binary_round_signed.
Qed.

Lemma SFopp_signed s X : sf_signed s X -> sf_signed (negb s) (SFopp X).
Proof. destruct X; cbn; try tauto; now intros ->. Qed.

(** The number a [spec_float] stands for has its sign, canonical or
    not. *)
Lemma SF2Prim_signed s X : sf_signed s X -> sf_signed s (Prim2SF (SF2Prim X)).
Proof.
  destruct X as [sx|sx| |sx mx ex]; cbn [sf_signed]; try tauto; intros ->.
  - now destruct s.
  - now destruct s.
  - cbn [SF2Prim].
    assert (sf_signed false
              (Prim2SF (Z.ldexp (of_uint63 (Uint63.of_Z (Zpos mx))) ex))) as H.
    { unfold Z.ldexp. rewrite ldshiftexp_spec. apply SFldexp_signed.
      rewrite of_uint63_spec. apply binary_normalize_nonneg_signed.
      apply Uint63.to_Z_bounded. }
    destruct s; [|exact H].
    rewrite opp_spec. now apply (SFopp_signed false).
Qed.

Lemma fround_signed s x :
  sf_signed s (Prim2SF x) -> sf_signed s (Prim2SF (fround x)).
Proof.
  unfold fround. destruct (Prim2SF x) as [sx|sx| |sx mx ex] eqn:E;
    rewrite ?E; try tauto.
  cbn [sf_signed]. intros ->. apply SF2Prim_signed.
  destruct s; cbn [cond_Zopp Z.opp binary_normalize]; apply binary_round_signed.
Qed.

(** Rounding to binary32 takes no number from zero or below to above
    zero. *)
Lemma fround_not_pos x : (0 <? x) = false -> (0 <? fround x) = false.
Proof.
  rewrite !ltb_spec. unfold SFltb.
  change (Prim2SF 0) with (S754_zero false).
  pose proof (fround_signed true x) as H.
  unfold fround in *.
  destruct (Prim2SF x) as [sx|sx| |[] mx ex] eqn:E; rewrite ?E; cbn;
    try discriminate; try (intros _; reflexivity); try (now destruct sx).
  intros _. specialize (H eq_refl).
  now destruct (Prim2SF (SF2Prim _)) as [|[]| |[]].
Qed.

End RoundingFacts.

(** ** Scalar spring *)

Module SpringFacts.

Import JS Spring FloatFacts FloatOrder.

(** C1.  For every spring and every [deltaTime] in milliseconds,
    [update] advances the state by [dt = Math.min(deltaTime / 1000,
    0.064)] seconds with the semi-implicit Euler scheme: the spring force
    is [-tension * (position - target)], the damping force is [-friction *
    velocity], the acceleration is their sum divided by the mass, the new
    velocity is [velocity + acceleration * dt], the new position is
    [position + velocity' * dt] (with the new velocity), and the number
    returned is the new position.  The target and the configuration are
    kept.  Unless [deltaTime / 1000] is NaN, [dt] is one of [deltaTime /
    1000] and [0.064] and is below both. *)
Theorem update_semi_implicit_euler (s : Spring.t) (deltaTime : float) :
  let dt := JS.Math_min (deltaTime / 1000) 0.064 in
  let springForce := - tension s * (position s - target s) in
  let dampingForce := - friction s * velocity s in
  let acceleration := (springForce + dampingForce) / mass s in
  let s' := fst (update s deltaTime) in
  velocity s' = velocity s + acceleration * dt
  /\ position s' = position s + velocity s' * dt
  /\ snd (update s deltaTime) = position s'
  /\ target s' = target s
  /\ tension s' = tension s
  /\ friction s' = friction s
  /\ mass s' = mass s
  /\ (is_nan (deltaTime / 1000) = false ->
      (dt = deltaTime / 1000 \/ dt = 0.064)
      /\ (dt <=? deltaTime / 1000) = true
      /\ (dt <=? 0.064) = true).
Proof.
  cbv zeta. repeat split; try reflexivity;
    destruct (Math_min_spec (deltaTime / 1000) 0.064 H eq_refl)
      as (Hor & Hle1 & Hle2); assumption.
Qed.

Lemma update_semi_implicit_euler_witness :
  let s := setTarget (new 0 default_config) 10 in
  is_nan (16 / 1000) = false
  /\ velocity (fst (update s 16)) = 64
  /\ position (fst (update s 16)) = 1.024
  /\ snd (update s 16) = 1.024
  /\ (JS.Math_min (16 / 1000) 0.064 <=? 0.064) = true.
Proof.
  pose proof (update_semi_implicit_euler
                (setTarget (new 0 default_config) 10) 16) as H.
  cbv zeta in H. destruct H as (Hv & Hp & Hr & _ & _ & _ & _ & Hm).
  destruct (Hm eq_refl) as (_ & _ & Hle).
  cbv zeta. split; [reflexivity|].
  split; [rewrite Hv; reflexivity|].
  split; [rewrite Hp, Hv; reflexivity|].
  split; [rewrite Hr, Hp, Hv; reflexivity|].
  exact Hle.
Defined.

(** The clamped step of every delta time that is not negative is finite. *)
Lemma seconds_finite d : (0 <=? d) = true -> is_finite (seconds d) = true.
Proof.
  intros Hd. unfold seconds.
  assert (sf_signed false (Prim2SF (d / 1000))
          \/ is_zero (d / 1000) = true) as Hq.
  { rewrite div_spec. change (Prim2SF 1000) with (S754_finite false 8796093022208000 (-43)).
    destruct (leb_0_signed d Hd) as [H|H].
    - left. now apply SFdiv_signed.
    - right. apply is_zero_spec. rewrite div_spec.
      change (Prim2SF 1000) with (S754_finite false 8796093022208000 (-43)).
      apply is_zero_spec in H. now destruct (Prim2SF d). }
  assert (is_nan (d / 1000) = false) as Hn.
  { destruct (is_nan (d / 1000)) eqn:E; [|reflexivity].
    apply is_nan_spec in E. destruct Hq as [H|H].
    - now rewrite E in H.
    - apply is_zero_spec in H. now rewrite E in H. }
  destruct (Math_min_spec (d / 1000) 0.064 Hn eq_refl) as (Hm & _ & Hle).
  destruct Hm as [Hm|Hm]; rewrite Hm in *; [|reflexivity].
  destruct Hq as [H|H]; [|now apply is_zero_finite].
  apply is_finite_spec. rewrite leb_spec in Hle.
  destruct (Prim2SF (d / 1000)) as [s|s| |s m e]; cbn in H |- *; try tauto.
  subst s. vm_compute in Hle. discriminate.
Qed.

Lemma update_at_rest s d :
  regular s -> at_rest s -> is_finite (seconds d) = true ->
  let s' := fst (update s d) in
  regular s' /\ at_rest s' /\ eqz (position s') (position s).
Proof.
  intros (Ht & Hf & Hmn & Hmz) (Hv & Hp & Hpt) Hd. cbv zeta.
  unfold update. cbn [fst position velocity target tension friction mass].
  fold (seconds d) in *. set (dt := seconds d) in *.
  assert (is_zero (position s - target s) = true) as Hdisp
    by now apply sub_eqz.
  assert (is_zero (- tension s * (position s - target s)) = true) as Hsf
    by (apply mul_zero_r; [now apply opp_finite | assumption]).
  assert (is_zero (- friction s * velocity s) = true) as Hdf
    by (apply mul_zero_r; [now apply opp_finite | now rewrite Hv]).
  pose proof (add_zero_zero _ _ Hsf Hdf) as Hsum.
  pose proof (div_zero _ _ Hsum Hmn Hmz) as Hacc.
  pose proof (mul_zero_l _ _ Hd Hacc) as Hstep.
  assert (velocity s + (- tension s * (position s - target s)
            + - friction s * velocity s) / mass s * dt = 0) as Hv'
    by (rewrite Hv at 1; now apply add_pos_zero).
  rewrite Hv'.
  assert (is_zero (0 * dt) = true) as Hmove
    by (apply mul_zero_l; [assumption | reflexivity]).
  pose proof (add_finite_zero _ _ Hp Hmove) as Hpos.
  split; [now repeat split|]. split; [|assumption].
  split; [reflexivity|]. split.
  - now apply (eqz_finite _ _ Hpos).
  - now apply (eqz_trans _ _ _ Hpos).
Qed.

Lemma run_at_rest deltas : forall s,
  regular s -> at_rest s ->
  Forall (fun d => is_finite (seconds d) = true) deltas ->
  let s' := run s deltas in
  regular s' /\ at_rest s' /\ eqz (position s') (position s).
Proof.
  induction deltas as [|d deltas IH]; intros s Hr Ha Hd; cbv zeta.
  - repeat split; try apply Hr; try apply Ha. apply eqz_refl.
  - inversion Hd as [|? ? Hd1 Hd2]; subst.
    destruct (update_at_rest s d Hr Ha Hd1) as (Hr' & Ha' & He).
    destruct (IH _ Hr' Ha' Hd2) as (Hr'' & Ha'' & He').
    unfold run in *. cbn [fold_left].
    split; [assumption|]. split; [assumption|].
    now apply (eqz_trans _ _ _ He').
Qed.

(** C4, as stated, fails: the constructor returns a spring of mass 0 for
    the configuration [{tension: 400, friction: 30, mass: 0}]; its first
    [update] returns NaN, and once a target is set it returns
    [Infinity]. *)
Lemma new_accepts_zero_mass :
  mass (new 0 {| cfg_tension := 400; cfg_friction := 30; cfg_mass := 0 |}) = 0
  /\ is_nan (snd (update (new 0 {| cfg_tension := 400; cfg_friction := 30;
                                   cfg_mass := 0 |}) 16)) = true
  /\ snd (update (setTarget (new 0 {| cfg_tension := 400; cfg_friction := 30;
                                      cfg_mass := 0 |}) 10) 16) = infinity.
Proof. repeat split; reflexivity. Qed.

(** C4, amended.  The constructor checks nothing: whatever the
    configuration, it returns the spring that holds the initial value as
    position and target, speed 0, and the tension, friction and mass it was
    given.  A mass of zero is stored like any other, and the first
    [update] of such a spring, for a finite initial value, tension and
    friction, returns NaN whatever the delta time.  Neither [setTarget]
    nor [update] nor [reset] changes the mass, and every [update] of a
    spring of mass zero, in whatever state and for whatever delta time,
    divides by that zero: the number it returns and the velocity it
    leaves are NaN or an infinity, never a finite number. *)
Theorem new_stores_mass_unchecked (initialValue : float) (config : SpringConfig) :
  new initialValue config
  = {| position := initialValue; velocity := 0; target := initialValue;
       tension := cfg_tension config; friction := cfg_friction config;
       mass := cfg_mass config |}
  /\ (forall deltaTime,
        is_zero (cfg_mass config) = true ->
        is_finite initialValue = true ->
        is_finite (cfg_tension config) = true ->
        is_finite (cfg_friction config) = true ->
        is_nan (snd (update (new initialValue config) deltaTime)) = true)
  /\ (forall s tgt value deltaTime,
        mass (setTarget s tgt) = mass s
        /\ mass (fst (update s deltaTime)) = mass s
        /\ mass (reset s value) = mass s)
  /\ (forall s deltaTime,
        is_zero (mass s) = true ->
        is_finite (snd (update s deltaTime)) = false
        /\ is_finite (getValue (fst (update s deltaTime))) = false
        /\ is_finite (velocity (fst (update s deltaTime))) = false).
Proof.
  split; [reflexivity|]. split; [|split].
  - intros d Hm Hv Ht Hf.
    unfold update, new. cbn [snd position velocity target tension friction mass].
    assert (is_zero (initialValue - initialValue) = true) as Hdisp
      by (apply sub_eqz; [assumption | apply eqz_refl]).
    assert (is_zero (- cfg_tension config * (initialValue - initialValue)) = true)
      as Hsf by (apply mul_zero_r; [now apply opp_finite | assumption]).
    assert (is_zero (- cfg_friction config * 0) = true) as Hdf
      by (apply mul_zero_r; [now apply opp_finite | reflexivity]).
    pose proof (add_zero_zero _ _ Hsf Hdf) as Hsum.
    pose proof (div_zero_zero _ _ Hsum Hm) as Hacc.
    apply add_nan_r, mul_nan_l, add_nan_r, mul_nan_l. exact Hacc.
  - intros s tgt value d. repeat split.
  - intros s d Hm. unfold update, getValue.
    cbn [fst snd position velocity].
    assert (is_finite (velocity s
              + (- tension s * (position s - target s)
                 + - friction s * velocity s) / mass s * seconds d) = false)
      as Hv by (apply add_not_finite_r, mul_not_finite;
                now apply div_by_zero_not_finite).
    assert (is_finite (position s
              + (velocity s
                 + (- tension s * (position s - target s)
                    + - friction s * velocity s) / mass s * seconds d)
                * seconds d) = false)
      as Hp by (apply add_not_finite_r, mul_not_finite; exact Hv).
    repeat split; assumption.
Qed.

Lemma new_stores_mass_unchecked_witness :
  is_zero 0 = true /\ is_finite 0 = true /\ is_finite 400 = true
  /\ is_finite 30 = true
  /\ mass (new 0 {| cfg_tension := 400; cfg_friction := 30; cfg_mass := 0 |}) = 0
  /\ is_nan (snd (update (new 0 {| cfg_tension := 400; cfg_friction := 30;
                                   cfg_mass := 0 |}) 16)) = true
  /\ is_finite (snd (update (setTarget
                       (new 0 {| cfg_tension := 400; cfg_friction := 30;
                                 cfg_mass := 0 |}) (-10)) 16)) = false
  /\ snd (update (setTarget
                    (new 0 {| cfg_tension := 400; cfg_friction := 30;
                              cfg_mass := 0 |}) (-10)) 16) = neg_infinity
  /\ is_nan (snd (update (setTarget
                    (new 0 {| cfg_tension := 400; cfg_friction := 30;
                              cfg_mass := 0 |}) 10) 0)) = true.
Proof.
  destruct (new_stores_mass_unchecked 0
              {| cfg_tension := 400; cfg_friction := 30; cfg_mass := 0 |})
    as (Hnew & Hnan & _ & Hinf).
  do 4 (split; [reflexivity|]).
  split; [now rewrite Hnew|].
  split; [exact (Hnan 16 eq_refl eq_refl eq_refl eq_refl)|].
  split; [|split; reflexivity].
  exact (proj1 (Hinf (setTarget (new 0 {| cfg_tension := 400; cfg_friction := 30;
                                          cfg_mass := 0 |}) (-10)) 16 eq_refl)).
Defined.

End SpringFacts.

(** ** Vector spring *)

Module Spring3DFacts.

Import JS Spring3D FloatFacts SpringFacts.

Lemma run_axes deltas : forall s,
  sx (run s deltas) = Spring.run (sx s) deltas
  /\ sy (run s deltas) = Spring.run (sy s) deltas
  /\ sz (run s deltas) = Spring.run (sz s) deltas.
Proof.
  induction deltas as [|d deltas IH]; intros s; [now repeat split|].
  unfold run, Spring.run in *. cbn [fold_left].
  destruct (IH (fst (update s d))) as (Hx & Hy & Hz).
  rewrite Hx, Hy, Hz. unfold update.
  destruct (Spring.update (sx s) d) as [x' rx] eqn:Ex.
  destruct (Spring.update (sy s) d) as [y' ry] eqn:Ey.
  destruct (Spring.update (sz s) d) as [z' rz] eqn:Ez.
  cbn [fst sx sy sz]. now repeat split.
Qed.

(** C8, as stated, fails on a delta time that is not a number (the
    difference with a time stamp that was never set, say): after the X
    target of a spring at the origin is set to 1, one [update(NaN)] turns
    the position and the velocity of Y and of Z into NaN. *)
Lemma y_and_z_change_on_nan_delta :
  let s := setTargetX (new (0, 0, 0) snappy) 1 in
  Spring.position (sy s) = 0
  /\ Spring.velocity (sy s) = 0
  /\ Spring.position (sy (fst (update s nan))) = nan
  /\ Spring.velocity (sy (fst (update s nan))) = nan
  /\ Spring.position (sz (fst (update s nan))) = nan
  /\ Spring.velocity (sz (fst (update s nan))) = nan
  /\ (Spring.position (sy (fst (update s nan))) =? Spring.position (sy s)) = false.
Proof. cbv zeta. repeat split; reflexivity. Qed.

(** C8, amended.  The axes of a vector spring evolve independently: after
    the X target alone is set and [update] is called any number of times
    with any delta times, each axis is in the state its scalar spring
    reaches on its own, so Y and Z do not depend on the X target nor on
    the X value.  When moreover the initial Y and Z values, the tension
    and the friction are finite, the mass is a number other than zero, and
    every clamped step [Math.min(deltaTime / 1000, 0.064)] is finite (as it
    is for every delta time that is not negative, [seconds_finite]), the
    velocities of Y and Z stay 0 and their positions stay equal ([===]) to
    the initial values. *)
Theorem axes_evolve_independently
    (a b c : float) (config : Spring.SpringConfig) (xTarget : float)
    (deltas : list float) :
  let s := run (setTargetX (new (a, b, c) config) xTarget) deltas in
  sx s = Spring.run (Spring.setTarget (Spring.new a config) xTarget) deltas
  /\ sy s = Spring.run (Spring.new b config) deltas
  /\ sz s = Spring.run (Spring.new c config) deltas
  /\ (is_finite b = true -> is_finite c = true ->
      is_finite (Spring.cfg_tension config) = true ->
      is_finite (Spring.cfg_friction config) = true ->
      is_nan (Spring.cfg_mass config) = false ->
      is_zero (Spring.cfg_mass config) = false ->
      Forall (fun d => is_finite (Spring.seconds d) = true) deltas ->
      Spring.velocity (sy s) = 0
      /\ (Spring.position (sy s) =? b) = true
      /\ Spring.velocity (sz s) = 0
      /\ (Spring.position (sz s) =? c) = true).
Proof.
  cbv zeta.
  assert (setTargetX (new (a, b, c) config) xTarget
          = {| sx := Spring.setTarget (Spring.new a config) xTarget;
               sy := Spring.new b config;
               sz := Spring.new c config |}) as -> by reflexivity.
  destruct (run_axes deltas
              {| sx := Spring.setTarget (Spring.new a config) xTarget;
                 sy := Spring.new b config;
                 sz := Spring.new c config |}) as (Hx & Hy & Hz).
  cbn [sx sy sz] in Hx, Hy, Hz.
  split; [exact Hx|]. split; [exact Hy|]. split; [exact Hz|].
  intros Hb Hc Ht Hf Hmn Hmz Hd. rewrite Hy, Hz.
  assert (forall v, is_finite v = true ->
            Spring.regular (Spring.new v config) /\ Spring.at_rest (Spring.new v config))
    as Hinit.
  { intros v Hv. split; [now repeat split|].
    split; [reflexivity|]. split; [assumption | apply eqz_refl]. }
  destruct (Hinit b Hb) as [Hrb Hab]. destruct (Hinit c Hc) as [Hrc Hac].
  destruct (run_at_rest deltas _ Hrb Hab Hd) as (_ & (Hvb & _ & _) & Heb).
  destruct (run_at_rest deltas _ Hrc Hac Hd) as (_ & (Hvc & _ & _) & Hec).
  cbv zeta in *. cbn [Spring.new Spring.position] in Heb, Hec.
  split; [assumption|]. split; [now apply eqz_same|].
  split; [assumption|]. now apply eqz_same.
Qed.

Lemma axes_evolve_independently_witness :
  let s := run (setTargetX (new (0, 2, -3) snappy) 10) [16; 16; 1000] in
  is_finite 2 = true /\ is_finite (-3) = true
  /\ Forall (fun d => is_finite (Spring.seconds d) = true) [16; 16; 1000]
  /\ Spring.velocity (sy s) = 0
  /\ (Spring.position (sy s) =? 2) = true
  /\ Spring.velocity (sz s) = 0
  /\ (Spring.position (sz s) =? -3) = true.
Proof.
  cbv zeta.
  assert (Forall (fun d => is_finite (Spring.seconds d) = true) [16; 16; 1000])
    as Hd by (repeat constructor).
  split; [reflexivity|]. split; [reflexivity|]. split; [exact Hd|].
  exact (proj2 (proj2 (proj2
           (axes_evolve_independently 0 2 (-3) snappy 10 [16; 16; 1000])))
           eq_refl eq_refl eq_refl eq_refl eq_refl eq_refl Hd).
Defined.

End Spring3DFacts.

(** ** The ripple collection *)

Module StoreFacts.

Import Store.

Section Slices.
Context {A : Type}.
Implicit Types l k : list A.

Lemma slice_last_length n l : length (slice_last n l) = min n (length l).
Proof. unfold slice_last. rewrite length_drop. lia. Qed.

Lemma slice_last_le n l : length l ≤ n -> slice_last n l = l.
Proof.
  intros H. unfold slice_last.
  replace (length l - n)%nat with 0%nat by lia. apply drop_0.
Qed.

Lemma slice_last_app n l k :
  slice_last n (slice_last n l ++ k) = slice_last n (l ++ k).
Proof.
  destruct (decide (length l ≤ n)) as [Hle|Hgt].
  { now rewrite (slice_last_le n l). }
  unfold slice_last at 1 3.
  rewrite !length_app, slice_last_length.
  unfold slice_last.
  replace (min n (length l) + length k - n)%nat with (length k) by lia.
  replace (length l + length k - n)%nat
    with ((length l - n) + length k)%nat by lia.
  rewrite <- (drop_drop (l ++ k)).
  now rewrite (drop_app_le l k) by lia.
Qed.

Lemma slice_last_snoc n l a :
  slice_last n (l ++ [a]) = drop (length l + 1 - n) l ++ [a]
  \/ (n = 0%nat /\ slice_last n (l ++ [a]) = []).
Proof.
  destruct n as [|n].
  - right. split; [reflexivity|]. unfold slice_last.
    rewrite Nat.sub_0_r. apply drop_all.
  - left. unfold slice_last. rewrite length_app. cbn [length].
    apply drop_app_le. lia.
Qed.

Lemma StronglySorted_sublist (R : relation A) l k :
  l `sublist_of` k -> StronglySorted R k -> StronglySorted R l.
Proof.
  induction 1 as [|x l k Hs IH|x l k Hs IH]; intros Hk.
  - constructor.
  - apply StronglySorted_inv in Hk as [Hk Hx]. constructor; [auto|].
    rewrite Forall_forall in *. intros y Hy. apply Hx.
    now apply (elem_of_sublist l k).
  - apply StronglySorted_inv in Hk as [Hk _]. auto.
Qed.
End Slices.

Lemma addRipple_length rid now pos str ripples :
  length (addRipple rid now pos str ripples) ≤ 10.
Proof. unfold addRipple. rewrite slice_last_length. lia. Qed.

Lemma clearExpiredRipples_length now ripples :
  length (clearExpiredRipples now ripples) ≤ length ripples.
Proof. apply length_filter. Qed.

Lemma step_length ripples o :
  length ripples ≤ 10 -> length (step ripples o) ≤ 10.
Proof.
  destruct o; cbn [step]; intros H.
  - apply addRipple_length.
  - pose proof (clearExpiredRipples_length now ripples). lia.
Qed.

Lemma run_length ops : forall ripples,
  length ripples ≤ 10 -> length (run ripples ops) ≤ 10.
Proof.
  induction ops as [|o ops IH]; intros ripples H; [exact H|].
  apply IH, step_length, H.
Qed.

Lemma created_add rid now pos str ops :
  created (Add rid now pos str :: ops) = newRipple rid now pos str :: created ops.
Proof. reflexivity. Qed.

Lemma created_clear now ops : created (ClearExpired now :: ops) = created ops.
Proof. reflexivity. Qed.

Lemma run_cons ripples o ops : run ripples (o :: ops) = run (step ripples o) ops.
Proof. reflexivity. Qed.

Lemma created_adds_length ops :
  Forall is_add ops -> length (created ops) = length ops.
Proof.
  induction 1 as [|o ops Ho _ IH]; [reflexivity|].
  destruct o; [|contradiction]. rewrite created_add. cbn [length].
  now rewrite IH.
Qed.

(** A run of additions keeps the last ten of the old ripples and the new
    ones together. *)
Lemma run_adds ops : forall ripples,
  Forall is_add ops -> ops <> [] ->
  run ripples ops = slice_last 10 (ripples ++ created ops).
Proof.
  induction ops as [|o ops IH]; intros ripples Hadd Hne; [congruence|].
  inversion Hadd as [|? ? Ho Hops]; subst.
  destruct o; [|contradiction]. rewrite run_cons, created_add. cbn [step].
  destruct ops as [|o' ops'].
  - reflexivity.
  - rewrite IH by (assumption || congruence).
    unfold addRipple. rewrite slice_last_app.
    now rewrite <- app_assoc.
Qed.

Lemma run_sublist ops : forall ripples,
  run ripples ops `sublist_of` ripples ++ created ops.
Proof.
  induction ops as [|o ops IH]; intros ripples.
  - cbn. now rewrite app_nil_r.
  - rewrite run_cons.
    etransitivity; [apply IH|]. destruct o; cbn [step].
    + rewrite created_add, cons_middle, app_assoc.
      apply sublist_app; [|reflexivity]. apply sublist_drop.
    + rewrite created_clear. apply sublist_app; [|reflexivity].
      apply sublist_filter.
Qed.

Lemma created_after (P : Z -> Prop) ops :
  Forall (fun o => P (clock o)) ops -> Forall (fun r => P (time r)) (created ops).
Proof.
  induction 1 as [|o ops Ho _ IH]; [constructor|].
  destruct o; [rewrite created_add; constructor | rewrite created_clear];
    assumption.
Qed.

Lemma created_oldest_first ops :
  StronglySorted Z.le (clock <$> ops) -> oldest_first (created ops).
Proof.
  unfold oldest_first. induction ops as [|o ops IH]; intros Hs; [constructor|].
  cbn in Hs. apply StronglySorted_inv in Hs as [Hs Ho].
  destruct o; [rewrite created_add | rewrite created_clear; auto].
  constructor; [auto|].
  apply (created_after (fun t => (now <= t)%Z)).
  now rewrite Forall_fmap in Ho.
Qed.

(** C3.  After fifteen [addRipple] calls in a row, from any state of the
    collection, the collection is exactly the ten ripples added last, in
    the order of their creation; after each of the calls it holds at most
    ten ripples; and the five oldest are out of reach: two runs of fifteen
    additions that agree on their last ten leave the same collection,
    hence the same packed uniforms and the same ripple sum at every point,
    whatever their first five additions and the states they start from. *)
Theorem fifteen_adds_keep_the_ten_most_recent
    (ops : list op) (ripples : list Ripple) :
  Forall is_add ops -> length ops = 15%nat ->
  run ripples ops = drop 5 (created ops)
  /\ length (run ripples ops) = 10%nat
  /\ (forall k, (0 < k)%nat -> length (run ripples (take k ops)) ≤ 10)
  /\ (forall ops' ripples',
        Forall is_add ops' -> length ops' = 15%nat ->
        drop 5 (created ops') = drop 5 (created ops) ->
        run ripples' ops' = run ripples ops
        /\ (forall t now u,
              MercurySurface.useFrame t now (run ripples' ops') u
              = MercurySurface.useFrame t now (run ripples ops) u)
        /\ (forall gl_sin gl_exp t now u pos,
              Shader.rippleSum gl_sin gl_exp
                (MercurySurface.useFrame t now (run ripples' ops') u) pos
              = Shader.rippleSum gl_sin gl_exp
                (MercurySurface.useFrame t now (run ripples ops) u) pos)).
Proof.
  intros Hadd Hlen.
  assert (forall ops0 ripples0, Forall is_add ops0 -> length ops0 = 15%nat ->
            run ripples0 ops0 = drop 5 (created ops0)) as Hrun.
  { intros ops0 ripples0 Hadd0 Hlen0.
    rewrite run_adds by (assumption || (intros ->; discriminate)).
    unfold slice_last. rewrite length_app, created_adds_length, Hlen0 by assumption.
    rewrite drop_app_ge by lia. f_equal. lia. }
  split; [now apply Hrun|]. split.
  { rewrite Hrun, length_drop, created_adds_length by assumption. lia. }
  split.
  { intros k Hk. destruct (take k ops) as [|o ops0] eqn:Hops.
    - apply (f_equal length) in Hops. rewrite length_take in Hops.
      cbn in Hops. lia.
    - rewrite run_cons.
      apply run_length. destruct o; cbn [step].
      + apply addRipple_length.
      + assert (Forall is_add (take k ops)) as Ht by now apply Forall_take.
        rewrite Hops in Ht. apply Forall_cons in Ht as [[] _]. }
  intros ops' ripples' Hadd' Hlen' Hsame.
  assert (run ripples' ops' = run ripples ops) as ->
    by now rewrite !Hrun by assumption.
  now repeat split.
Qed.

Lemma fifteen_adds_keep_the_ten_most_recent_witness :
  Forall is_add fifteen /\ length fifteen = 15%nat
  /\ run [] fifteen = drop 5 (created fifteen)
  /\ length (run [] fifteen) = 10%nat.
Proof.
  assert (Forall is_add fifteen) as Hadd by (repeat constructor).
  destruct (fifteen_adds_keep_the_ten_most_recent fifteen [] Hadd eq_refl)
    as (Hrun & Hlen & _).
  split; [exact Hadd|]. split; [reflexivity|]. split; [exact Hrun | exact Hlen].
Defined.

(** C9.  [addRipple] appends the new ripple at the tail and drops from the
    head: what it leaves is a suffix of the old collection followed by the
    new ripple, and on a collection of ten it is the old collection
    without its head, followed by the new ripple.  [clearExpiredRipples]
    keeps its survivors in their order.  So after any calls on the empty
    collection, the live ripples are a subsequence of the ripples created,
    in creation order; and when the clock readings of the calls never
    decrease, the collection is sorted by its [time] field, oldest first,
    and the ripple evicted from a collection of ten is one whose [time] is
    the least. *)
Theorem ripples_are_kept_oldest_first
    (ops : list op) (rid : string) (now : Z) (pos : float * float) (str : float)
    (ripples : list Ripple) :
  let new := newRipple rid now pos str in
  addRipple rid now pos str ripples
    = drop (length ripples + 1 - 10) ripples ++ [new]
  /\ ripples ++ [new]
     = take (length ripples + 1 - 10) ripples ++ addRipple rid now pos str ripples
  /\ (length ripples = 10%nat ->
      addRipple rid now pos str ripples = tail ripples ++ [new])
  /\ clearExpiredRipples now ripples `sublist_of` ripples
  /\ run [] ops `sublist_of` created ops
  /\ (StronglySorted Z.le (clock <$> ops) ->
      oldest_first (run [] ops)
      /\ (forall evicted rest,
            run [] ops = evicted :: rest -> length rest = 9%nat ->
            addRipple rid now pos str (run [] ops) = rest ++ [new]
            /\ Forall (fun r => (time evicted <= time r)%Z) rest)).
Proof.
  cbv zeta.
  assert (addRipple rid now pos str ripples
          = drop (length ripples + 1 - 10) ripples ++ [newRipple rid now pos str])
    as Hadd.
  { unfold addRipple.
    destruct (slice_last_snoc 10 ripples (newRipple rid now pos str))
      as [H|[H _]]; [exact H | discriminate]. }
  split; [exact Hadd|]. split.
  { rewrite Hadd, app_assoc. now rewrite take_drop. }
  split.
  { intros Hlen. rewrite Hadd, Hlen. now destruct ripples. }
  split; [apply sublist_filter|].
  split; [apply (run_sublist ops [])|].
  intros Hclock.
  assert (oldest_first (run [] ops)) as Hsorted.
  { apply (StronglySorted_sublist _ _ (created ops)).
    - apply (run_sublist ops []).
    - now apply created_oldest_first. }
  split; [exact Hsorted|].
  intros evicted rest Hrun Hlen. rewrite Hrun in *. split.
  - unfold addRipple, slice_last. rewrite length_app. cbn [length].
    rewrite Hlen. reflexivity.
  - unfold oldest_first in Hsorted.
    now apply StronglySorted_inv in Hsorted as [_ H].
Qed.

Lemma ripples_are_kept_oldest_first_witness :
  StronglySorted Z.le (clock <$> fifteen)
  /\ oldest_first (run [] fifteen)
  /\ run [] fifteen `sublist_of` created fifteen.
Proof.
  assert (StronglySorted Z.le (clock <$> fifteen)) as Hs.
  { apply (bool_decide_unpack _). vm_compute. reflexivity. }
  destruct (ripples_are_kept_oldest_first fifteen "r" 0 (0, 0) 1 [])
    as (_ & _ & _ & _ & Hsub & Hsorted).
  split; [exact Hs|]. split; [exact (proj1 (Hsorted Hs)) | exact Hsub].
Defined.

End StoreFacts.

(** ** Ripple uniforms *)

Module MercuryFacts.

Import MercurySurface.

Section Pad.
Context {A : Type}.
Implicit Types (l : list A) (z v : A).

Lemma pad10_length z l : length (pad10 z l) = 10%nat.
Proof.
  unfold pad10. rewrite length_app, length_take, length_replicate. lia.
Qed.

Lemma pad10_insert z v l :
  (length l < 10)%nat -> <[length l := v]> (pad10 z l) = pad10 z (l ++ [v]).
Proof.
  intros H. unfold pad10.
  rewrite !take_ge by (rewrite ?length_app; cbn; lia).
  rewrite length_app. cbn [length].
  replace (10 - length l)%nat with (S (10 - (length l + 1))) by lia.
  cbn [replicate].
  replace (length l) with (length l + 0)%nat at 1 by lia.
  rewrite insert_app_r. cbn. now rewrite <- app_assoc.
Qed.

Lemma pad10_lookup_lt z l i x :
  l !! i = Some x -> (i < 10)%nat -> pad10 z l !! i = Some x.
Proof.
  intros Hx Hi. unfold pad10. rewrite lookup_app_l.
  - now rewrite lookup_take_lt.
  - rewrite length_take. apply lookup_lt_Some in Hx. lia.
Qed.

Lemma pad10_lookup_ge z l i :
  (length l <= i)%nat -> (i < 10)%nat -> pad10 z l !! i = Some z.
Proof.
  intros Hl Hi. unfold pad10. rewrite take_ge by lia.
  rewrite lookup_app_r by lia. apply lookup_replicate_2. lia.
Qed.

End Pad.

(** The ten rounds of the reset loop leave zeros in every slot. *)
Lemma reset_slots u :
  well_formed u -> fold_left reset_slot (seq 0 10) u = packed (uTime u) [].
Proof.
  intros (H1 & H2 & H3). destruct u as [t a s m]. cbn in *.
  do 10 (destruct a as [|? a]; [discriminate|]).
  destruct a; [|discriminate].
  do 10 (destruct s as [|? s]; [discriminate|]).
  destruct s; [|discriminate].
  do 10 (destruct m as [|? m]; [discriminate|]).
  destruct m; [|discriminate].
  reflexivity.
Qed.

Lemma write_slot_packed t acc r :
  (length acc < 10)%nat ->
  write_slot (packed t acc) (length acc) r = packed t (acc ++ [r]).
Proof.
  intros H. unfold write_slot, packed.
  cbn [uTime uRipples uRippleStrengths uRippleTimes].
  rewrite !fmap_app. cbn [fmap list_fmap].
  f_equal.
  - rewrite <- (pad10_insert origin (vec r)) by now rewrite length_fmap.
    now rewrite length_fmap.
  - rewrite <- (pad10_insert 0 (Store.strength r)) by now rewrite length_fmap.
    now rewrite length_fmap.
  - rewrite <- (pad10_insert 0 (seconds r)) by now rewrite length_fmap.
    now rewrite length_fmap.
Qed.

Lemma pack_loop_packed t now rs : forall acc,
  (length acc <= 10)%nat ->
  pack_loop now rs (length acc) (packed t acc)
  = packed t (take 10 (acc ++ filter
                (fun r => (now - Store.time r < maxRipples * 1000)%Z) rs)).
Proof.
  induction rs as [|r rs IH]; intros acc Hacc.
  - cbn. rewrite app_nil_r. now rewrite take_ge.
  - cbn [pack_loop]. destruct (Nat.ltb_spec (length acc) 10) as [Hlt|Hge].
    + destruct (Z.ltb_spec (now - Store.time r) (maxRipples * 1000)) as [Hf|Hf].
      * rewrite write_slot_packed by assumption.
        replace (S (length acc)) with (length (acc ++ [r]))
          by (rewrite length_app; cbn; lia).
        rewrite IH by (rewrite length_app; cbn; lia).
        rewrite filter_cons_True by exact Hf.
        now rewrite <- app_assoc.
      * rewrite IH by assumption.
        rewrite filter_cons_False; [reflexivity|]. lia.
    + now rewrite take_app_length' by lia.
Qed.

Lemma useFrame_packed t now ripples u :
  well_formed u -> useFrame t now ripples u = packed t (active now ripples).
Proof.
  intros Hu. unfold useFrame.
  rewrite reset_slots by exact Hu. cbn [uTime].
  apply (pack_loop_packed t now (reverse ripples) []). cbn. lia.
Qed.

Lemma initial_well_formed : well_formed initial.
Proof. now repeat split. Qed.

(** C6.  Whatever the ripples read from the store and whatever the
    uniforms held before (three arrays of ten entries, as the material
    creates them), a frame leaves three arrays of exactly ten entries.
    Their first slots hold the ripples that pass the age test of the
    packing, the most recent first, at most ten of them: slot [i] holds
    the position, the strength and the time in seconds of the [i]-th most
    recent one.  Every slot after them holds the zero vector, strength 0
    and time 0. *)
Theorem packing_always_fills_ten_slots
    (elapsedTime : float) (now : Z) (ripples : list Store.Ripple) (u : Uniforms) :
  well_formed u ->
  let u' := useFrame elapsedTime now ripples u in
  let live := active now ripples in
  length (uRipples u') = 10%nat
  /\ length (uRippleStrengths u') = 10%nat
  /\ length (uRippleTimes u') = 10%nat
  /\ uRipples u'
     = pad10 {| v2x := 0; v2y := 0 |}
         ((fun r => {| v2x := fst (Store.position r);
                       v2y := snd (Store.position r) |}) <$> live)
  /\ uRippleStrengths u' = pad10 0 (Store.strength <$> live)
  /\ uRippleTimes u' = pad10 0 ((fun r => of_Z (Store.time r) / 1000) <$> live)
  /\ (forall i r, live !! i = Some r ->
        uRippleStrengths u' !! i = Some (Store.strength r))
  /\ (forall i, (length live <= i < 10)%nat ->
        uRippleStrengths u' !! i = Some 0
        /\ uRipples u' !! i = Some {| v2x := 0; v2y := 0 |}
        /\ uRippleTimes u' !! i = Some 0).
Proof.
  intros Hu. cbv zeta. rewrite useFrame_packed by exact Hu.
  unfold packed. cbn [uRipples uRippleStrengths uRippleTimes].
  rewrite !pad10_length.
  do 6 (split; [reflexivity|]). split.
  - intros i r Hr. apply pad10_lookup_lt.
    + now rewrite list_lookup_fmap, Hr.
    + apply lookup_lt_Some in Hr. unfold active in Hr.
      rewrite length_take in Hr. lia.
  - intros i [Hi Hi']. repeat split; apply pad10_lookup_ge;
      rewrite ?length_fmap; assumption.
Qed.

Lemma packing_always_fills_ten_slots_witness :
  well_formed initial
  /\ length (uRippleStrengths (useFrame 0 0 one_ripple initial)) = 10%nat
  /\ uRippleStrengths (useFrame 0 0 one_ripple initial)
     = [1; 0; 0; 0; 0; 0; 0; 0; 0; 0].
Proof.
  destruct (packing_always_fills_ten_slots 0 0 one_ripple initial
              initial_well_formed) as (_ & Hlen & _ & _ & Hs & _).
  split; [exact initial_well_formed|]. split; [exact Hlen|].
  rewrite Hs. reflexivity.
Defined.

End MercuryFacts.

(** ** Ripple sum of the vertex shader *)

Module ShaderFacts.

Import JS FloatFacts FloatOrder RoundingFacts.
Import MercurySurface Shader MercuryFacts.

Section Builtins.
Variables gl_sin gl_exp : float -> float.
Variable cnoise : float -> float -> float -> float.

Lemma ripple_step_skipped u pos acc i :
  skipped u i = true -> ripple_step gl_sin gl_exp u pos acc i = acc.
Proof.
  unfold skipped, ripple_step. intros H.
  destruct (f32 0.01 <? slot (uRippleStrengths u) i); [|reflexivity].
  cbn in H. now destruct (_ && _).
Qed.

Lemma ripple_step_taken u pos acc i :
  skipped u i = false ->
  ripple_step gl_sin gl_exp u pos acc i
  = add32 acc (calculateRipple gl_sin gl_exp pos (slot2 (uRipples u) i)
                 (slot (uRippleStrengths u) i)
                 (sub32 (f32 (uTime u)) (slot (uRippleTimes u) i))).
Proof.
  unfold skipped, ripple_step. intros H.
  destruct (f32 0.01 <? slot (uRippleStrengths u) i); [|discriminate].
  cbn in H. now destruct (_ && _).
Qed.

Lemma fold_skipped u pos l : forall acc,
  Forall (fun i => skipped u i = true) l ->
  fold_left (ripple_step gl_sin gl_exp u pos) l acc = acc.
Proof.
  induction l as [|i l IH]; intros acc Hl; [reflexivity|].
  inversion Hl; subst. cbn [fold_left].
  rewrite ripple_step_skipped by assumption. now apply IH.
Qed.

Lemma rippleSum_all_skipped u pos :
  Forall (fun i => skipped u i = true) (seq 0 10) ->
  rippleSum gl_sin gl_exp u pos = 0.
Proof. apply fold_skipped. Qed.

Lemma packed_well_formed t acc : well_formed (packed t acc).
Proof. unfold well_formed, packed. cbn. now rewrite !pad10_length. Qed.

(** What the shader reads in a slot that holds a ripple, and in one
    that holds none. *)
Lemma packed_slot_live t acc i r :
  acc !! i = Some r -> (i < 10)%nat ->
  slot (uRippleStrengths (packed t acc)) i = f32 (Store.strength r)
  /\ slot (uRippleTimes (packed t acc)) i = f32 (seconds r)
  /\ slot2 (uRipples (packed t acc)) i
     = {| v2x := f32 (fst (Store.position r));
          v2y := f32 (snd (Store.position r)) |}.
Proof.
  intros Hr Hi. unfold slot, slot2, packed.
  cbn [uRippleStrengths uRippleTimes uRipples].
  rewrite !(pad10_lookup_lt _ _ i _ (eq_trans (list_lookup_fmap _ _ _)
                                        (f_equal _ Hr))) by exact Hi.
  repeat split.
Qed.

Lemma packed_slot_free t acc i :
  (length acc <= i)%nat -> (i < 10)%nat ->
  skipped (packed t acc) i = true.
Proof.
  intros Hl Hi. unfold skipped, slot, packed. cbn [uRippleStrengths].
  rewrite pad10_lookup_ge by (rewrite ?length_fmap; assumption).
  reflexivity.
Qed.

(** With no ripple packed the sum is zero; with one, only slot 0 can
    add to it. *)
Lemma rippleSum_packed_none t pos :
  rippleSum gl_sin gl_exp (packed t []) pos = 0.
Proof.
  apply rippleSum_all_skipped. apply Forall_forall. intros i Hi.
  apply elem_of_seq in Hi. apply packed_slot_free; cbn; lia.
Qed.

Lemma rippleSum_packed_one t r pos :
  rippleSum gl_sin gl_exp (packed t [r]) pos
  = ripple_step gl_sin gl_exp (packed t [r]) pos 0 0.
Proof.
  unfold rippleSum. change (seq 0 10) with (0%nat :: seq 1 9).
  cbn [fold_left]. apply fold_skipped. apply Forall_forall. intros i Hi.
  apply elem_of_seq in Hi. apply packed_slot_free; cbn; lia.
Qed.

(** C2, amended.  A ripple of any strength is added at (0, 0) to an empty
    collection when [Date.now()] reads [T]; a later frame runs with the
    scene clock at [elapsedTime] and [Date.now()] at [now], on uniforms
    of ten slots.  The age of the ripple in that frame is [uTime] minus
    [T / 1000], both rounded to binary32.  At every sample point the
    ripple sum is exactly 0 unless the ripple is packed (younger than 10 s
    on [Date.now()]), its strength is above 0.01 and its age is strictly
    between 0 and 5; in that case it is the one term [calculateRipple]
    gives for that age.  So the sum is exactly 0 in the frame of the
    instant of creation, and in every frame whose [uTime] is not above
    the time of the ripple in seconds, whatever the strength (not a value
    proportional to it); and it is exactly 0 once the age is 5 or more, at
    6 s for instance.  The frame leaves uniforms of ten slots, and the
    displaced height of a vertex is its height plus the ambient waves plus
    that sum. *)
Theorem ripple_at_origin_sampled_at_0s_and_6s
    (rid : string) (strength : float) (T : Z)
    (elapsedTime : float) (now : Z) (u : Uniforms) (pos : Vector2) :
  well_formed u ->
  let ripples := Store.addRipple rid T (0, 0) strength [] in
  let u' := useFrame elapsedTime now ripples u in
  let age := sub32 (f32 elapsedTime) (f32 (of_Z T / 1000)) in
  rippleSum gl_sin gl_exp u' pos
  = (if (now - T <? maxRipples * 1000)%Z
        && (f32 0.01 <? f32 strength)
        && ((0 <? age) && (age <? 5))
     then add32 0 (calculateRipple gl_sin gl_exp pos {| v2x := 0; v2y := 0 |}
                     (f32 strength) age)
     else 0)
  /\ ((f32 elapsedTime <=? f32 (of_Z T / 1000)) = true ->
      rippleSum gl_sin gl_exp u' pos = 0)
  /\ ((5 <=? age) = true -> rippleSum gl_sin gl_exp u' pos = 0)
  /\ well_formed u'
  /\ (forall py,
        getDisplacedPosition_y gl_sin gl_exp cnoise u' (v2x pos) py (v2y pos)
        = add32 py (add32 (ambientWave cnoise u' (v2x pos) (v2y pos))
                          (rippleSum gl_sin gl_exp u' pos))).
Proof.
  intros Hu. cbv zeta.
  set (age := sub32 (f32 elapsedTime) (f32 (of_Z T / 1000))).
  assert (rippleSum gl_sin gl_exp
            (useFrame elapsedTime now (Store.addRipple rid T (0, 0) strength []) u)
            pos
          = (if (now - T <? maxRipples * 1000)%Z
                && (f32 0.01 <? f32 strength)
                && ((0 <? age) && (age <? 5))
             then add32 0 (calculateRipple gl_sin gl_exp pos
                             {| v2x := 0; v2y := 0 |} (f32 strength) age)
             else 0)) as Hsum.
  { rewrite useFrame_packed by exact Hu. unfold active.
    change (Store.addRipple rid T (0, 0) strength [])
      with [Store.newRipple rid T (0, 0) strength].
    change (reverse [Store.newRipple rid T (0, 0) strength])
      with [Store.newRipple rid T (0, 0) strength].
    destruct (Z.ltb_spec (now - T) (maxRipples * 1000)) as [Hlt|Hge].
    - rewrite filter_cons_True by exact Hlt. rewrite filter_nil.
      change (take 10 [Store.newRipple rid T (0, 0) strength])
        with [Store.newRipple rid T (0, 0) strength].
      rewrite rippleSum_packed_one. unfold ripple_step.
      destruct (packed_slot_live elapsedTime
                  [Store.newRipple rid T (0, 0) strength] 0
                  (Store.newRipple rid T (0, 0) strength) eq_refl)
        as (-> & -> & ->); [lia|].
      cbn [Store.strength Store.position Store.newRipple fst snd uTime packed].
      change (f32 0) with 0.
      change (sub32 (f32 elapsedTime)
                (f32 (seconds (Store.newRipple rid T (0, 0) strength))))
        with age.
      cbn [andb]. now destruct (f32 0.01 <? f32 strength).
    - rewrite filter_cons_False by (cbn; lia). rewrite filter_nil.
      change (take 10 []) with (@nil Store.Ripple).
      rewrite rippleSum_packed_none. reflexivity. }
  split; [exact Hsum|]. split; [|split; [|split]].
  - intros Hb. rewrite Hsum.
    assert ((0 <? age) = false) as ->
      by (apply fround_not_pos, sub_leb, Hb).
    now rewrite !andb_false_r.
  - intros Hold. rewrite Hsum.
    rewrite (leb_not_ltb _ _ Hold). now rewrite !andb_false_r.
  - rewrite useFrame_packed by exact Hu. apply packed_well_formed.
  - intros py. unfold getDisplacedPosition_y. now destruct pos.
Qed.

End Builtins.

Lemma ripple_at_origin_sampled_at_0s_and_6s_witness :
  let sum T elapsedTime now :=
    rippleSum (fun _ => 1) (fun _ => 1)
      (useFrame elapsedTime now (Store.addRipple "r" T (0, 0) 1 []) initial)
      {| v2x := 0; v2y := 0 |} in
  well_formed initial
  /\ sum 0%Z 0 0%Z = 0
  /\ sum 0%Z 6 6000%Z = 0
  /\ sum 1793600000000%Z 2.5 1793600002500%Z = 0
  /\ sum 2000%Z 3 3000%Z = 1.
Proof.
  cbv zeta.
  pose proof (fun T e n =>
    ripple_at_origin_sampled_at_0s_and_6s (fun _ => 1) (fun _ => 1)
      (fun _ _ _ => 0) "r" 1 T e n initial {| v2x := 0; v2y := 0 |}
      initial_well_formed) as H.
  cbv zeta in H.
  split; [exact initial_well_formed|].
  split; [exact (proj1 (proj2 (H 0%Z 0 0%Z)) eq_refl)|].
  split; [exact (proj1 (proj2 (proj2 (H 0%Z 6 6000%Z))) eq_refl)|].
  split; [exact (proj1 (proj2 (H 1793600000000%Z 2.5 1793600002500%Z)) eq_refl)|].
  rewrite (proj1 (H 2000%Z 3 3000%Z)). reflexivity.
Defined.

(** C2, as stated, fails at its first sample: with strength 1.0 the sum
    at (0, 0) in the frame of time 0 is 0, even for a wave and an envelope
    that are 1 everywhere, for which [calculateRipple] itself gives 1. *)
Lemma fresh_ripple_contributes_nothing :
  rippleSum (fun _ => 1) (fun _ => 1)
    (useFrame 0 0 (Store.addRipple "ripple-0-abc" 0 (0, 0) 1 []) initial)
    {| v2x := 0; v2y := 0 |} = 0
  /\ calculateRipple (fun _ => 1) (fun _ => 1)
       {| v2x := 0; v2y := 0 |} {| v2x := 0; v2y := 0 |} 1 0 = 1.
Proof. split; reflexivity. Qed.

End ShaderFacts.

(** ** Particle system *)

Module ParticleFacts.

Import JS Particles ParticleInit FloatFacts.






(** C7.  [setTargetPositions] called with an array whose length differs
    from [count * 3] returns normally with the system as it was (the
    stored target positions and every other field), the arrays and the
    random source untouched, and one more line on the console. *)
Theorem setTargetPositions_rejects_a_wrong_length
    (s : t) (targets : ref) (w : World) :
  length (default [] (heap w !! targets)) <> (count s * 3)%nat ->
  setTargetPositions s targets w
  = (s, {| heap := heap w; randoms := randoms w;
           console := console w ++ ["Target positions count mismatch"] |}).
Proof.
  intros H. unfold setTargetPositions, mbind, M_bind, array_length.
  destruct (decide _) as [_|Heq]; [reflexivity | contradiction].
Qed.

Lemma setTargetPositions_accepts_the_right_length s targets w :
  length (default [] (heap w !! targets)) = (count s * 3)%nat ->
  setTargetPositions s targets w = (with_targets s (Some targets), w).
Proof.
  intros H. unfold setTargetPositions, mbind, M_bind, array_length.
  destruct (decide _) as [Hne|_]; [contradiction | reflexivity].
Qed.

Lemma setTargetPositions_rejects_a_wrong_length_witness :
  length (default [] (heap sample_world !! 6%nat)) <> (count sample * 3)%nat
  /\ setTargetPositions sample 6%nat sample_world
     = (sample, {| heap := heap sample_world; randoms := 0;
                   console := ["Target positions count mismatch"] |}).
Proof.
  assert (length (default [] (heap sample_world !! 6%nat))
          <> (count sample * 3)%nat) as H by (vm_compute; lia).
  split; [exact H|].
  exact (setTargetPositions_rejects_a_wrong_length sample 6%nat sample_world H).
Defined.

Lemma in_place_refl w : in_place w w.
Proof. now split. Qed.

Lemma in_place_trans w1 w2 w3 :
  in_place w1 w2 -> in_place w2 w3 -> in_place w1 w3.
Proof.
  revert w1 w2 w3.
  intros w1 w2 w3 [H1 C1] [H2 C2]. split; [|congruence].
  intros a. now rewrite H2, H1.
Qed.

Lemma store_in_place a i v w : in_place w (store a i v w).2.
Proof.
  split; [|reflexivity]. intros c. cbn.
  destruct (decide (a = c)) as [->|Hne].
  - rewrite lookup_alter_eq. destruct (heap w !! c); cbn; [|reflexivity].
    now rewrite length_insert.
  - now rewrite lookup_alter_ne.
Qed.

Lemma cell_store_eq a i v w :
  cell (store a i v w).2 a i = (fun _ => JS.fround v) <$> cell w a i.
Proof.
  unfold cell. cbn. rewrite lookup_alter_eq.
  destruct (heap w !! a) as [l|]; cbn; [|reflexivity].
  destruct (l !! i) as [c|] eqn:Hi; cbn.
  - apply list_lookup_insert_eq. now apply lookup_lt_Some in Hi.
  - rewrite list_insert_ge; [assumption|]. now apply lookup_ge_None.
Qed.

Lemma cell_store_ne a i v w c j :
  a <> c \/ i <> j -> cell (store a i v w).2 c j = cell w c j.
Proof.
  unfold cell. cbn. destruct (decide (a = c)) as [->|Hne].
  - intros [?|Hij]; [congruence|]. rewrite lookup_alter_eq.
    destruct (heap w !! c); cbn; [|reflexivity].
    now apply list_lookup_insert_ne.
  - intros _. now rewrite lookup_alter_ne.
Qed.

Section Loops.
Context {S : Type}.
Implicit Types (body : S -> nat -> M S).

Lemma for_fold_cons i l body s w :
  for_fold (i :: l) body s w
  = for_fold l body (body s i w).1 (body s i w).2.
Proof. cbn. unfold mbind, M_bind. now destruct (body s i w). Qed.

(** A relation that every iteration establishes holds across the loop. *)
Lemma for_fold_in_place l body :
  (forall s i w, in_place w (body s i w).2) ->
  forall s w, in_place w (for_fold l body s w).2.
Proof.
  intros Hbody. induction l as [|i l IH]; intros s w;
    [apply in_place_refl|].
  rewrite for_fold_cons.
  apply (in_place_trans _ (body s i w).2); [apply Hbody | apply IH].
Qed.

End Loops.

(** Rewrites cell [j] of the array [L] back through the worlds of a
    straight-line run of stores and random draws. *)
Ltac chain L j :=
  repeat match goal with
  | H : _ -> cell ?w1 L j = cell _ L j |- context [cell ?w1 L j] =>
      rewrite H by first [ now left | now right ]
  | H : cell ?w1 L j = cell _ L j |- context [cell ?w1 L j] => rewrite H
  end.

Section Environment.
Variable random_value : nat -> float.
Variables Math_sin Math_cos Math_acos Math_cbrt : float -> float.

#[local] Abbreviation init_particle :=
  (Particles.init_particle random_value Math_sin Math_cos Math_acos Math_cbrt).
#[local] Abbreviation initializeParticles :=
  (Particles.initializeParticles random_value Math_sin Math_cos Math_acos
                                 Math_cbrt).
#[local] Abbreviation reset :=
  (Particles.reset random_value Math_sin Math_cos Math_acos Math_cbrt).
#[local] Abbreviation initialized :=
  (ParticleInit.initialized random_value Math_sin Math_cos Math_acos Math_cbrt).

Lemma random_in_place w : in_place w (random random_value w).2.
Proof. now split. Qed.

Lemma init_particle_in_place s i w : in_place w (init_particle s i w).2.
Proof.
  unfold Particles.init_particle, mbind, M_bind.
  repeat match goal with
  | |- context [random random_value ?w0] =>
      let E := fresh "E" in
      pose proof (random_in_place w0) as E;
      destruct (random random_value w0) as [? ?]; cbn [snd] in E
  | |- context [store ?a ?j ?v ?w0] =>
      let E := fresh "E" in
      pose proof (store_in_place a j v w0) as E;
      destruct (store a j v w0) as [? ?]; cbn [snd] in E
  end.
  cbn [snd].
  repeat match goal with
  | H : in_place ?w1 ?w2 |- in_place ?w1 _ =>
      apply (in_place_trans _ w2); [exact H | clear H]
  end.
  apply in_place_refl.
Qed.


Lemma initializeParticles_in_place s w :
  in_place w (initializeParticles s w).2.
Proof.
  unfold Particles.initializeParticles, for_each.
  apply for_fold_in_place. intros; apply init_particle_in_place.
Qed.

Lemma init_particle_randoms s i w :
  randoms (init_particle s i w).2 = (randoms w + 10)%nat.
Proof.
  unfold Particles.init_particle, mbind, M_bind.
  repeat match goal with
  | |- context [random random_value ?w0] =>
      let E := fresh "E" in
      assert (randoms (random random_value w0).2 = S (randoms w0)) as E
        by reflexivity;
      destruct (random random_value w0) as [? ?]; cbn [snd] in E
  | |- context [store ?a ?k ?v ?w0] =>
      let E := fresh "E" in
      assert (randoms (store a k v w0).2 = randoms w0) as E by reflexivity;
      destruct (store a k v w0) as [? ?]; cbn [snd] in E
  end.
  cbn [snd]. lia.
Qed.

Lemma for_each_randoms s l : forall w,
  randoms (for_each l (init_particle s) w).2
  = (randoms w + 10 * length l)%nat.
Proof.
  unfold for_each. induction l as [|i l IH]; intros w.
  - cbn. lia.
  - rewrite for_fold_cons, IH, init_particle_randoms. cbn [length]. lia.
Qed.

Lemma cell_random w a j : cell (random random_value w).2 a j = cell w a j.
Proof. reflexivity. Qed.

(** What [init_particle s i] does to the lifetimes: cell [i] becomes 1,
    the others stay. *)
Lemma init_particle_lifetime s i w j :
  positions s <> lifetimes s -> velocities s <> lifetimes s ->
  colors s <> lifetimes s -> sizes s <> lifetimes s ->
  cell (init_particle s i w).2 (lifetimes s) j
  = if decide (i = j) then (fun _ => 1) <$> cell w (lifetimes s) j
    else cell w (lifetimes s) j.
Proof.
  intros Hp Hv Hc Hs.
  unfold Particles.init_particle, mbind, M_bind.
  repeat match goal with
  | |- context [random random_value ?w0] =>
      let E := fresh "E" in
      pose proof (cell_random w0 (lifetimes s) j) as E;
      destruct (random random_value w0) as [? ?]; cbn [snd] in E
  | |- context [store ?a ?k ?v ?w0] =>
      let E := fresh "E" in let F := fresh "F" in
      pose proof (cell_store_ne a k v w0 (lifetimes s) j) as E;
      pose proof (cell_store_eq a k v w0) as F;
      destruct (store a k v w0) as [? ?]; cbn [snd] in E, F
  end.
  cbn [snd].
  destruct (decide (i = j)) as [<-|Hne].
  - match goal with
    | H : cell ?w1 (lifetimes s) i = _ <$> _ |- cell ?w1 _ _ = _ => rewrite H
    end.
    chain (lifetimes s) i. reflexivity.
  - chain (lifetimes s) j. reflexivity.
Qed.


Lemma for_each_lifetimes s l :
  positions s <> lifetimes s -> velocities s <> lifetimes s ->
  colors s <> lifetimes s -> sizes s <> lifetimes s ->
  forall w j,
    cell (for_each l (init_particle s) w).2 (lifetimes s) j
    = if decide (j ∈ l) then (fun _ => 1) <$> cell w (lifetimes s) j
      else cell w (lifetimes s) j.
Proof.
  intros Hp Hv Hc Hs. unfold for_each.
  induction l as [|i l IH]; intros w j.
  - rewrite decide_False by apply not_elem_of_nil. reflexivity.
  - rewrite for_fold_cons, IH, init_particle_lifetime by assumption.
    destruct (decide (j ∈ l)) as [Hin|Hnin], (decide (i = j)) as [->|Hne].
    + rewrite decide_True by (now left).
      now destruct (cell w (lifetimes s) j).
    + rewrite decide_True by (now right). reflexivity.
    + rewrite decide_True by (now left). reflexivity.
    + rewrite decide_False; [reflexivity|].
      intros [?|?]%elem_of_cons; congruence.
Qed.

(** *** What [initializeParticles] leaves in the arrays *)

Lemma random_value_spec w :
  (random random_value w).1 = random_value (randoms w).
Proof. reflexivity. Qed.

Lemma random_randoms w : randoms (random random_value w).2 = S (randoms w).
Proof. reflexivity. Qed.

Lemma random_cells w :
  forall a j, cell (random random_value w).2 a j = cell w a j.
Proof. reflexivity. Qed.

Lemma store_randoms a i v w : randoms (store a i v w).2 = randoms w.
Proof. reflexivity. Qed.

Lemma store_cells a i v w :
  forall c j, a <> c \/ i <> j -> cell (store a i v w).2 c j = cell w c j.
Proof. intros c j. apply cell_store_ne. Qed.

(** Runs the body of [init_particle] step by step: every draw and every
    store leaves its result, the count of draws so far and what it did to
    the cells as hypotheses. *)
Ltac run_init_particle w :=
  unfold Particles.init_particle, mbind, M_bind;
  repeat match goal with
  | |- context [random random_value ?w0] =>
      let R := fresh "R" in let N := fresh "N" in let C := fresh "C" in
      pose proof (random_value_spec w0) as R;
      pose proof (random_randoms w0) as N;
      pose proof (random_cells w0) as C;
      destruct (random random_value w0) as [? ?]; cbn [fst snd] in R, N, C;
      try match goal with
          | P : randoms w0 = _ |- _ => rewrite P in R, N
          end
  | |- context [store ?a ?k ?v ?w0] =>
      let N := fresh "N" in let E := fresh "E" in let F := fresh "F" in
      pose proof (store_randoms a k v w0) as N;
      pose proof (cell_store_eq a k v w0) as E;
      pose proof (store_cells a k v w0) as F;
      destruct (store a k v w0) as [? ?]; cbn [snd] in N, E, F;
      try match goal with
          | P : randoms w0 = _ |- _ => rewrite P in N
          end
  end;
  cbn [snd].

(** Reads a cell of the last world back through the steps; [side] proves
    that a store went elsewhere. *)
Ltac read_back side :=
  repeat match goal with
  | E : cell ?w1 ?a ?j = _ <$> cell _ ?a ?j |- context [cell ?w1 ?a ?j] =>
      rewrite E
  | F : forall c j, _ \/ _ -> cell ?w1 c j = cell _ c j
    |- context [cell ?w1 ?a ?j] =>
      rewrite (F a j) by side
  | C : forall a j, cell ?w1 a j = cell _ a j |- context [cell ?w1 ?a ?j] =>
      rewrite (C a j)
  end.

Lemma init_particle_frame s i w a j :
  ~ owns s i a j -> cell (init_particle s i w).2 a j = cell w a j.
Proof.
  intros H. run_init_particle w.
  read_back ltac:(idtac;
    match goal with
    | |- ?x <> a \/ ?k <> j =>
        destruct (decide (x = a)) as [Heq|Hne];
        [right; intros Hk; apply H; unfold owns; rewrite <- Heq, <- Hk;
         first [ left; split; [tauto | lia] | right; split; [tauto | lia] ]
        | left; exact Hne]
    end).
  reflexivity.
Qed.

Lemma init_particle_randoms' s i w :
  randoms (init_particle s i w).2 = (10 + randoms w)%nat.
Proof. rewrite init_particle_randoms. lia. Qed.

(** The cells of particle [i] after [init_particle s i], the draws being
    those from number [randoms w] on. *)
Lemma init_particle_cells s i w :
  NoDup [positions s; velocities s; colors s; sizes s; lifetimes s] ->
  initialized s w (init_particle s i w).2 i (randoms w).
Proof.
  intros Hnd. unfold ParticleInit.initialized, put.
  repeat match goal with
         | H : NoDup (_ :: _) |- _ => apply NoDup_cons in H as [? H]
         end.
  repeat match goal with
         | H : _ ∉ _ :: _ |- _ => apply not_elem_of_cons in H as [? H]
         end.
  run_init_particle w.
  repeat split;
    read_back ltac:(idtac; first [ right; lia | left; congruence ]);
    subst; reflexivity.
Qed.

Lemma for_each_frame s l a j : forall w,
  (forall i, i ∈ l -> ~ owns s i a j) ->
  cell (for_each l (init_particle s) w).2 a j = cell w a j.
Proof.
  unfold for_each. induction l as [|i l IH]; intros w H; [reflexivity|].
  rewrite for_fold_cons, IH by (intros k Hk; apply H; now right).
  apply init_particle_frame, H. now left.
Qed.

Lemma owns_apart s i k a j :
  NoDup [positions s; velocities s; colors s; sizes s; lifetimes s] ->
  i <> k -> owns s i a j -> ~ owns s k a j.
Proof.
  intros Hnd Hik.
  repeat match goal with
         | H : NoDup (_ :: _) |- _ => apply NoDup_cons in H as [? H]
         end.
  repeat match goal with
         | H : _ ∉ _ :: _ |- _ => apply not_elem_of_cons in H as [? H]
         end.
  unfold owns. intros [[Ha Hj]|[Ha Hj]] [[Ha' Hj']|[Ha' Hj']];
    [lia | | | lia].
  - destruct Ha as [->|[->| ->]]; destruct Ha' as [E|E]; congruence.
  - destruct Ha' as [->|[->| ->]]; destruct Ha as [E|E]; congruence.
Qed.

(** The cells of a particle keep what its round left in them when the
    rounds before and after touch none of them. *)
Lemma initialized_shift s w0 w w1 w' i base :
  (forall a j, owns s i a j -> cell w a j = cell w0 a j) ->
  (forall a j, owns s i a j -> cell w' a j = cell w1 a j) ->
  initialized s w w1 i base -> initialized s w0 w' i base.
Proof.
  intros Hb Ha. unfold ParticleInit.initialized, put.
  assert (forall c k, (k < 3)%nat ->
            c = positions s \/ c = velocities s \/ c = colors s ->
            owns s i c (i * 3 + k)) as O3
    by (intros c k Hk Hc; left; split; [exact Hc | lia]).
  assert (forall c, c = sizes s \/ c = lifetimes s -> owns s i c i) as O1
    by (intros c Hc; right; split; [exact Hc | reflexivity]).
  pose proof (O3 (positions s) 0%nat ltac:(lia) ltac:(tauto)) as P0.
  pose proof (O3 (velocities s) 0%nat ltac:(lia) ltac:(tauto)) as V0.
  pose proof (O3 (colors s) 0%nat ltac:(lia) ltac:(tauto)) as C0.
  rewrite Nat.add_0_r in P0, V0, C0.
  intros (H1 & H2 & H3 & H4 & H5 & H6 & H7 & H8 & H9 & H10 & H11).
  repeat split;
    (rewrite Ha, <- Hb by (first [ assumption | apply O3; [lia | tauto]
                                 | apply O1; tauto ]));
    assumption.
Qed.

Lemma for_each_cells s : forall n a w,
  NoDup [positions s; velocities s; colors s; sizes s; lifetimes s] ->
  forall i, (a <= i < a + n)%nat ->
  initialized s w (for_each (seq a n) (init_particle s) w).2 i
              (10 * (i - a) + randoms w).
Proof.
  induction n as [|n IH]; intros a w Hnd i Hi; [lia|].
  cbn [seq]. unfold for_each. rewrite for_fold_cons.
  fold (for_each (seq (S a) n) (init_particle s) (init_particle s a w).2).
  destruct (decide (i = a)) as [->|Hne].
  - rewrite Nat.sub_diag. cbn [Nat.mul Nat.add].
    apply (initialized_shift s w w (init_particle s a w).2).
    + reflexivity.
    + intros c j Ho. apply for_each_frame. intros k Hk.
      apply elem_of_seq in Hk.
      apply (owns_apart s a k); [assumption | lia | assumption].
    + now apply init_particle_cells.
  - pose proof (IH (S a) (init_particle s a w).2 Hnd i ltac:(lia)) as H.
    rewrite init_particle_randoms in H.
    replace (10 * (i - S a) + (randoms w + 10))%nat
      with (10 * (i - a) + randoms w)%nat in H by lia.
    apply (initialized_shift s w (init_particle s a w).2
             (for_each (seq (S a) n) (init_particle s) (init_particle s a w).2).2).
    + intros c j Ho. apply init_particle_frame.
      apply (owns_apart s i a); [assumption | lia | assumption].
    + reflexivity.
    + exact H.
Qed.

(** C10.  [reset] returns the system with the references to its five
    particle arrays, its count and its configuration as they were, the
    target positions cleared to null and no force field.  In the world
    it leaves, every array stands where it stood, with the length it
    had: none was created, dropped or resized, and the world is the one
    [initializeParticles] leaves, ten random numbers later per
    particle.  The arrays were written anew: when the lifetimes do not
    share their array with the positions, velocities, colours or sizes,
    every particle's lifetime is 1 afterwards.  When the five arrays are
    five different arrays, every cell of every particle [i] below [count]
    holds, rounded to binary32, the value the loop of
    [initializeParticles] computes for it from the ten random numbers
    drawn for that particle, which are those from number [10 * i] on
    after the ones drawn before [reset]: the three coordinates [radius *
    sin(phi) * cos(theta)], [radius * sin(phi) * sin(theta)] and [radius *
    cos(phi)] of a position, with [theta], [phi] and [radius] from the
    first three; three velocities [(random - 0.5) * 0.1]; the three
    channels of the configured colour, each plus [(random - 0.5) * 0.1];
    the size [size * (0.5 + random * 0.5)]; and lifetime 1.  A cell that
    belongs to no particle, in these arrays or in any other, is as it
    was. *)
Theorem reset_reinitializes_in_place (s : t) (w : World) :
  let s' := (reset s w).1 in
  let w' := (reset s w).2 in
  positions s' = positions s
  /\ velocities s' = velocities s
  /\ colors s' = colors s
  /\ sizes s' = sizes s
  /\ lifetimes s' = lifetimes s
  /\ count s' = count s
  /\ config s' = config s
  /\ targetPositions s' = None
  /\ forceFields s' = []
  /\ in_place w w'
  /\ w' = (initializeParticles s w).2
  /\ randoms w' = (randoms w + 10 * count s)%nat
  /\ (positions s <> lifetimes s -> velocities s <> lifetimes s ->
      colors s <> lifetimes s -> sizes s <> lifetimes s ->
      forall i, (i < count s)%nat -> is_Some (cell w (lifetimes s) i) ->
      cell w' (lifetimes s) i = Some 1)
  /\ (NoDup [positions s; velocities s; colors s; sizes s; lifetimes s] ->
      forall i, (i < count s)%nat ->
      let rnd k := random_value (k + (10 * i + randoms w)) in
      let theta := rnd 0%nat * Math_PI * 2 in
      let phi := Math_acos (2 * rnd 1%nat - 1) in
      let radius := cfg_spread (config s) * Math_cbrt (rnd 2%nat) in
      let colorVariation := 0.1 in
      let written a j v :=
        cell w' a j = (fun _ => JS.fround v) <$> cell w a j in
      written (positions s) (i * 3)%nat
              (radius * Math_sin phi * Math_cos theta)
      /\ written (positions s) (i * 3 + 1)%nat
                 (radius * Math_sin phi * Math_sin theta)
      /\ written (positions s) (i * 3 + 2)%nat (radius * Math_cos phi)
      /\ written (velocities s) (i * 3)%nat ((rnd 3%nat - 0.5) * 0.1)
      /\ written (velocities s) (i * 3 + 1)%nat ((rnd 4%nat - 0.5) * 0.1)
      /\ written (velocities s) (i * 3 + 2)%nat ((rnd 5%nat - 0.5) * 0.1)
      /\ written (colors s) (i * 3)%nat
           (r (cfg_color (config s)) + (rnd 6%nat - 0.5) * colorVariation)
      /\ written (colors s) (i * 3 + 1)%nat
           (g (cfg_color (config s)) + (rnd 7%nat - 0.5) * colorVariation)
      /\ written (colors s) (i * 3 + 2)%nat
           (b (cfg_color (config s)) + (rnd 8%nat - 0.5) * colorVariation)
      /\ written (sizes s) i (cfg_size (config s) * (0.5 + rnd 9%nat * 0.5))
      /\ written (lifetimes s) i 1)
  /\ (forall a j, (forall i, (i < count s)%nat -> ~ owns s i a j) ->
      cell w' a j = cell w a j).
Proof.
  cbv zeta. unfold Particles.reset, mbind, M_bind.
  destruct (initializeParticles s w) as [u w'] eqn:Hinit.
  cbn [fst snd mret M_ret with_fields with_targets positions velocities
       colors sizes lifetimes count config targetPositions forceFields].
  assert (w' = (initializeParticles s w).2) as Hw' by now rewrite Hinit.
  do 9 (split; [reflexivity|]).
  split; [rewrite Hw'; apply initializeParticles_in_place|].
  split; [reflexivity|]. split; [|split; [|split]].
  - rewrite Hw'. unfold Particles.initializeParticles.
    now rewrite for_each_randoms, length_seq.
  - intros Hp Hv Hc Hs i Hi [v Hcell]. rewrite Hw'.
    unfold Particles.initializeParticles.
    rewrite for_each_lifetimes by assumption.
    rewrite decide_True by (apply elem_of_seq; lia).
    now rewrite Hcell.
  - intros Hnd i Hi. rewrite Hw'. unfold Particles.initializeParticles.
    pose proof (for_each_cells s (count s) 0 w Hnd i ltac:(lia)) as H.
    rewrite Nat.sub_0_r in H. exact H.
  - intros a j Hfree. rewrite Hw'. unfold Particles.initializeParticles.
    apply for_each_frame. intros i Hi. apply elem_of_seq in Hi.
    apply Hfree. lia.
Qed.

End Environment.

Lemma reset_reinitializes_in_place_witness :
  let r := Particles.reset (fun n => 0.5) (fun a => a) (fun a => a)
                           (fun a => a) (fun a => a) sample sample_world in
  is_Some (cell sample_world (lifetimes sample) 1)
  /\ targetPositions sample = Some 5%nat
  /\ targetPositions r.1 = None
  /\ forceFields r.1 = []
  /\ positions r.1 = positions sample
  /\ in_place sample_world r.2
  /\ cell sample_world (lifetimes sample) 1 = Some 0.25
  /\ cell r.2 (lifetimes sample) 1 = Some 1
  /\ NoDup [positions sample; velocities sample; colors sample;
            sizes sample; lifetimes sample]
  /\ cell sample_world (velocities sample) 4 = Some 0.25
  /\ cell r.2 (velocities sample) 4 = Some 0
  /\ cell r.2 (sizes sample) 1 = Some 0.75
  /\ cell r.2 (colors sample) 5 = Some 1
  /\ cell r.2 5%nat 0 = Some 0.25.
Proof.
  cbv zeta.
  destruct (reset_reinitializes_in_place (fun n => 0.5) (fun a => a)
              (fun a => a) (fun a => a) (fun a => a) sample sample_world)
    as (Hp & _ & _ & _ & _ & _ & _ & Ht & Hf & Hin & _ & _ & Hl & Hc & Hfree).
  assert (is_Some (cell sample_world (lifetimes sample) 1)) as Hcell
    by (vm_compute; eauto).
  assert (NoDup [positions sample; velocities sample; colors sample;
                 sizes sample; lifetimes sample]) as Hnd
    by (apply (bool_decide_unpack _); vm_compute; reflexivity).
  split; [exact Hcell|]. split; [reflexivity|].
  split; [exact Ht|]. split; [exact Hf|]. split; [exact Hp|].
  split; [exact Hin|]. split; [reflexivity|].
  split.
  { apply Hl; try (vm_compute; congruence); try exact Hcell. vm_compute. lia. }
  split; [exact Hnd|]. split; [reflexivity|].
  destruct (Hc Hnd 1%nat ltac:(vm_compute; lia))
    as (_ & _ & _ & _ & Hv & _ & _ & _ & Hcol & Hsz & _).
  split; [etrans; [exact Hv | reflexivity]|].
  split; [etrans; [exact Hsz | reflexivity]|].
  split; [etrans; [exact Hcol | reflexivity]|].
  rewrite Hfree; [reflexivity|].
  intros i Hi [[Ha _]|[Ha _]]; vm_compute in Ha; intuition congruence.
Defined.

End ParticleFacts.

(** ** Interpolation helpers *)

Module AnimationFacts.
Import JS FloatFacts FloatOrder Animations.

Lemma Math_max_spec a c :
  is_nan a = false -> is_nan c = false ->
  (Math_max a c = a \/ Math_max a c = c)
  /\ (a <=? Math_max a c) = true
  /\ (c <=? Math_max a c) = true.
Proof.
  intros Ha Hc. unfold Math_max. rewrite Ha, Hc. simpl.
  destruct (a <? c) eqn:Hac.
  { split; [now right|]. split; [now apply ltb_leb | now apply leb_refl]. }
  destruct (c <? a) eqn:Hca.
  { split; [now left|]. split; [now apply leb_refl | now apply ltb_leb]. }
  destruct (get_sign a).
  - split; [now right|]. split; [now apply not_ltb_leb | now apply leb_refl].
  - split; [now left|]. split; [now apply leb_refl | now apply not_ltb_leb].
Qed.

Lemma Math_max_not_nan a c :
  is_nan a = false -> is_nan c = false -> is_nan (Math_max a c) = false.
Proof.
  intros Ha Hc. destruct (Math_max_spec a c Ha Hc) as [[->| ->] _]; assumption.
Qed.

Lemma Math_max_between a c :
  (c <=? a) = true -> (Math_max a c =? a) = true.
Proof.
  intros H. destruct (leb_not_nan _ _ H) as [Hc Ha].
  unfold Math_max. rewrite Ha, Hc. simpl.
  rewrite (leb_not_ltb _ _ H).
  destruct (c <? a) eqn:Hca.
  { apply leb_antisym; now apply leb_refl. }
  destruct (get_sign a).
  - apply leb_antisym; [exact H | now apply not_ltb_leb].
  - apply leb_antisym; now apply leb_refl.
Qed.

Lemma Math_min_between a c :
  (a <=? c) = true -> (Math_min a c =? a) = true.
Proof.
  intros H. destruct (leb_not_nan _ _ H) as [Ha Hc].
  unfold Math_min. rewrite Ha, Hc. simpl.
  destruct (a <? c) eqn:Hac.
  { apply leb_antisym; now apply leb_refl. }
  rewrite (leb_not_ltb _ _ H).
  destruct (get_sign a).
  - apply leb_antisym; now apply leb_refl.
  - apply leb_antisym; [now apply not_ltb_leb | exact H].
Qed.

Lemma eqb_trans a c d :
  (a =? c) = true -> (c =? d) = true -> (a =? d) = true.
Proof.
  intros H1 H2. apply leb_antisym.
  - apply (leb_trans _ c); now apply eqb_leb.
  - rewrite eqb_sym in H1, H2. apply (leb_trans _ c); now apply eqb_leb.
Qed.

Lemma eqb_leb_l a c d :
  (a =? c) = true -> (c <=? d) = true -> (a <=? d) = true.
Proof. intros H1 H2. apply (leb_trans _ c); [now apply eqb_leb | easy]. Qed.

(** X1.  With bounds in order and no NaN among the three arguments,
    [clamp] returns one of its arguments, between [min] and [max], and a
    value already between the bounds is returned as it is (up to the sign
    of a zero). *)
Theorem clamp_stays_within_ordered_bounds (value min max : float) :
  is_nan value = false -> (min <=? max) = true ->
  (clamp value min max = value \/ clamp value min max = min
   \/ clamp value min max = max)
  /\ (min <=? clamp value min max) = true
  /\ (clamp value min max <=? max) = true
  /\ ((min <=? value) = true -> (value <=? max) = true ->
      (clamp value min max =? value) = true).
Proof.
  intros Hv Hle. destruct (leb_not_nan _ _ Hle) as [Hmin Hmax].
  unfold clamp.
  destruct (Math_max_spec value min Hv Hmin) as (Hm & Hm1 & Hm2).
  pose proof (Math_max_not_nan _ _ Hv Hmin) as Hmn.
  destruct (Math_min_spec (Math_max value min) max Hmn Hmax) as (Hc & Hc1 & Hc2).
  split; [|split; [|split]].
  - destruct Hc as [->| ->]; [destruct Hm as [->| ->]|]; auto.
  - destruct Hc as [->| ->]; assumption.
  - exact Hc2.
  - intros H1 H2.
    pose proof (Math_max_between _ _ H1) as E1.
    apply (eqb_trans _ (Math_max value min)); [|exact E1].
    apply Math_min_between. now apply (eqb_leb_l _ value).
Qed.

Lemma clamp_stays_within_ordered_bounds_witness :
  is_nan 7 = false /\ (0 <=? 1) = true /\ clamp 7 0 1 = 1
  /\ (clamp 0.25 0 1 =? 0.25) = true.
Proof.
  assert (is_nan 7 = false) as H1 by reflexivity.
  assert ((0 <=? 1) = true) as H2 by reflexivity.
  split; [exact H1|]. split; [exact H2|]. split; [reflexivity|].
  apply (clamp_stays_within_ordered_bounds 0.25 0 1); reflexivity.
Defined.

(** X2.  With the bounds the wrong way round ([max] below [min]), [clamp]
    returns [max] for every value that is not NaN. *)
Theorem clamp_with_inverted_bounds_returns_max (value min max : float) :
  is_nan value = false -> (max <? min) = true ->
  clamp value min max = max.
Proof.
  intros Hv Hlt. destruct (ltb_not_nan _ _ Hlt) as [Hmax Hmin].
  unfold clamp.
  destruct (Math_max_spec value min Hv Hmin) as (_ & _ & Hm2).
  pose proof (Math_max_not_nan _ _ Hv Hmin) as Hmn.
  pose proof (ltb_leb_trans _ _ _ Hlt Hm2) as H.
  unfold Math_min. rewrite Hmn, Hmax. simpl.
  rewrite H. rewrite (leb_not_ltb _ _ (ltb_leb _ _ H)). reflexivity.
Qed.

Lemma clamp_with_inverted_bounds_returns_max_witness :
  clamp 0.5 1 0 = 0 /\ clamp 5 1 0 = 0.
Proof.
  split; apply clamp_with_inverted_bounds_returns_max; reflexivity.
Defined.


(** X3.  [lerp(a, b, 0)] is [a] whenever [a] is finite and the difference
    [b - a] is (compared with [===]); when the difference overflows it
    is NaN.  Between equal end points [lerp] returns that end point for
    every finite [t]. *)
Theorem lerp_returns_start (a b t : float) :
  is_finite a = true ->
  (is_finite (b - a) = true -> (lerp a b 0 =? a) = true)
  /\ (is_finite (b - a) = false -> is_nan (lerp a b 0) = true)
  /\ (is_finite t = true -> (lerp a a t =? a) = true).
Proof.
  intros Ha. unfold lerp. split; [|split].
  - intros Hd. apply eqz_same; [assumption|].
    apply add_finite_zero; [assumption|].
    now apply mul_zero_r.
  - intros Hd. apply add_nan_r. now apply mul_not_finite_zero.
  - intros Ht. apply eqz_same; [assumption|].
    apply add_finite_zero; [assumption|].
    apply mul_zero_l; [assumption|].
    apply sub_eqz; [assumption | apply eqz_refl].
Qed.

Lemma lerp_returns_start_witness :
  is_finite 2.5 = true
  /\ (lerp 2.5 10 0 =? 2.5) = true
  /\ is_nan (lerp (-0x1.fffffffffffffp+1023) 0x1.fffffffffffffp+1023 0) = true
  /\ (lerp 2.5 2.5 0.3 =? 2.5) = true.
Proof.
  assert (is_finite 2.5 = true) as H by reflexivity.
  split; [exact H|].
  destruct (lerp_returns_start 2.5 10 0.3 H) as (H1 & _ & H3).
  destruct (lerp_returns_start (-0x1.fffffffffffffp+1023)
              0x1.fffffffffffffp+1023 0 eq_refl) as (_ & H2 & _).
  split; [exact (H1 eq_refl)|]. split; [exact (H2 eq_refl) | exact (H3 eq_refl)].
Defined.

(** X4.  [mapRange] sends [inMin] to [outMin] when the input range is not
    empty and nothing overflows; with an empty input range ([inMin ===
    inMax]) it returns no finite number, whatever the value and the output
    range. *)
Theorem mapRange_at_inMin_and_on_an_empty_range
    (value inMin inMax outMin outMax : float) :
  is_finite inMin = true -> is_finite inMax = true ->
  ((inMin =? inMax) = false ->
   is_finite (outMax - outMin) = true ->
   (mapRange inMin inMin inMax outMin outMax =? outMin) = true)
  /\ ((inMin =? inMax) = true ->
      is_finite (mapRange value inMin inMax outMin outMax) = false).
Proof.
  intros Hmin Hmax. unfold mapRange. split.
  - intros Hne Hout.
    destruct (sub_finite_inv _ _ Hout) as [_ Ho].
    rewrite eqb_sym in Hne.
    destruct (sub_nonzero inMax inMin Hmax (finite_not_nan _ Hmin) Hne)
      as [Hz Hn].
    apply eqz_same; [assumption|].
    apply add_zero_finite; [|assumption].
    apply div_zero; [|assumption|assumption].
    apply mul_zero_l; [assumption|].
    apply sub_eqz; [assumption | apply eqz_refl].
  - intros Heq. apply add_not_finite. apply div_by_zero_not_finite.
    rewrite eqb_sym in Heq.
    apply sub_eqz; [assumption | now apply eqb_eqz].
Qed.

Lemma mapRange_at_inMin_and_on_an_empty_range_witness :
  (mapRange 2 2 6 10 20 =? 10) = true
  /\ is_finite (mapRange 3 2 2 10 20) = false
  /\ is_nan (mapRange 2 2 2 10 20) = true.
Proof.
  destruct (mapRange_at_inMin_and_on_an_empty_range 3 2 6 10 20
              eq_refl eq_refl) as [H1 _].
  destruct (mapRange_at_inMin_and_on_an_empty_range 3 2 2 10 20
              eq_refl eq_refl) as [_ H2].
  split; [exact (H1 eq_refl eq_refl)|]. split; [exact (H2 eq_refl)|].
  reflexivity.
Defined.


Lemma Math_max_nonpos r :
  is_nan r = false -> (0 <? r) = false -> Math_max r 0 = 0.
Proof.
  intros Hn Hs. unfold Math_max. rewrite Hn. cbn [is_nan orb].
  change (is_nan 0) with false. cbn [orb]. rewrite Hs.
  destruct (r <? 0) eqn:Hlt; [reflexivity|].
  destruct (get_sign r) eqn:Hg; [reflexivity|].
  apply Prim2SF_inj. change (Prim2SF 0) with (S754_zero false).
  rewrite !ltb_spec in Hs, Hlt. unfold SFltb in Hs, Hlt.
  change (Prim2SF 0) with (S754_zero false) in Hs, Hlt. apply not_nan in Hn.
  destruct (Prim2SF r) as [[]|[]| |[] m e] eqn:E; cbn in Hs, Hlt |- *;
    try congruence.
  apply get_sign_neg_zero in E. congruence.
Qed.

(** X5.  Between edges in order whose difference does not overflow,
    [smoothstep] is exactly 0 at and below [edge0], and exactly 1 at
    [edge1]. *)
Theorem smoothstep_at_the_edges (edge0 edge1 x : float) :
  is_finite (edge1 - edge0) = true -> (edge0 <? edge1) = true ->
  ((x <=? edge0) = true -> smoothstep edge0 edge1 x = 0)
  /\ smoothstep edge0 edge1 edge1 = 1.
Proof.
  intros Hd Hlt. pose proof (sub_gtb _ _ Hlt) as Hpos.
  destruct (sub_finite_inv _ _ Hd) as [_ H0].
  unfold smoothstep, clamp. split.
  - intros Hx. destruct (leb_not_nan _ _ Hx) as [Hxn _].
    destruct (div_nonpos_pos (x - edge0) (edge1 - edge0)) as [Hq Hs];
      [now apply sub_not_nan | now apply sub_leb | assumption | assumption |].
    rewrite (Math_max_nonpos _ Hq Hs). reflexivity.
  - rewrite div_self by (assumption || now apply ltb_nonzero). reflexivity.
Qed.

Lemma smoothstep_at_the_edges_witness :
  smoothstep 2 4 1 = 0 /\ smoothstep 2 4 2 = 0 /\ smoothstep 2 4 4 = 1.
Proof.
  destruct (smoothstep_at_the_edges 2 4 1 eq_refl eq_refl) as [H1 H3].
  destruct (smoothstep_at_the_edges 2 4 2 eq_refl eq_refl) as [H2 _].
  split; [exact (H1 eq_refl)|]. split; [exact (H2 eq_refl) | exact H3].
Defined.

(** X6.  With both edges at the same finite number [smoothstep] is a
    step: 0 below the edge, 1 above it, and NaN at the edge itself. *)
Theorem smoothstep_with_equal_edges (e x : float) :
  is_finite e = true ->
  ((x <? e) = true -> smoothstep e e x = 0)
  /\ ((e <? x) = true -> smoothstep e e x = 1)
  /\ ((x =? e) = true -> is_nan (smoothstep e e x) = true).
Proof.
  intros He. unfold smoothstep. rewrite (sub_self e He).
  split; [|split].
  - intros H. rewrite (div_neg_zero _ (sub_ltb _ _ H)). reflexivity.
  - intros H. rewrite (div_pos_zero _ (sub_gtb _ _ H)). reflexivity.
  - intros H.
    assert (is_finite x = true) as Hx
      by (apply (eqz_finite _ e); [now apply eqb_eqz | assumption]).
    rewrite (nan_eq ((x - e) / 0)); [reflexivity|].
    apply div_zero_zero; [|reflexivity].
    apply sub_eqz; [assumption | now apply eqb_eqz].
Qed.

Lemma smoothstep_with_equal_edges_witness :
  smoothstep 3 3 2 = 0 /\ smoothstep 3 3 5 = 1
  /\ is_nan (smoothstep 3 3 3) = true.
Proof.
  destruct (smoothstep_with_equal_edges 3 2 eq_refl) as (H1 & _ & _).
  destruct (smoothstep_with_equal_edges 3 5 eq_refl) as (_ & H2 & _).
  destruct (smoothstep_with_equal_edges 3 3 eq_refl) as (_ & _ & H3).
  split; [exact (H1 eq_refl)|]. split; [exact (H2 eq_refl) | exact (H3 eq_refl)].
Defined.

(** X7.  A list of one item has no finite stagger delay ([total - 1] is
    zero): the delay of index 0 is NaN, that of any other index NaN or an
    infinity.  With any other finite [total] the first item starts at
    once. *)
Theorem getStaggerDelay_of_one_item_and_of_the_first
    (index total totalDuration staggerRatio : float) :
  is_finite (getStaggerDelay index 1 totalDuration staggerRatio) = false
  /\ is_nan (getStaggerDelay 0 1 totalDuration staggerRatio) = true
  /\ (is_finite total = true -> (total =? 1) = false ->
      is_finite (totalDuration * staggerRatio) = true ->
      is_zero (getStaggerDelay 0 total totalDuration staggerRatio) = true).
Proof.
  unfold getStaggerDelay. split; [|split].
  - apply mul_not_finite. now apply div_by_zero_not_finite.
  - now apply mul_nan_l.
  - intros Ht Hne Hd.
    destruct (sub_nonzero total 1 Ht eq_refl Hne) as [Hz Hn].
    apply mul_zero_l; [assumption|].
    now apply div_zero.
Qed.

Lemma getStaggerDelay_of_one_item_and_of_the_first_witness :
  is_finite (getStaggerDelay 3 1 500 0.5) = false
  /\ is_nan (getStaggerDelay 0 1 500 0.5) = true
  /\ is_zero (getStaggerDelay 0 4 500 0.5) = true.
Proof.
  destruct (getStaggerDelay_of_one_item_and_of_the_first 3 4 500 0.5)
    as (H1 & H2 & H3).
  split; [exact H1|]. split; [exact H2|].
  exact (H3 eq_refl eq_refl eq_refl).
Defined.

End AnimationFacts.

(** ** A spring at rest *)

Module SpringRestFacts.
Import JS Spring FloatFacts FloatOrder SpringFacts.

Lemma run_target deltas : forall s, target (run s deltas) = target s.
Proof.
  induction deltas as [|d deltas IH]; intros s; [reflexivity|].
  unfold run in *. cbn [fold_left]. now rewrite IH.
Qed.

Lemma abs_zero_ltb w t :
  is_zero w = true -> (0 <? t) = true -> (Math_abs w <? t) = true.
Proof.
  unfold Math_abs. rewrite !ltb_spec, abs_spec. unfold SFltb.
  change (Prim2SF 0) with (S754_zero false). intros Hw. to_sf.
  now destruct (Prim2SF w), (Prim2SF t).
Qed.

(** X8.  [isAtRest] compares with a strict [<]: with a threshold that is
    zero, negative or NaN no spring is at rest, not even one that stands
    still on its target. *)
Theorem isAtRest_needs_a_positive_threshold (s : Spring.t) (threshold : float) :
  (0 <? threshold) = false -> isAtRest s threshold = false.
Proof.
  intros H. unfold isAtRest, Math_abs.
  destruct (abs (velocity s) <? threshold) eqn:E; [|reflexivity].
  apply abs_ltb in E. congruence.
Qed.

Lemma isAtRest_needs_a_positive_threshold_witness :
  isAtRest (new 5 default_config) 0 = false
  /\ isAtRest (new 5 default_config) 0.001 = true.
Proof.
  split; [|reflexivity].
  apply isAtRest_needs_a_positive_threshold. reflexivity.
Defined.

(** X9.  [reset(value)] leaves the spring at rest at [value]: with a
    finite [value], finite tension and friction and a mass that is a
    number other than zero, any number of [update] calls with delta times
    that are not negative leave the velocity at 0, the target at [value]
    and the position equal ([===]) to [value], and [isAtRest] answers true
    for every threshold above zero. *)
Theorem reset_leaves_the_spring_at_rest
    (s : Spring.t) (value threshold : float) (deltas : list float) :
  regular s -> is_finite value = true -> (0 <? threshold) = true ->
  Forall (fun d => (0 <=? d) = true) deltas ->
  let s' := run (reset s value) deltas in
  velocity s' = 0
  /\ target s' = value
  /\ (position s' =? value) = true
  /\ (getValue s' =? value) = true
  /\ isAtRest s' threshold = true.
Proof.
  intros Hr Hv Ht Hd. cbv zeta.
  assert (regular (reset s value)) as Hr' by exact Hr.
  assert (at_rest (reset s value)) as Ha
    by (split; [reflexivity|]; split; [exact Hv | apply eqz_refl]).
  assert (Forall (fun d => is_finite (seconds d) = true) deltas) as Hd'
    by (eapply Forall_impl; [exact Hd | apply seconds_finite]).
  destruct (run_at_rest deltas _ Hr' Ha Hd') as (_ & (V & F & E) & P).
  cbn [position reset] in P.
  pose proof (run_target deltas (reset s value)) as T. cbn [target reset] in T.
  assert ((position (run (reset s value) deltas) =? value) = true) as Hp
    by now apply eqz_same.
  split; [exact V|]. split; [exact T|]. split; [exact Hp|].
  split; [exact Hp|].
  unfold isAtRest. rewrite V. apply andb_true_intro. split.
  - now apply abs_zero_ltb.
  - apply abs_zero_ltb; [|exact Ht]. now apply sub_eqz.
Qed.

Lemma reset_leaves_the_spring_at_rest_witness :
  let s := fst (update (setTarget (new 0 default_config) 1) 16) in
  (position s =? 0) = false
  /\ isAtRest (run (reset s 3) [16; 0; 1000]) 0.001 = true
  /\ (position (run (reset s 3) [16; 0; 1000]) =? 3) = true.
Proof.
  cbv zeta. split; [reflexivity|].
  destruct (reset_leaves_the_spring_at_rest
              (fst (update (setTarget (new 0 default_config) 1) 16))
              3 0.001 [16; 0; 1000]) as (_ & _ & H3 & _ & H5).
  - repeat split; reflexivity.
  - reflexivity.
  - reflexivity.
  - repeat constructor.
  - split; [exact H5 | exact H3].
Defined.

End SpringRestFacts.

(** ** Expiry of ripples, and the pointer handlers *)

Module StoreExpiryFacts.
Import Store StoreFacts.

(** X10.  [clearExpiredRipples] keeps, in their order, exactly the ripples
    younger than 5000 ms on its clock.  Clearing twice is clearing once, and
    a clearing followed by a later one leaves what the later one alone
    would leave. *)
Theorem clearExpiredRipples_composes
    (now1 now2 : Z) (ripples : list Ripple) :
  (now1 <= now2)%Z ->
  clearExpiredRipples now2 (clearExpiredRipples now1 ripples)
  = clearExpiredRipples now2 ripples
  /\ clearExpiredRipples now1 (clearExpiredRipples now1 ripples)
     = clearExpiredRipples now1 ripples
  /\ clearExpiredRipples now1 ripples `sublist_of` ripples
  /\ (forall r, r ∈ clearExpiredRipples now1 ripples <->
                r ∈ ripples /\ (now1 - time r < 5000)%Z).
Proof.
  intros H. unfold clearExpiredRipples.
  split; [|split; [|split]].
  - apply list_filter_filter_l. intros r. cbn. lia.
  - apply list_filter_filter_l. intros r. cbn. lia.
  - apply sublist_filter.
  - intros r. rewrite list_elem_of_filter. tauto.
Qed.

Lemma clearExpiredRipples_composes_witness :
  clearExpiredRipples 7000
    (clearExpiredRipples 6000 [newRipple "a" 1500 (0, 0) 1;
                               newRipple "b" 2500 (0, 0) 1;
                               newRipple "c" 5000 (0, 0) 1])
  = [newRipple "b" 2500 (0, 0) 1; newRipple "c" 5000 (0, 0) 1]
  /\ clearExpiredRipples 6000 [newRipple "a" 1500 (0, 0) 1;
                               newRipple "b" 2500 (0, 0) 1;
                               newRipple "c" 5000 (0, 0) 1]
     = [newRipple "a" 1500 (0, 0) 1; newRipple "b" 2500 (0, 0) 1;
        newRipple "c" 5000 (0, 0) 1].
Proof.
  destruct (clearExpiredRipples_composes 6000 7000
              [newRipple "a" 1500 (0, 0) 1; newRipple "b" 2500 (0, 0) 1;
               newRipple "c" 5000 (0, 0) 1]) as (H & _); [lia|].
  split; [|reflexivity]. rewrite H. reflexivity.
Defined.

(** X11.  Five seconds after the last activity a clearing empties the
    collection: if every ripple held and every call made carries a clock
    reading at least 5000 ms before [now], then after those calls
    [clearExpiredRipples] at [now] leaves no ripple. *)
Theorem clearing_after_five_idle_seconds_empties
    (ripples : list Ripple) (ops : list op) (now : Z) :
  Forall (fun r => (time r + 5000 <= now)%Z) ripples ->
  Forall (fun o => (clock o + 5000 <= now)%Z) ops ->
  clearExpiredRipples now (run ripples ops) = [].
Proof.
  intros Hr Ho.
  assert (Forall (fun r => (time r + 5000 <= now)%Z) (run ripples ops)) as H.
  { apply Forall_forall. intros r Hin.
    pose proof (elem_of_sublist _ _ _ Hin (run_sublist ops ripples)) as Hin'.
    apply elem_of_app in Hin' as [Hin'|Hin'].
    - rewrite Forall_forall in Hr. auto.
    - pose proof (created_after (fun t => (t + 5000 <= now)%Z) ops Ho) as Hc.
      rewrite Forall_forall in Hc. auto. }
  unfold clearExpiredRipples.
  induction H as [|r l Hr' _ IH]; [reflexivity|].
  rewrite filter_cons_False by lia. exact IH.
Qed.

Lemma clearing_after_five_idle_seconds_empties_witness :
  clearExpiredRipples 6000
    (run [] [Add "a" 0 (0, 0) 1; ClearExpired 500; Add "b" 1000 (1, 1) 1])
  = [].
Proof.
  apply clearing_after_five_idle_seconds_empties.
  - constructor.
  - repeat constructor; cbn; lia.
Defined.

End StoreExpiryFacts.

Module MercuryHandlerFacts.
Import Store StoreFacts MercuryHandlers.

Lemma spaced_snoc ripples r :
  spaced ripples ->
  match last ripples with
  | None => True
  | Some r0 => (time r0 + 100 < time r)%Z
  end ->
  spaced (ripples ++ [r]).
Proof.
  intros Hs Hl i r1 r2 H1 H2.
  destruct (decide (S i < length ripples)%nat) as [Hi|Hi].
  - rewrite lookup_app_l in H1, H2 by lia. eauto.
  - assert (S i = length ripples) as Hi'.
    { apply lookup_lt_Some in H2. rewrite length_app in H2. cbn in H2. lia. }
    rewrite lookup_app_l in H1 by lia.
    rewrite lookup_app_r in H2 by lia.
    replace (S i - length ripples)%nat with 0%nat in H2 by lia.
    cbn in H2. inversion H2; subst r2.
    rewrite last_lookup in Hl.
    replace (Nat.pred (length ripples)) with i in Hl by lia.
    now rewrite H1 in Hl.
Qed.

Lemma spaced_drop n ripples : spaced ripples -> spaced (drop n ripples).
Proof.
  intros Hs i r1 r2 H1 H2. rewrite lookup_drop in H1, H2.
  replace (n + S i)%nat with (S (n + i)) in H2 by lia. eauto.
Qed.

Lemma handlePointerMove_spaced fluidEnabled ev ripples :
  spaced ripples -> (now ev <= stamp ev)%Z ->
  spaced (handlePointerMove fluidEnabled ripples ev ripples).
Proof.
  intros Hs Hc. unfold handlePointerMove.
  destruct (negb fluidEnabled); [exact Hs|].
  destruct (point ev) as [p|]; [|exact Hs].
  destruct (match last ripples with
            | Some r => (100 <? now ev - time r)%Z
            | None => true
            end) eqn:E; [|exact Hs].
  unfold addRipple, slice_last. apply spaced_drop, spaced_snoc; [exact Hs|].
  destruct (last ripples) as [r0|]; [|exact I].
  apply Z.ltb_lt in E. cbn. lia.
Qed.

(** X12.  Pointer moves are throttled: from a collection whose neighbours
    are more than 100 ms apart (the empty one, for instance), any
    sequence of pointer moves, each handled on the collection the store
    holds, leaves a collection whose neighbours are more than 100 ms
    apart, provided the clock does not run backwards between the two
    readings of one event.  A click is not throttled: it adds its ripple
    whatever the age of the last one. *)
Theorem pointer_moves_are_throttled
    (fluidEnabled : bool) (events : list Event) (ripples : list Ripple) :
  spaced ripples ->
  Forall (fun ev => (now ev <= stamp ev)%Z) events ->
  spaced (moves fluidEnabled events ripples)
  /\ (forall ev p,
        point ev = Some p ->
        handleClick true ev ripples
        = addRipple (rid ev) (stamp ev) (Particles.x p, Particles.z p)
            clickStrength ripples).
Proof.
  intros Hs He. split.
  - revert ripples Hs. induction He as [|ev events Hev _ IH]; intros ripples Hs;
      [exact Hs|].
    unfold moves in *. cbn [fold_left].
    apply IH. now apply handlePointerMove_spaced.
  - intros ev p Hp. unfold handleClick. now rewrite Hp.
Qed.

Lemma pointer_moves_are_throttled_witness :
  let at_ t := {| point := Some {| Particles.x := 1; Particles.y := 0;
                                   Particles.z := 2 |};
                  now := t; rid := "r"; stamp := t |} in
  time <$> moves true (at_ <$> [1000; 1050; 1100; 1101; 1300]%Z) []
  = [1000; 1101; 1300]%Z
  /\ spaced (moves true (at_ <$> [1000; 1050; 1100; 1101; 1300]%Z) []).
Proof.
  cbv zeta. split; [reflexivity|].
  apply pointer_moves_are_throttled.
  - intros i r1 r2 H. now rewrite lookup_nil in H.
  - cbn. repeat (constructor; [cbn; lia|]). constructor.
Defined.

End MercuryHandlerFacts.

(** ** Ripples on two clocks *)

Module RippleTimeFacts.
Import JS FloatFacts FloatOrder RoundingFacts.
Import MercurySurface Shader MercuryFacts ShaderFacts.

Lemma active_elem_of now ripples r : r ∈ active now ripples -> r ∈ ripples.
Proof.
  unfold active. intros H. apply elem_of_reverse.
  eapply elem_of_sublist; [exact H|].
  etrans; [apply sublist_take | apply sublist_filter].
Qed.

Section Builtins.
Variables gl_sin gl_exp : float -> float.

(** X13.  A frame in which every ripple of the store is too weak (a
    strength that is not above 0.01 once rounded to binary32), not yet
    born on the clock of the shader (its time in seconds, rounded to
    binary32, is not below the rounded [uTime]) or 5 s old or older
    displaces nothing: the ripple sum is exactly 0 at every point.
    [uTime] is [state.clock.elapsedTime] while the time of a ripple is
    [Date.now() / 1000]: as long as the scene clock has not caught up with
    the time of day, no ripple of the store is drawn. *)
Theorem weak_unborn_and_old_ripples_add_nothing
    (elapsedTime : float) (now : Z) (ripples : list Store.Ripple)
    (u : Uniforms) (pos : Vector2) :
  well_formed u ->
  (forall r, r ∈ ripples ->
     (f32 0.01 <? f32 (Store.strength r)) = false
     \/ (f32 elapsedTime <=? f32 (of_Z (Store.time r) / 1000)) = true
     \/ (5 <=? sub32 (f32 elapsedTime) (f32 (of_Z (Store.time r) / 1000)))
        = true) ->
  rippleSum gl_sin gl_exp (useFrame elapsedTime now ripples u) pos = 0.
Proof.
  intros Hu Hr. rewrite useFrame_packed by exact Hu.
  apply rippleSum_all_skipped. apply Forall_forall. intros i Hi.
  apply elem_of_seq in Hi.
  destruct (active now ripples !! i) as [r|] eqn:E.
  - unfold skipped.
    destruct (packed_slot_live elapsedTime _ i r E) as (-> & -> & _); [lia|].
    cbn [uTime packed].
    destruct (Hr r) as [Hw|[Hb|Ho]].
    { apply (active_elem_of now). now apply list_elem_of_lookup_2 in E. }
    + now rewrite Hw.
    + apply orb_true_iff. right.
      unfold sub32, f32, seconds in *.
      now rewrite (fround_not_pos _ (sub_leb _ _ Hb)).
    + apply orb_true_iff. right. unfold seconds.
      rewrite (leb_not_ltb _ _ Ho). now rewrite andb_false_r.
  - apply packed_slot_free; [|lia]. now apply lookup_ge_None.
Qed.

End Builtins.

Lemma weak_unborn_and_old_ripples_add_nothing_witness :
  rippleSum (fun _ => 1) (fun _ => 1)
    (useFrame 12.5 1700000000000
       [Store.newRipple "a" 1699999999000 (0, 0) 1;
        Store.newRipple "b" 1700000000000 (1, 1) 0.01;
        Store.newRipple "c" 6000 (2, 1) 1] initial)
    {| v2x := 0; v2y := 0 |} = 0.
Proof.
  apply weak_unborn_and_old_ripples_add_nothing; [apply initial_well_formed|].
  intros r Hr. repeat (apply elem_of_cons in Hr as [->|Hr]).
  - right. left. vm_compute. reflexivity.
  - left. vm_compute. reflexivity.
  - right. right. vm_compute. reflexivity.
  - now apply elem_of_nil in Hr.
Defined.

End RippleTimeFacts.

(** ** A step of the particle simulation *)

Module ParticleStepFacts.
Import JS FloatFacts FloatOrder Particles ParticleInit ParticleFacts.
Import ParticleEffects.

(** *** How [quiet], [keeps] and [yields] compose *)

Lemma ret_quiet {A} (a : A) : quiet (mret a).
Proof. intros w. split; [apply in_place_refl | reflexivity]. Qed.

Lemma bind_quiet {A B} (m : M A) (f : A -> M B) :
  quiet m -> (forall a, quiet (f a)) -> quiet (m ≫= f).
Proof.
  intros Hm Hf w. unfold mbind, M_bind.
  destruct (Hm w) as [H1 R1]. destruct (m w) as [a w1]. cbn [snd] in *.
  destruct (Hf a w1) as [H2 R2]. split.
  - now apply (in_place_trans _ w1).
  - congruence.
Qed.

Lemma load_quiet a i : quiet (load a i).
Proof. intros w. split; [apply in_place_refl | reflexivity]. Qed.

Lemma store_quiet a i v : quiet (store a i v).
Proof. intros w. split; [apply store_in_place | reflexivity]. Qed.

Lemma ret_keeps {A} c j (a : A) : keeps c j (mret a).
Proof. now intros w. Qed.

Lemma bind_keeps {A B} c j (m : M A) (f : A -> M B) :
  keeps c j m -> (forall a, keeps c j (f a)) -> keeps c j (m ≫= f).
Proof.
  intros Hm Hf w. unfold mbind, M_bind.
  pose proof (Hm w) as H1. destruct (m w) as [a w1]. cbn [snd] in *.
  now rewrite (Hf a w1).
Qed.

Lemma load_keeps c j a i : keeps c j (load a i).
Proof. now intros w. Qed.

Lemma store_keeps c j a i v : a <> c \/ i <> j -> keeps c j (store a i v).
Proof. intros H w. now apply cell_store_ne. Qed.

Lemma ret_yields {A} (P : A -> Prop) (a : A) : P a -> yields P (mret a).
Proof. now intros H w. Qed.

Lemma bind_yields {A B} (P : B -> Prop) (m : M A) (f : A -> M B) :
  (forall a, yields P (f a)) -> yields P (m ≫= f).
Proof.
  intros Hf w. unfold mbind, M_bind. destruct (m w) as [a w1]. apply Hf.
Qed.

Section Loops.
Context {S : Type}.
Implicit Types (body : S -> nat -> M S).

Lemma for_fold_quiet l body :
  (forall s i, quiet (body s i)) -> forall s, quiet (for_fold l body s).
Proof.
  intros Hb. induction l as [|i l IH]; intros s; cbn [for_fold].
  - apply ret_quiet.
  - apply bind_quiet; [apply Hb | apply IH].
Qed.

(** A cell that no round writes is kept by the loop; [Inv] is what the
    rounds know of the loop state. *)
Lemma for_fold_keeps (Inv : S -> Prop) c j l body :
  (forall s i, Inv s -> yields Inv (body s i)) ->
  (forall s i, i ∈ l -> Inv s -> keeps c j (body s i)) ->
  forall s, Inv s -> keeps c j (for_fold l body s).
Proof.
  intros Hinv. induction l as [|i l IH]; intros Hb s Hs w; [reflexivity|].
  rewrite for_fold_cons, IH.
  - apply Hb; [now left | exact Hs].
  - intros s' k Hk. apply Hb. now right.
  - now apply Hinv.
Qed.

End Loops.

(** Walks down a computation written with [≫=], one step at a time. *)
Ltac walk bind_lemma ret_lemma load_lemma store_lemma :=
  cbv beta zeta;
  repeat lazymatch goal with
  | |- _ (mbind _ _) => apply bind_lemma; [|intros ?; cbv beta zeta]
  | |- _ (mret _) => apply ret_lemma
  | |- _ (load _ _) => apply load_lemma
  | |- _ (store _ _ _) => apply store_lemma
  | |- _ (match ?x with Some _ => _ | None => _ end) => destruct x
  | |- _ (if ?b then _ else _) => destruct b
  end.

Section Environment.
Variable Math_floor : float -> float.
Variable to_string : float -> string.

#[local] Abbreviation update_particle :=
  (Particles.update_particle Math_floor to_string).
#[local] Abbreviation update := (Particles.update Math_floor to_string).

Lemma update_particle_quiet dt s i : quiet (update_particle dt s i).
Proof.
  unfold Particles.update_particle.
  walk (@bind_quiet) (@ret_quiet) load_quiet store_quiet.
Qed.

Lemma update_particle_keeps dt s i a j :
  ~ advances s i a j -> keeps a j (update_particle dt s i).
Proof.
  intros H. unfold Particles.update_particle.
  walk (@bind_keeps) (@ret_keeps) load_keeps store_keeps;
    match goal with
    | |- ?c <> a \/ ?k <> j =>
        destruct (decide (c = a)) as [Heq|Hne];
        [right; intros Hk; apply H; unfold advances; rewrite <- Heq, <- Hk;
         split; [tauto | lia]
        | left; exact Hne]
    end.
Qed.

Lemma update_particle_grid dt s i :
  yields (fun s' => exists k,
            s' = with_grid s (<[k := default [] (grid s !! k) ++ [i]]> (grid s)))
         (update_particle dt s i).
Proof.
  unfold Particles.update_particle. cbv beta zeta.
  repeat (apply bind_yields; intros ?).
  apply ret_yields. eauto.
Qed.

Lemma load_value a i w : (load a i w).1 = default nan (cell w a i).
Proof. reflexivity. Qed.

Lemma load_world a i w : (load a i w).2 = w.
Proof. reflexivity. Qed.

(** Runs the body of [update_particle] step by step: every read leaves
    its value, every store what it did to the cells, as hypotheses. *)
Ltac run_update_particle :=
  cbv beta iota;
  repeat match goal with
  | |- context [load ?a ?k ?w0] =>
      let V := fresh "V" in let W := fresh "W" in
      let v := fresh "v" in let w1 := fresh "w" in
      pose proof (load_value a k w0) as V;
      pose proof (load_world a k w0) as W;
      destruct (load a k w0) as [v w1]; cbn [fst snd] in V, W; subst v w1
  | |- context [store ?a ?k ?v ?w0] =>
      let E := fresh "E" in let F := fresh "F" in
      pose proof (cell_store_eq a k v w0) as E;
      pose proof (store_cells a k v w0) as F;
      destruct (store a k v w0) as [? ?]; cbn [snd] in E, F
  end;
  cbn [fst snd].

Ltac read_cells side :=
  repeat match goal with
  | E : cell ?w1 ?a ?j = _ <$> cell _ ?a ?j |- context [cell ?w1 ?a ?j] =>
      rewrite E
  | F : forall c j, _ \/ _ -> cell ?w1 c j = cell _ c j
    |- context [cell ?w1 ?a ?j] =>
      rewrite (F a j) by side
  end.

(** The cells of particle [i] after [update_particle dt s i]. *)
Lemma update_particle_cells dt s i w :
  positions s <> velocities s ->
  stepped s dt w (update_particle dt s i w).2 i.
Proof.
  intros Hpv. unfold stepped, put, force_on, read3, read. cbn [x y z].
  unfold Particles.update_particle, mbind, M_bind, mret, M_ret.
  destruct (targetPositions s) as [tp|];
    [destruct (0 <? cfg_magneticStrength (config s))|];
    run_update_particle;
    repeat split;
    read_cells ltac:(idtac; first [ right; lia | left; congruence ]);
    reflexivity.
Qed.

Lemma update_particle_state dt s g i w :
  exists g', (update_particle dt (with_grid s g) i w).1 = with_grid s g'.
Proof.
  destruct (update_particle_grid dt (with_grid s g) i w) as [k Hk].
  rewrite Hk. now eexists.
Qed.

(** The cells of a particle keep what its round left in them when the
    rounds before and after touch none of them. *)
Lemma stepped_shift s dt w0 w w1 w' i :
  (forall a j, (i * 3 <= j < i * 3 + 3)%nat -> cell w a j = cell w0 a j) ->
  (forall a j, (i * 3 <= j < i * 3 + 3)%nat -> cell w' a j = cell w1 a j) ->
  stepped s dt w w1 i -> stepped s dt w0 w' i.
Proof.
  intros Hb Ha. unfold stepped, put, force_on, read3, read.
  destruct (targetPositions s);
    rewrite !Ha by lia; rewrite <- !Hb by lia; trivial.
Qed.

Lemma other_round_keeps dt s g i k a j :
  i <> k -> (i * 3 <= j < i * 3 + 3)%nat ->
  keeps a j (update_particle dt (with_grid s g) k).
Proof.
  intros Hik Hj. apply update_particle_keeps. unfold advances. lia.
Qed.

Lemma later_rounds_keep dt s g l i a j :
  i ∉ l -> (i * 3 <= j < i * 3 + 3)%nat ->
  keeps a j (for_fold l (update_particle dt) (with_grid s g)).
Proof.
  intros Hi Hj.
  apply (for_fold_keeps (fun st => exists g', st = with_grid s g')).
  - intros st k [g' ->] w. exact (update_particle_state dt s g' k w).
  - intros st k Hk [g' ->]. apply (other_round_keeps dt s g' i k); [|exact Hj].
    intros ->. contradiction.
  - now eexists.
Qed.

Lemma update_loop_cells s dt : forall n a g w,
  positions s <> velocities s ->
  forall i, (a <= i < a + n)%nat ->
  stepped s dt w
    (for_fold (seq a n) (update_particle dt) (with_grid s g) w).2 i.
Proof.
  induction n as [|n IH]; intros a g w Hpv i Hi; [lia|].
  cbn [seq]. rewrite for_fold_cons.
  destruct (update_particle_state dt s g a w) as [g' ->].
  destruct (decide (i = a)) as [->|Hne].
  - apply (stepped_shift s dt w w (update_particle dt (with_grid s g) a w).2).
    + reflexivity.
    + intros c j Hj.
      apply (later_rounds_keep dt s g' (seq (S a) n) a c j); [|exact Hj].
      rewrite elem_of_seq. lia.
    + exact (update_particle_cells dt (with_grid s g) a w Hpv).
  - apply (stepped_shift s dt w (update_particle dt (with_grid s g) a w).2
             (for_fold (seq (S a) n) (update_particle dt) (with_grid s g')
                (update_particle dt (with_grid s g) a w).2).2).
    + intros c j Hj. now apply (other_round_keeps dt s g i a c j).
    + reflexivity.
    + apply IH; [exact Hpv | lia].
Qed.

Lemma update_loop_frame s dt l a j : forall g w,
  (forall i, i ∈ l -> ~ advances s i a j) ->
  cell (for_fold l (update_particle dt) (with_grid s g) w).2 a j = cell w a j.
Proof.
  intros g w H.
  apply (for_fold_keeps (fun st => exists g', st = with_grid s g')).
  - intros st k [g' ->] w0. exact (update_particle_state dt s g' k w0).
  - intros st k Hk [g' ->]. apply update_particle_keeps. now apply H.
  - now eexists.
Qed.

(** *** The grid *)

Lemma members_insert (g : gmap string (list nat)) k i :
  members (<[k := default [] (g !! k) ++ [i]]> g) ≡ₚ members g ++ [i].
Proof.
  unfold members. destruct (g !! k) as [b|] eqn:E; cbn [default from_option].
  - rewrite <- (insert_delete_eq g).
    rewrite map_to_list_insert by apply lookup_delete_eq.
    rewrite <- (map_to_list_delete g k b E). cbn.
    rewrite <- !app_assoc. apply Permutation_app_head, Permutation_app_comm.
  - rewrite map_to_list_insert by exact E. cbn. apply Permutation_cons_append.
Qed.

Lemma update_loop_grid s dt l : forall done g w,
  members g ≡ₚ done ->
  exists g',
    (for_fold l (update_particle dt) (with_grid s g) w).1 = with_grid s g'
    /\ members g' ≡ₚ done ++ l.
Proof.
  induction l as [|i l IH]; intros done g w Hg.
  - exists g. rewrite app_nil_r. now split.
  - rewrite for_fold_cons.
    destruct (update_particle_grid dt (with_grid s g) i w) as [k ->].
    cbn [grid with_grid].
    change (with_grid (with_grid s g) ?G) with (with_grid s G).
    replace (done ++ i :: l) with ((done ++ [i]) ++ l)
      by (now rewrite <- app_assoc).
    apply IH. rewrite members_insert. now rewrite Hg.
Qed.

Lemma update_loop_quiet dt l : forall st,
  quiet (for_fold l (update_particle dt) st).
Proof. apply for_fold_quiet. intros; apply update_particle_quiet. Qed.

Lemma Math_min_step deltaTime :
  (0.033 <=? deltaTime) = true -> Math_min deltaTime 0.033 = 0.033.
Proof.
  intros H. destruct (leb_not_nan _ _ H) as [_ Hn].
  unfold Math_min. rewrite Hn. cbn [orb]. change (is_nan 0.033) with false.
  cbv iota. rewrite (leb_not_ltb _ _ H).
  destruct (0.033 <? deltaTime); [reflexivity|].
  assert (get_sign deltaTime = false) as ->; [|reflexivity].
  unfold get_sign. destruct (is_zero deltaTime) eqn:Hz.
  - apply is_zero_spec in Hz. rewrite leb_spec in H.
    destruct (Prim2SF deltaTime) as [[]| | |]; try contradiction;
      discriminate.
  - destruct (deltaTime <? zero) eqn:Hlt; [|reflexivity].
    pose proof (leb_ltb_trans _ _ _ H Hlt) as Hc. vm_compute in Hc.
    discriminate.
Qed.

(** X14.  A call of [update] writes the cells of the first [count]
    particles in the position and velocity arrays and nothing else: every
    other cell of every array, the colours, sizes, lifetimes and target
    positions among them, is as it was; no array is created, dropped or
    resized, nothing is logged and no random number is drawn.  The system
    comes back with its arrays (those [getPositions], [getColors] and
    [getSizes] hand out), its count, configuration, targets and force
    fields; only the grid is new, and it holds every particle index
    below [count] exactly once.  A delta time of 0.033 or more is taken
    as 0.033. *)
Theorem update_writes_positions_and_velocities_only
    (s : t) (deltaTime : float) (w : World) :
  let s' := (update s deltaTime w).1 in
  let w' := (update s deltaTime w).2 in
  s' = with_grid s (grid s')
  /\ getPositions s' = getPositions s
  /\ getColors s' = getColors s
  /\ getSizes s' = getSizes s
  /\ getCount s' = getCount s
  /\ in_place w w'
  /\ randoms w' = randoms w
  /\ (forall a j, (forall i, (i < count s)%nat -> ~ advances s i a j) ->
      cell w' a j = cell w a j)
  /\ members (grid s') ≡ₚ seq 0 (count s)
  /\ ((0.033 <=? deltaTime) = true ->
      update s deltaTime w = update s 0.033 w).
Proof.
  cbv zeta. unfold Particles.update. cbn [count with_grid].
  destruct (update_loop_grid s (Math_min deltaTime 0.033) (seq 0 (count s))
              [] ∅ w) as (g' & Hs & Hg); [reflexivity|].
  destruct (update_loop_quiet (Math_min deltaTime 0.033) (seq 0 (count s))
              (with_grid s ∅) w) as [Hin Hr].
  rewrite Hs. cbn [grid with_grid].
  split; [reflexivity|]. do 4 (split; [reflexivity|]).
  split; [exact Hin|]. split; [exact Hr|]. split; [|split].
  - intros a j H. apply update_loop_frame. intros i Hi.
    apply elem_of_seq in Hi. apply H. lia.
  - exact Hg.
  - intros H. rewrite (Math_min_step _ H).
    now rewrite (Math_min_step 0.033 eq_refl).
Qed.

(** X15.  What [update] leaves in the arrays, when positions and
    velocities are two arrays: for every particle [i] below [count], with
    [p] and [v] the position and velocity read before the call ([a[j]]
    being NaN where the array has no cell [j]), [dt] the smaller of the
    delta time and 0.033, and [f] the force (gravity, then the pull of the
    target of the particle when targets are set and the magnetic strength
    is above zero, then every force field in turn), each velocity cell
    holds [v + (f - v * drag) * dt] rounded to binary32, and each position
    cell holds [p + v' * dt] rounded to binary32, [v'] being the velocity
    its cell holds after the call, the rounded one.  Every particle is
    advanced from what the arrays held before the call: no particle sees
    the move of another. *)
Theorem update_steps_every_particle
    (s : t) (deltaTime : float) (w : World) (i : nat) :
  positions s <> velocities s -> (i < count s)%nat ->
  let w' := (update s deltaTime w).2 in
  let dt := Math_min deltaTime 0.033 in
  let rd u a j := default nan (cell u a j) in
  let at_ u a := {| x := rd u a (i * 3)%nat; y := rd u a (i * 3 + 1)%nat;
                    z := rd u a (i * 3 + 2)%nat |} in
  let p := at_ w (positions s) in
  let v := at_ w (velocities s) in
  let gravity := {| x := 0 + x (cfg_gravity (config s));
                    y := 0 + y (cfg_gravity (config s));
                    z := 0 + z (cfg_gravity (config s)) |} in
  let pulled :=
    match targetPositions s with
    | Some tp =>
        if 0 <? cfg_magneticStrength (config s) then
          magnetic_step (cfg_magneticStrength (config s)) p (at_ w tp) gravity
        else gravity
    | None => gravity
    end in
  let f := fold_left (field_step p) (forceFields s) pulled in
  let drag := cfg_dragCoefficient (config s) in
  let v' := at_ w' (velocities s) in
  let written a j val :=
    cell w' a j = (fun _ => JS.fround val) <$> cell w a j in
  written (velocities s) (i * 3)%nat (x v + (x f - x v * drag) * dt)
  /\ written (velocities s) (i * 3 + 1)%nat (y v + (y f - y v * drag) * dt)
  /\ written (velocities s) (i * 3 + 2)%nat (z v + (z f - z v * drag) * dt)
  /\ written (positions s) (i * 3)%nat (x p + x v' * dt)
  /\ written (positions s) (i * 3 + 1)%nat (y p + y v' * dt)
  /\ written (positions s) (i * 3 + 2)%nat (z p + z v' * dt).
Proof.
  intros Hpv Hi.
  exact (update_loop_cells s (Math_min deltaTime 0.033) (count s) 0 ∅ w Hpv i
           ltac:(lia)).
Qed.

End Environment.

Lemma update_writes_positions_and_velocities_only_witness :
  let r d := Particles.update (fun a => a) (fun _ => "0") sample d
               sample_world in
  cell (r 0.016).2 (colors sample) 3 = Some 0.25
  /\ cell (r 0.016).2 (positions sample) 6 = None
  /\ randoms (r 0.016).2 = 0%nat
  /\ targetPositions (r 0.016).1 = Some 5%nat
  /\ members (grid (r 0.016).1) ≡ₚ [0; 1]%nat
  /\ r 1 = r 0.033.
Proof.
  cbv zeta.
  destruct (update_writes_positions_and_velocities_only (fun a => a)
              (fun _ => "0") sample 0.016 sample_world)
    as (Hs & _ & _ & _ & _ & _ & Hr & Hfr & Hg & _).
  destruct (update_writes_positions_and_velocities_only (fun a => a)
              (fun _ => "0") sample 1 sample_world)
    as (_ & _ & _ & _ & _ & _ & _ & _ & _ & Hd).
  split.
  { rewrite Hfr; [reflexivity|].
    intros i Hi [[Ha|Ha] _]; vm_compute in Ha; congruence. }
  split.
  { rewrite Hfr; [reflexivity|].
    intros i Hi [_ Hj]. vm_compute in Hi. lia. }
  split; [exact Hr|]. split; [now rewrite Hs|].
  split; [exact Hg | exact (Hd eq_refl)].
Defined.

Lemma update_steps_every_particle_witness :
  let r := Particles.update (fun a => a) (fun _ => "0") sample 0.016
             sample_world in
  positions sample <> velocities sample
  /\ (1 < count sample)%nat
  /\ cell r.2 (velocities sample) 5
     = Some (fround (0.25 + (0 - 0.25 * 0.1) * 0.016))
  /\ cell r.2 (positions sample) 5
     = Some (fround (0.25 + fround (0.25 + (0 - 0.25 * 0.1) * 0.016) * 0.016))
  /\ cell r.2 (velocities sample) 3
     = Some (fround (0.25 + (x (force_on sample sample_world 1) - 0.25 * 0.1)
                            * 0.016)).
Proof.
  cbv zeta.
  assert (positions sample <> velocities sample) as Hpv
    by (vm_compute; congruence).
  assert (1 < count sample)%nat as Hi by (vm_compute; lia).
  destruct (update_steps_every_particle (fun a => a) (fun _ => "0") sample
              0.016 sample_world 1 Hpv Hi) as (Hvx & _ & Hvz & _ & _ & Hpz).
  split; [exact Hpv|]. split; [exact Hi|].
  split; [etrans; [exact Hvz | vm_compute; reflexivity]|].
  split; [etrans; [exact Hpz | vm_compute; reflexivity]|].
  etrans; [exact Hvx | vm_compute; reflexivity].
Defined.

End ParticleStepFacts.

(** ** The arrays of the particle system *)

Module ParticleArrayFacts.
Import JS FloatFacts Particles ParticleInit ParticleFacts ParticleEffects.

(** [new Float32Array(n)] *)
Lemma alloc_spec n w :
  heap w !! (alloc n w).1 = None
  /\ heap (alloc n w).2 = <[(alloc n w).1 := replicate n 0]> (heap w)
  /\ randoms (alloc n w).2 = randoms w
  /\ console (alloc n w).2 = console w.
Proof.
  cbn. split; [|auto]. apply not_elem_of_dom, is_fresh.
Qed.

Lemma store_insert a j v l h r c :
  store a j v {| heap := <[a := l]> h; randoms := r; console := c |}
  = (tt, {| heap := <[a := <[j := fround v]> l]> h; randoms := r;
            console := c |}).
Proof. unfold store. cbn. now rewrite alter_insert_eq. Qed.

Section Environment.
Variable random_value : nat -> float.

#[local] Abbreviation splash_particle :=
  (ParticleEffects.splash_particle random_value).
#[local] Abbreviation createSplash :=
  (ParticleEffects.createSplash random_value).

Lemma splash_particle_run a pt k pre n h r c :
  length pre = (k * 3)%nat ->
  (splash_particle a pt k
     {| heap := <[a := pre ++ replicate (S n * 3) 0]> h;
        randoms := r; console := c |}).2
  = {| heap := <[a := (pre ++ at_point pt) ++ replicate (n * 3) 0]> h;
       randoms := S (S r); console := c |}.
Proof.
  intros Hl. unfold ParticleEffects.splash_particle, mbind, M_bind, random.
  cbn [fst snd heap randoms console].
  rewrite !store_insert. cbn [snd].
  change (replicate (S n * 3) 0) with (0 :: 0 :: 0 :: replicate (n * 3) 0).
  rewrite !insert_app_r_alt by (rewrite ?length_insert; lia).
  rewrite ?length_insert, !Hl.
  replace (k * 3 - k * 3)%nat with 0%nat by lia.
  replace (k * 3 + 1 - k * 3)%nat with 1%nat by lia.
  replace (k * 3 + 2 - k * 3)%nat with 2%nat by lia.
  cbn [insert list_insert]. unfold at_point.
  now rewrite <- app_assoc.
Qed.

Lemma splash_loop a pt h c : forall n k pre r u,
  length pre = (k * 3)%nat ->
  (for_fold (seq k n) (fun _ i => splash_particle a pt i) u
     {| heap := <[a := pre ++ replicate (n * 3) 0]> h;
        randoms := r; console := c |}).2
  = {| heap := <[a := pre ++ mjoin (replicate n (at_point pt))]> h;
       randoms := (r + 2 * n)%nat; console := c |}.
Proof.
  induction n as [|n IH]; intros k pre r u Hl.
  - cbn. now rewrite Nat.add_0_r.
  - cbn [seq]. rewrite for_fold_cons, splash_particle_run by exact Hl.
    rewrite (IH (S k) (pre ++ at_point pt) (S (S r)))
      by (rewrite length_app, Hl; cbn; lia).
    cbn [replicate mjoin list_join]. rewrite <- !app_assoc.
    f_equal. lia.
Qed.

(** X16.  [createSplash] returns a new array of [count * 3] cells, one
    the world did not hold, in which every particle lies at the impact
    point, its coordinates rounded to binary32: no direction and no force
    goes into it.  The arrays of the system and every other array are
    untouched, the console too, and two random numbers are used up per
    particle.  The force plays no part, nor does the system the method is
    called on. *)
Theorem createSplash_leaves_every_particle_at_the_impact_point
    (s : t) (impactPoint : Vector3) (count : nat) (force : float)
    (w : World) :
  let a := (createSplash s impactPoint count force w).1 in
  let w' := (createSplash s impactPoint count force w).2 in
  heap w !! a = None
  /\ heap w' = <[a := mjoin (replicate count (at_point impactPoint))]> (heap w)
  /\ randoms w' = (randoms w + 2 * count)%nat
  /\ console w' = console w
  /\ (forall s' force',
        createSplash s' impactPoint count force' w
        = createSplash s impactPoint count force w).
Proof.
  cbv zeta. unfold ParticleEffects.createSplash, mbind, M_bind.
  destruct (alloc_spec (count * 3) w) as (Hf & Hh & Hr & Hc).
  destruct (alloc (count * 3) w) as [a w0]. cbn [fst snd] in *.
  destruct w0 as [h0 r0 c0]. cbn [heap randoms console] in *. subst h0 r0 c0.
  pose proof (splash_loop a impactPoint (heap w) (console w) count 0 []
                (randoms w) tt eq_refl) as H.
  cbn [app] in H. unfold for_each.
  destruct (for_fold _ _ _ _) as [u w1]. cbn [snd] in H. subst w1.
  cbn [fst snd mret M_ret heap randoms console].
  repeat split; assumption.
Qed.

End Environment.

Lemma createSplash_leaves_every_particle_at_the_impact_point_witness :
  let r := ParticleEffects.createSplash (fun _ => 0.5) sample
             {| x := 1; y := 2; z := 0.1 |} 2 5 sample_world in
  heap sample_world !! r.1 = None
  /\ heap r.2 !! r.1 = Some [1; 2; fround 0.1; 1; 2; fround 0.1]
  /\ randoms r.2 = 4%nat.
Proof.
  cbv zeta.
  destruct (createSplash_leaves_every_particle_at_the_impact_point
              (fun _ => 0.5) sample {| x := 1; y := 2; z := 0.1 |} 2 5
              sample_world) as (Hf & Hh & Hr & _).
  split; [exact Hf|]. split; [|exact Hr].
  rewrite Hh. now rewrite lookup_insert_eq.
Defined.

(** *** The constructor *)

Lemma store_heap_ne a j v w c :
  a <> c -> heap (store a j v w).2 !! c = heap w !! c.
Proof. intros H. cbn. now apply lookup_alter_ne. Qed.

Lemma zero_cell w a n j :
  heap w !! a = Some (replicate n 0) -> (j < n)%nat -> cell w a j = Some 0.
Proof.
  intros H Hj. unfold cell. rewrite H. cbn. now apply lookup_replicate_2.
Qed.

Section Constructor.
Variable random_value : nat -> float.
Variables Math_sin Math_cos Math_acos Math_cbrt : float -> float.

#[local] Abbreviation init_particle :=
  (Particles.init_particle random_value Math_sin Math_cos Math_acos Math_cbrt).
#[local] Abbreviation initializeParticles :=
  (Particles.initializeParticles random_value Math_sin Math_cos Math_acos
                                 Math_cbrt).
#[local] Abbreviation new :=
  (Particles.new random_value Math_sin Math_cos Math_acos Math_cbrt).

Lemma init_particle_heap s i w c :
  c ∉ [positions s; velocities s; colors s; sizes s; lifetimes s] ->
  heap (init_particle s i w).2 !! c = heap w !! c.
Proof.
  intros Hc.
  repeat match goal with
         | H : _ ∉ _ :: _ |- _ => apply not_elem_of_cons in H as [? H]
         end.
  unfold Particles.init_particle, mbind, M_bind.
  repeat match goal with
  | |- context [random random_value ?w0] =>
      let E := fresh "E" in
      assert (heap (random random_value w0).2 !! c = heap w0 !! c) as E
        by reflexivity;
      destruct (random random_value w0) as [? ?]; cbn [snd] in E
  | |- context [store ?a ?k ?v ?w0] =>
      let E := fresh "E" in
      assert (heap (store a k v w0).2 !! c = heap w0 !! c) as E
        by (apply store_heap_ne; congruence);
      destruct (store a k v w0) as [? ?]; cbn [snd] in E
  end.
  cbn [snd]. congruence.
Qed.

Lemma initializeParticles_heap s w c :
  c ∉ [positions s; velocities s; colors s; sizes s; lifetimes s] ->
  heap (initializeParticles s w).2 !! c = heap w !! c.
Proof.
  intros Hc. unfold Particles.initializeParticles, for_each.
  generalize (seq 0 (count s)) tt. intros l. revert w.
  induction l as [|i l IH]; intros w u; [reflexivity|].
  rewrite for_fold_cons, IH. now apply init_particle_heap.
Qed.

(** X17.  The constructor makes five new arrays, different from one
    another and from every array the world held, of [count * 3] cells for
    the positions, velocities and colours and [count] cells for the sizes
    and lifetimes; the arrays the world held are untouched and nothing is
    logged.  The system starts with the count and the configuration given,
    no target, no force field, an empty grid of cell size 1.  Every
    particle [i] is initialized from ten random numbers of its own, those
    from number [10 * i] on after the ones drawn before: each cell holds,
    rounded to binary32, the value [initializeParticles] computes for it,
    and the lifetime is 1. *)
Theorem new_allocates_and_initializes (cfg : ParticleConfig) (w : World) :
  let s := (new cfg w).1 in
  let w' := (new cfg w).2 in
  let n := cfg_count cfg in
  let arrays := [positions s; velocities s; colors s; sizes s; lifetimes s] in
  count s = n /\ config s = cfg /\ targetPositions s = None
  /\ forceFields s = [] /\ gridSize s = 1 /\ grid s = ∅
  /\ NoDup arrays
  /\ Forall (fun a => heap w !! a = None) arrays
  /\ length <$> (heap w' !! positions s) = Some (n * 3)%nat
  /\ length <$> (heap w' !! velocities s) = Some (n * 3)%nat
  /\ length <$> (heap w' !! colors s) = Some (n * 3)%nat
  /\ length <$> (heap w' !! sizes s) = Some n
  /\ length <$> (heap w' !! lifetimes s) = Some n
  /\ (forall a, a ∉ arrays -> heap w' !! a = heap w !! a)
  /\ randoms w' = (randoms w + 10 * n)%nat
  /\ console w' = console w
  /\ (forall i, (i < n)%nat ->
      let rnd k := random_value (k + (10 * i + randoms w)) in
      let theta := rnd 0%nat * Math_PI * 2 in
      let phi := Math_acos (2 * rnd 1%nat - 1) in
      let radius := cfg_spread cfg * Math_cbrt (rnd 2%nat) in
      let colorVariation := 0.1 in
      let holds a j v := cell w' a j = Some (JS.fround v) in
      holds (positions s) (i * 3)%nat (radius * Math_sin phi * Math_cos theta)
      /\ holds (positions s) (i * 3 + 1)%nat
               (radius * Math_sin phi * Math_sin theta)
      /\ holds (positions s) (i * 3 + 2)%nat (radius * Math_cos phi)
      /\ holds (velocities s) (i * 3)%nat ((rnd 3%nat - 0.5) * 0.1)
      /\ holds (velocities s) (i * 3 + 1)%nat ((rnd 4%nat - 0.5) * 0.1)
      /\ holds (velocities s) (i * 3 + 2)%nat ((rnd 5%nat - 0.5) * 0.1)
      /\ holds (colors s) (i * 3)%nat
           (r (cfg_color cfg) + (rnd 6%nat - 0.5) * colorVariation)
      /\ holds (colors s) (i * 3 + 1)%nat
           (g (cfg_color cfg) + (rnd 7%nat - 0.5) * colorVariation)
      /\ holds (colors s) (i * 3 + 2)%nat
           (b (cfg_color cfg) + (rnd 8%nat - 0.5) * colorVariation)
      /\ holds (sizes s) i (cfg_size cfg * (0.5 + rnd 9%nat * 0.5))
      /\ holds (lifetimes s) i 1).
Proof.
  cbv zeta. unfold Particles.new, mbind, M_bind.
  repeat match goal with
  | |- context [alloc ?k ?w0] =>
      let H := fresh "A" in
      pose proof (alloc_spec k w0) as H;
      destruct (alloc k w0) as [? [? ? ?]];
      cbn [fst snd heap randoms console] in H;
      destruct H as (? & ? & ? & ?)
  end.
  subst.
  match goal with
  | |- context [initializeParticles ?s0 ?w0] =>
      pose proof (initializeParticles_in_place random_value Math_sin Math_cos
                    Math_acos Math_cbrt s0 w0) as [Hlen Hcon];
      pose proof (initializeParticles_heap s0 w0) as Hfr;
      pose proof (for_each_randoms random_value Math_sin Math_cos Math_acos
                    Math_cbrt s0 (seq 0 (count s0)) w0) as Hrnd;
      pose proof (for_each_cells random_value Math_sin Math_cos Math_acos
                    Math_cbrt s0 (count s0) 0 w0) as Hcells;
      fold (initializeParticles s0 w0) in Hrnd, Hcells;
      destruct (initializeParticles s0 w0) as [u w']
  end.
  cbn [fst snd mret M_ret positions velocities colors sizes lifetimes count
       config targetPositions forceFields gridSize grid heap randoms console]
    in *.
  rewrite length_seq in Hrnd.
  repeat match goal with
         | H : <[_ := _]> _ !! _ = None |- _ =>
             apply lookup_insert_None in H as [H ?]
         end.
  match goal with
  | |- context [NoDup ?l] => assert (NoDup l) as Hnd
  end.
  { repeat (apply NoDup_cons; split;
            [rewrite ?not_elem_of_cons; repeat split;
             first [ congruence | apply not_elem_of_nil ]|]).
    apply NoDup_nil_2. }
  do 6 (split; [reflexivity|]).
  split; [exact Hnd|].
  split; [repeat constructor; assumption|].
  do 5 (split;
        [rewrite Hlen;
         repeat (rewrite ?lookup_insert_eq;
                 rewrite ?lookup_insert_ne by congruence);
         cbn; now rewrite length_replicate|]).
  split.
  { intros a Ha. rewrite Hfr by exact Ha.
    repeat match goal with
           | H : _ ∉ _ :: _ |- _ => apply not_elem_of_cons in H as [? H]
           end.
    now rewrite !lookup_insert_ne by congruence. }
  split; [exact Hrnd|]. split; [exact Hcon|].
  intros i Hi. specialize (Hcells Hnd i ltac:(lia)).
  rewrite Nat.sub_0_r in Hcells.
  unfold initialized, put in Hcells.
  cbn [positions velocities colors sizes lifetimes config] in Hcells.
  repeat match type of Hcells with
  | context [cell ?w0 ?a ?j] =>
      lazymatch w0 with
      | w' => fail
      | _ =>
          let E := fresh "E" in
          assert (cell w0 a j = Some 0) as E
            by (unfold cell; cbn [heap];
                repeat (rewrite ?lookup_insert_eq;
                        rewrite ?lookup_insert_ne by congruence);
                cbn; apply lookup_replicate_2; lia);
          rewrite E in Hcells; clear E
      end
  end.
  exact Hcells.
Qed.

End Constructor.

Lemma new_allocates_and_initializes_witness :
  let r := Particles.new (fun _ => 0.5) (fun a => a) (fun a => a)
             (fun a => a) (fun a => a) sample_config sample_world in
  count r.1 = 2%nat
  /\ NoDup [positions r.1; velocities r.1; colors r.1; sizes r.1;
            lifetimes r.1]
  /\ heap sample_world !! positions r.1 = None
  /\ length <$> (heap r.2 !! colors r.1) = Some 6%nat
  /\ heap r.2 !! 3%nat = Some (replicate 2 0.25)
  /\ randoms r.2 = 20%nat
  /\ cell r.2 (velocities r.1) 4 = Some 0
  /\ cell r.2 (sizes r.1) 1 = Some 0.75
  /\ cell r.2 (lifetimes r.1) 1 = Some 1.
Proof.
  cbv zeta.
  destruct (new_allocates_and_initializes (fun _ => 0.5) (fun a => a)
              (fun a => a) (fun a => a) (fun a => a) sample_config
              sample_world)
    as (Hc & _ & _ & _ & _ & _ & Hnd & Hf & _ & _ & Hl & _ & _ & Hfr & Hr & _
        & Hcells).
  split; [exact Hc|]. split; [exact Hnd|].
  split; [exact (proj1 (proj1 (Forall_cons _ _ _) Hf))|].
  split; [exact Hl|].
  split.
  { rewrite Hfr; [reflexivity|]. vm_compute.
    intros H. repeat (apply elem_of_cons in H as [H|H]; [discriminate|]).
    now apply elem_of_nil in H. }
  split; [exact Hr|].
  destruct (Hcells 1%nat ltac:(vm_compute; lia))
    as (_ & _ & _ & _ & Hv & _ & _ & _ & _ & Hsz & Hlt).
  split; [etrans; [exact Hv | vm_compute; reflexivity]|].
  split; [etrans; [exact Hsz | vm_compute; reflexivity] | exact Hlt].
Defined.

End ParticleArrayFacts.

(** ** Forces on a particle *)

Module ParticleForceFacts.
Import JS FloatFacts FloatOrder Particles.

Lemma SFsqrt_core_binary_nonneg m e :
  (0 <= fst (fst (SFsqrt_core_binary prec emax (Zpos m) e)))%Z.
Proof.
  unfold SFsqrt_core_binary. cbv zeta.
  set (m' := match (e - _)%Z with Z0 => _ | Zpos _ => _ | Zneg _ => _ end).
  pose proof (Z.sqrtrem_sqrt m') as H. pose proof (Z.sqrt_nonneg m') as H'.
  change IntDef.Z.sqrtrem with Z.sqrtrem.
  destruct (Z.sqrtrem m') as [q r]. cbn [fst] in *. lia.
Qed.

(** A square root is a NaN or has no minus sign but that of [-0]. *)
Lemma sqrt_ltb_pos a c : (sqrt a <? c) = true -> (0 <? c) = true.
Proof.
  rewrite !ltb_spec, sqrt_spec. unfold SF64sqrt, SFltb.
  change (Prim2SF 0) with (S754_zero false).
  destruct (Prim2SF a) as [s|[]| |[] m e]; cbn [SFsqrt];
    try (now destruct (Prim2SF c) as [?|[]| |[] ? ?]).
  pose proof (SFsqrt_core_binary_nonneg m e) as H.
  destruct (SFsqrt_core_binary prec emax (Zpos m) e) as [[mz ez] lz].
  cbn [fst] in H.
  pose proof (binary_round_aux_signed prec emax false mz ez lz H) as Hs.
  destruct (binary_round_aux prec emax false mz ez lz) as [s|s| |s m' e'];
    cbn [sf_signed] in Hs; try contradiction; subst s;
    now destruct (Prim2SF c) as [?|[]| |[] ? ?].
Qed.

(** X18.  A force field reaches no particle unless its radius is above
    zero: with a radius that is zero, negative or NaN, the field leaves
    the force on every particle as it is, whatever its kind, its strength
    and its place; and a system whose fields all are such applies no field
    force at all. *)
Theorem field_without_reach_is_inert
    (s : t) (p f : Vector3) (field : ForceField) :
  ((0 <? radius field) = false -> field_step p f field = f)
  /\ (Forall (fun fd => (0 <? radius fd) = false) (forceFields s) ->
      field_forces s p f = f).
Proof.
  assert (forall fd g, (0 <? radius fd) = false -> field_step p g fd = g)
    as Hstep.
  { intros fd g H. unfold field_step.
    destruct (sqrt _ <? radius fd) eqn:E; [|reflexivity].
    apply sqrt_ltb_pos in E. congruence. }
  split; [apply Hstep|].
  unfold field_forces. intros H. revert f.
  induction H as [|fd l Hfd _ IH]; intros f; [reflexivity|].
  cbn [fold_left]. rewrite Hstep by exact Hfd. apply IH.
Qed.

Lemma field_without_reach_is_inert_witness :
  let still r k := {| position := centre; strength := 5; radius := r;
                      type := k |} in
  field_step centre {| x := 1; y := 2; z := 3 |} (still 0 attract)
  = {| x := 1; y := 2; z := 3 |}
  /\ field_step centre {| x := 1; y := 2; z := 3 |} (still nan vortex)
     = {| x := 1; y := 2; z := 3 |}
  /\ field_forces (with_fields sample [still (-1) repel; still 0 vortex])
       centre {| x := 1; y := 2; z := 3 |}
     = {| x := 1; y := 2; z := 3 |}
  /\ (x (field_step centre {| x := 1; y := 2; z := 3 |} whirl) =? 1) = false.
Proof.
  cbv zeta.
  split; [apply (field_without_reach_is_inert sample); reflexivity|].
  split; [apply (field_without_reach_is_inert sample); reflexivity|].
  split; [|reflexivity].
  apply field_without_reach_is_inert; [exact whirl|].
  repeat constructor.
Defined.

(** X19.  A particle that sits on its target is not pulled: with finite
    coordinates, a finite magnetic strength and a finite force so far,
    [magnetic_step] returns a force equal ([===]) to the one it was
    given, on each axis.  The 0.001 added under the square root keeps the
    division from being 0 / 0. *)
Theorem magnetic_pull_vanishes_on_the_target
    (magneticStrength : float) (p f : Vector3) :
  is_finite magneticStrength = true ->
  is_finite (x p) = true -> is_finite (y p) = true ->
  is_finite (z p) = true ->
  is_finite (x f) = true -> is_finite (y f) = true ->
  is_finite (z f) = true ->
  let f' := magnetic_step magneticStrength p p f in
  (x f' =? x f) = true /\ (y f' =? y f) = true /\ (z f' =? z f) = true.
Proof.
  intros Hm Hx Hy Hz Hfx Hfy Hfz. cbv zeta. unfold magnetic_step.
  cbn [x y z]. rewrite !sub_self by assumption.
  assert (is_zero (0 / sqrt (0 * 0 + 0 * 0 + 0 * 0 + 0.001) * magneticStrength)
          = true) as Hw by (apply mul_zero_l; [assumption | reflexivity]).
  repeat split; (apply eqz_same; [assumption|]);
    now apply add_finite_zero.
Qed.

Lemma magnetic_pull_vanishes_on_the_target_witness :
  let p := {| x := 1; y := -2; z := 0.5 |} in
  let f := {| x := 0; y := -9.8; z := 0.25 |} in
  (y (magnetic_step 3 p p f) =? -9.8) = true
  /\ (y (magnetic_step 3 p {| x := 1; y := 2; z := 0.5 |} f) =? -9.8) = false.
Proof.
  cbv zeta. split; [|reflexivity].
  apply (magnetic_pull_vanishes_on_the_target 3 {| x := 1; y := -2; z := 0.5 |}
           {| x := 0; y := -9.8; z := 0.25 |}); reflexivity.
Defined.

End ParticleForceFacts.

(** ** The frame-rate monitor *)

Module PerformanceFacts.
Import Store StoreFacts Performance.

Lemma lowered_refl w : lowered w w.
Proof. split; [now destruct (settings w) | split; [reflexivity | lia]]. Qed.

Lemma lowered_trans w1 w2 w3 : lowered w1 w2 -> lowered w2 w3 -> lowered w1 w3.
Proof.
  intros (S1 & P1 & R1) (S2 & P2 & R2). split; [|split].
  - rewrite S2 at 1. rewrite S1. reflexivity.
  - now transitivity (console w2).
  - lia.
Qed.

Section Host.
Variable toFixed1 : float -> string.

#[local] Abbreviation checkPerformance := (Performance.checkPerformance toFixed1).
#[local] Abbreviation update := (Performance.update toFixed1).
#[local] Abbreviation step := (Performance.step toFixed1).
#[local] Abbreviation run := (Performance.run toFixed1).

Lemma checkPerformance_lowered m w : lowered w (checkPerformance m w).2.
Proof.
  unfold Performance.checkPerformance.
  destruct (_ && _) eqn:E; [|apply lowered_refl].
  apply andb_true_iff in E as [_ E]. unfold lowered. cbn.
  split; [reflexivity|]. split; [now apply prefix_app_r|].
  rewrite length_app. cbn [length].
  destruct (performanceMode (settings w)); cbn in *; (discriminate || lia).
Qed.

Lemma checkPerformance_frames m w :
  frames (checkPerformance m w).1 = frames m
  /\ lastTime (checkPerformance m w).1 = lastTime m
  /\ currentFPS (checkPerformance m w).1 = currentFPS m
  /\ autoAdjust (checkPerformance m w).1 = autoAdjust m.
Proof.
  unfold Performance.checkPerformance. now destruct (_ && _).
Qed.

Lemma checkPerformance_low m w :
  performanceMode (settings w) = low -> (checkPerformance m w).2 = w.
Proof.
  intros H. unfold Performance.checkPerformance. rewrite H. cbn.
  now rewrite andb_false_r.
Qed.

Lemma update_lowered now m w : lowered w (update now m w).2.
Proof.
  unfold Performance.update. cbv zeta. cbn [autoAdjust adjustCooldown].
  destruct (autoAdjust m && (adjustCooldown m <=? 0)).
  - match goal with
    | |- context [checkPerformance ?M w] =>
        pose proof (checkPerformance_lowered M w) as H;
        destruct (checkPerformance M w) as [m1 w1]
    end.
    exact H.
  - apply lowered_refl.
Qed.

Lemma update_low now m w :
  performanceMode (settings w) = low -> (update now m w).2 = w.
Proof.
  intros Hl. unfold Performance.update. cbv zeta.
  cbn [autoAdjust adjustCooldown].
  destruct (autoAdjust m && (adjustCooldown m <=? 0)); [|reflexivity].
  match goal with
  | |- context [checkPerformance ?M w] =>
      pose proof (checkPerformance_low M w Hl) as H;
      destruct (checkPerformance M w) as [m1 w1]
  end.
  exact H.
Qed.

Lemma update_off now m w :
  autoAdjust m = false ->
  (update now m w).2 = w /\ autoAdjust (update now m w).1 = false.
Proof.
  intros Ha. unfold Performance.update. cbv zeta.
  cbn [autoAdjust adjustCooldown]. rewrite Ha. cbn [andb].
  cbn [autoAdjust adjustCooldown].
  destruct (0 <? adjustCooldown m); cbn; auto.
Qed.

(** What a call of [update] leaves in the monitor. *)
Lemma update_frames now m w :
  let fps := 1000 / (now - lastTime m) in
  let window :=
    if (60 <? length (frames m ++ [fps]))%nat then drop 1 (frames m ++ [fps])
    else frames m ++ [fps] in
  frames (update now m w).1 = window
  /\ lastTime (update now m w).1 = now
  /\ currentFPS (update now m w).1
     = fold_left (fun a b => a + b) window 0
       / MercurySurface.of_Z (Z.of_nat (length window))
  /\ autoAdjust (update now m w).1 = autoAdjust m.
Proof.
  cbv zeta. unfold Performance.update. cbv zeta.
  cbn [autoAdjust adjustCooldown].
  destruct (autoAdjust m && (adjustCooldown m <=? 0)).
  - match goal with
    | |- context [checkPerformance ?M w] =>
        pose proof (checkPerformance_frames M w) as (H1 & H2 & H3 & H4);
        destruct (checkPerformance M w) as [m1 w1]
    end.
    cbn [fst frames lastTime currentFPS autoAdjust] in *.
    destruct (0 <? adjustCooldown m1); cbn; auto.
  - cbn [fst adjustCooldown].
    destruct (0 <? adjustCooldown m); cbn; auto.
Qed.

Lemma window_slice (l : list float) a :
  (length l <= 60)%nat ->
  (if (60 <? length (l ++ [a]))%nat then drop 1 (l ++ [a]) else l ++ [a])
  = slice_last 60 (l ++ [a]).
Proof.
  intros H. unfold slice_last. rewrite length_app. cbn [length].
  destruct (60 <? length l + 1)%nat eqn:E.
  - apply Nat.ltb_lt in E. now replace (length l + 1 - 60)%nat with 1%nat by lia.
  - apply Nat.ltb_ge in E. now replace (length l + 1 - 60)%nat with 0%nat by lia.
Qed.

Lemma monitor_run_cons o ops m w :
  run (o :: ops) m w = run ops (step (m, w) o).1 (step (m, w) o).2.
Proof. unfold Performance.run. cbn [fold_left]. now destruct (step (m, w) o). Qed.

Lemma step_lowered o m w : lowered w (step (m, w) o).2.
Proof. destruct o; [apply update_lowered | apply lowered_refl]. Qed.

Lemma run_lowered ops : forall m w, lowered w (run ops m w).2.
Proof.
  induction ops as [|o ops IH]; intros m w; [apply lowered_refl|].
  rewrite monitor_run_cons.
  apply (lowered_trans _ (step (m, w) o).2); [apply step_lowered | apply IH].
Qed.

Lemma run_low ops : forall m w,
  performanceMode (settings w) = low -> (run ops m w).2 = w.
Proof.
  induction ops as [|o ops IH]; intros m w Hl; [reflexivity|].
  rewrite monitor_run_cons.
  assert ((step (m, w) o).2 = w) as E
    by (destruct o; [now apply update_low | reflexivity]).
  rewrite E. now apply IH.
Qed.

Lemma run_off ops : forall m w,
  autoAdjust m = false -> Forall (fun o => o <> SetAutoAdjust true) ops ->
  (run ops m w).2 = w.
Proof.
  induction ops as [|o ops IH]; intros m w Ha Ho; [reflexivity|].
  rewrite monitor_run_cons. inversion Ho as [|? ? Hne Ho']; subst.
  destruct o as [now|[]]; cbn [Performance.step fst snd].
  - destruct (update_off now m w Ha) as [E Ha']. rewrite E. now apply IH.
  - congruence.
  - now apply IH.
Qed.

Lemma run_frames ops : forall m w,
  (length (frames m) <= 60)%nat ->
  frames (run ops m w).1
  = slice_last 60 (frames m ++ readings (lastTime m) ops).
Proof.
  induction ops as [|o ops IH]; intros m w Hm.
  - cbn. rewrite app_nil_r. now rewrite slice_last_le.
  - rewrite monitor_run_cons. destruct o as [now|b];
      cbn [Performance.step fst snd readings].
    + destruct (update_frames now m w) as (F & L & _).
      rewrite window_slice in F by exact Hm.
      rewrite IH, F, L by (rewrite F, slice_last_length; lia).
      rewrite slice_last_app. now rewrite <- app_assoc.
    + now rewrite IH.
Qed.

Lemma run_snoc ops o m w :
  run (ops ++ [o]) m w = step (run ops m w) o.
Proof. unfold Performance.run. now rewrite fold_left_app. Qed.

(** X20.  The monitor only ever lowers the quality, one step per log
    line, and touches no other setting: after any sequence of [update]
    and [setAutoAdjust] calls the settings are those it found but for the
    performance mode, which is the one it found or a lower one; the
    console kept its lines and gained one line per step down, so at most
    two in the life of a monitor.  A store already in low mode, and a
    monitor whose auto-adjustment is off and is not turned on, leave
    settings and console alone. *)
Theorem monitor_only_lowers_quality
    (ops : list op) (m : FPSMonitor) (w : World) :
  let w' := (run ops m w).2 in
  let before := performanceMode (settings w) in
  let after := performanceMode (settings w') in
  settings w' = updateSettings_performanceMode after (settings w)
  /\ (rank after <= rank before)%nat
  /\ console w `prefix_of` console w'
  /\ length (console w') = (length (console w) + (rank before - rank after))%nat
  /\ (length (console w') <= length (console w) + 2)%nat
  /\ (before = low -> w' = w)
  /\ (autoAdjust m = false ->
      Forall (fun o => o <> SetAutoAdjust true) ops -> w' = w).
Proof.
  cbv zeta. destruct (run_lowered ops m w) as (Hs & Hp & Hr).
  pose proof (prefix_length _ _ Hp) as Hl.
  assert (rank (performanceMode (settings w)) <= 2)%nat
    by (destruct (performanceMode (settings w)); cbn; lia).
  split; [exact Hs|]. split; [lia|]. split; [exact Hp|].
  split; [lia|]. split; [lia|]. split.
  - apply run_low.
  - apply run_off.
Qed.

(** X21.  The monitor averages the last sixty frames: after any sequence
    of calls that ends with an [update], on a monitor that held at most
    sixty readings, the window holds the last sixty of the readings it
    held followed by those the calls took, each [1000 / (now - last)]
    with [last] the clock reading of the [update] before; it holds at
    least one and at most sixty readings; and [getFPS] is their sum,
    added from the left starting at 0, divided by their number. *)
Theorem monitor_averages_the_last_sixty_frames
    (ops : list op) (now : float) (m : FPSMonitor) (w : World) :
  (length (frames m) <= 60)%nat ->
  let m' := (run (ops ++ [Update now]) m w).1 in
  let all := frames m ++ readings (lastTime m) (ops ++ [Update now]) in
  frames m' = slice_last 60 all
  /\ (1 <= length (frames m') <= 60)%nat
  /\ lastTime m' = now
  /\ getFPS m'
     = fold_left (fun a b => a + b) (frames m') 0
       / MercurySurface.of_Z (Z.of_nat (length (frames m'))).
Proof.
  intros Hm. cbv zeta.
  pose proof (run_frames (ops ++ [Update now]) m w Hm) as F.
  pose proof (run_frames ops m w Hm) as F0.
  rewrite run_snoc in *. cbn [Performance.step] in *.
  destruct (update_frames now (run ops m w).1 (run ops m w).2)
    as (Fu & L & C & _).
  assert (length (frames (run ops m w).1) <= 60)%nat as Hm'
    by (rewrite F0, slice_last_length; lia).
  rewrite window_slice in Fu, C by exact Hm'.
  split; [exact F|]. split; [|split; [exact L|]].
  - rewrite Fu, slice_last_length, length_app. cbn [length]. lia.
  - unfold getFPS. rewrite C, Fu. reflexivity.
Qed.

End Host.

Lemma monitor_only_lowers_quality_witness :
  let r := Performance.run (fun _ => "10.0")
             [Update 100; Update 200; Update 6000; Update 6100]
             (new 0) {| settings := default_settings; console := ["ready"] |} in
  performanceMode (settings r.2) = low
  /\ settings r.2 = updateSettings_performanceMode low default_settings
  /\ length (console r.2) = 3%nat
  /\ (Performance.run (fun _ => "10.0") [Update 100; Update 6100]
        (setAutoAdjust false (new 0))
        {| settings := default_settings; console := [] |}).2
     = {| settings := default_settings; console := [] |}.
Proof.
  cbv zeta.
  destruct (monitor_only_lowers_quality (fun _ => "10.0")
              [Update 100; Update 200; Update 6000; Update 6100]
              (new 0) {| settings := default_settings; console := ["ready"] |})
    as (Hs & _ & _ & Hl & _).
  destruct (monitor_only_lowers_quality (fun _ => "10.0")
              [Update 100; Update 6100] (setAutoAdjust false (new 0))
              {| settings := default_settings; console := [] |})
    as (_ & _ & _ & _ & _ & _ & Hoff).
  assert (performanceMode
            (settings
               (Performance.run (fun _ => "10.0")
                  [Update 100; Update 200; Update 6000; Update 6100]
                  (new 0)
                  {| settings := default_settings; console := ["ready"] |}).2)
          = low) as Hlow by (vm_compute; reflexivity).
  split; [exact Hlow|].
  split; [rewrite Hs at 1; now rewrite Hlow|].
  split; [rewrite Hl, Hlow; reflexivity|].
  apply Hoff; [reflexivity|].
  repeat constructor; discriminate.
Defined.

Lemma monitor_averages_the_last_sixty_frames_witness :
  let full := {| frames := replicate 60 60; lastTime := 1000;
                 currentFPS := 60; autoAdjust := true;
                 adjustCooldown := 0 |} in
  let r := Performance.run (fun _ => "") [SetAutoAdjust false; Update 1016]
             full {| settings := default_settings; console := [] |} in
  (length (frames full) <= 60)%nat
  /\ frames r.1 = replicate 59 60 ++ [62.5]
  /\ lastTime r.1 = 1016
  /\ getFPS r.1
     = fold_left (fun a b => a + b) (replicate 59 60 ++ [62.5]) 0 / 60.
Proof.
  cbv zeta.
  assert (length (replicate 60 60) <= 60)%nat as H by (vm_compute; lia).
  destruct (monitor_averages_the_last_sixty_frames (fun _ => "")
              [SetAutoAdjust false] 1016
              {| frames := replicate 60 60; lastTime := 1000;
                 currentFPS := 60; autoAdjust := true;
                 adjustCooldown := 0 |}
              {| settings := default_settings; console := [] |} H)
    as (F & _ & L & G).
  split; [exact H|].
  split; [etrans; [exact F | vm_compute; reflexivity]|].
  split; [exact L|].
  etrans; [exact G | vm_compute; reflexivity].
Defined.

End PerformanceFacts.
